(** * TransfersConsumer: a shallow embedding of lib/Transfers/TransfersConsumer.cpp

    The wallet-side consumer scans transactions for outputs owned by the
    subscribed accounts, builds the transfer records of the owned outputs and
    applies them to the subscriptions.  This development embeds the functions
    of [TransfersConsumer.cpp] as Rocq functions and proves the properties the
    specification states about them. *)

From stdpp Require Import base option list gmap sets sorting.
From Stdlib Require Import NArith ZArith Lia.

Local Open Scope N_scope.

(** ** Data model *)

(** [Crypto::Hash], [Crypto::PublicKey], [Crypto::KeyImage], [Crypto::SecretKey]
    and [Crypto::KeyDerivation] are 32-byte PODs compared bytewise; each is
    represented by the number its bytes spell. *)
Abbreviation Hash := N.
Abbreviation PublicKey := N.
Abbreviation KeyImage := N.
Abbreviation SecretKey := N.
Abbreviation KeyDerivation := N.

(** [std::error_code]: the default-constructed code tests false, every other
    one tests true.  [NodeError] stands for the codes the node reports. *)
Inductive error_code :=
| Success
| ArgumentOutOfDomain
| OperationCanceled
| NodeError (code : positive).

#[global] Instance error_code_eq_dec : EqDecision error_code.
Proof. solve_decision. Defined.

(** [if (ec)] *)
Definition is_error (ec : error_code) : bool :=
  match ec with Success => false | _ => true end.

(** [TransactionTypes::OutputType] *)
Inductive OutputType := Key | Multisignature | Other.

#[global] Instance OutputType_eq_dec : EqDecision OutputType.
Proof. solve_decision. Defined.

(** What [ITransactionReader::getOutput] yields for one output: a
    [KeyOutput], a [MultisignatureOutput], or an output of another type. *)
Inductive TransactionOutput :=
| OutKey (amount : N) (key : PublicKey)
| OutMultisignature (amount : N) (keys : list PublicKey) (requiredSignatureCount : N)
| OutOther.

(** The part of [ITransactionReader] the consumer reads. *)
Record ITransactionReader := {
  getTransactionPublicKey : PublicKey;
  getTransactionHash : Hash;
  txOutputs : list TransactionOutput
}.

Definition getOutputCount (tx : ITransactionReader) : N :=
  N.of_nat (length (txOutputs tx)).

Definition getOutput (tx : ITransactionReader) (idx : N) : option TransactionOutput :=
  txOutputs tx !! N.to_nat idx.

Definition outputTypeOf (o : TransactionOutput) : OutputType :=
  match o with
  | OutKey _ _ => Key
  | OutMultisignature _ _ _ => Multisignature
  | OutOther => Other
  end.

Definition getOutputType (tx : ITransactionReader) (idx : N) : option OutputType :=
  outputTypeOf <$> getOutput tx idx.

Record AccountPublicAddress := {
  spendPublicKey : PublicKey;
  viewPublicKey : PublicKey
}.

Record AccountKeys := {
  address : AccountPublicAddress;
  spendSecretKey : SecretKey;
  viewSecretKey : SecretKey
}.

Record SynchronizationStart := {
  ss_timestamp : N;
  ss_height : N
}.

Record AccountSubscription := {
  keys : AccountKeys;
  syncStart : SynchronizationStart
}.

Record TransactionBlockInfo := {
  height : N;
  timestamp : N;
  transactionIndex : N
}.

(** [TransactionOutputInformationIn]: the C++ struct holds [outputKey] and
    [requiredSignatures] in a union selected by [type]; [keyImage] is written
    for Key outputs only. *)
Inductive OutputDetails :=
| KeyDetails (outputKey : PublicKey) (keyImage : KeyImage)
| MultisignatureDetails (requiredSignatures : N).

Record TransactionOutputInformationIn := {
  type : OutputType;
  transactionPublicKey : PublicKey;
  outputInTransaction : N;
  globalOutputIndex : N;
  amount : N;
  details : OutputDetails
}.

(** The process-wide registry: the globals [transactions_hash_seen] and
    [public_keys_seen], both guarded by [seen_mutex]. *)
Record Seen := {
  transactions_hash_seen : gset Hash;
  public_keys_seen : gset PublicKey
}.

(** The four error lines [createTransfers] writes to [m_logger]. *)
Inductive LogLine :=
| DuplicateOutputKey (txHash : Hash)
| SameOutputKeyTwice (txHash : Hash)
| DuplicateMultisignatureOutputKey (txHash : Hash)
| SameMultisignatureOutputKeyTwice (txHash : Hash).

(** How a call ends: it returns an error code, a failed [assert] aborts the
    process, or it reads a vector past its end (undefined behaviour). *)
Inductive Outcome :=
| Returned (ec : error_code)
| AssertionFailed
| OutOfBounds.

#[global] Instance Outcome_eq_dec : EqDecision Outcome.
Proof. solve_decision. Defined.

(** Control flow of a loop body: fall through to the next iteration, or leave
    the function. *)
Inductive Flow (S : Type) :=
| Next (s : S)
| Leave (o : Outcome) (s : S).
Arguments Next {S} s.
Arguments Leave {S} o s.

(** ** The transfer builder *)

(** Locals of [createTransfers] that change while it runs. *)
Record BuildState := {
  temp_keys : list PublicKey;
  transfers : list TransactionOutputInformationIn;
  logged : list LogLine
}.

Definition stage (key : PublicKey) (st : BuildState) : BuildState :=
  {| temp_keys := temp_keys st ++ [key];
     transfers := transfers st;
     logged := logged st |}.

Definition log_error (line : LogLine) (st : BuildState) : BuildState :=
  {| temp_keys := temp_keys st;
     transfers := transfers st;
     logged := logged st ++ [line] |}.

Definition push_back (info : TransactionOutputInformationIn) (st : BuildState) : BuildState :=
  {| temp_keys := temp_keys st;
     transfers := transfers st ++ [info];
     logged := logged st |}.

(** Result of a [createTransfers] call: how it ended, the [transfers] vector
    the caller passed by reference, the registry, and the lines logged. *)
Record BuildResult := {
  outcome : Outcome;
  transfers_out : list TransactionOutputInformationIn;
  seen_out : Seen;
  log_out : list LogLine
}.

(** Constants, macros and primitives this file uses and other files of the
    repository declare. *)
Class Externals := {
  WALLET_UNCONFIRMED_TRANSACTION_HEIGHT : N;
  UNCONFIRMED_TRANSACTION_GLOBAL_OUTPUT_INDEX : N;
  NULL_PUBLIC_KEY : PublicKey;
  (** [NDEBUG]: when set, [assert] compiles to nothing. *)
  NDEBUG : bool;
  (** [None] when the derivation fails. *)
  generate_key_derivation : PublicKey -> SecretKey -> option KeyDerivation;
  (** the content of [spendKey] after the call; its boolean result is ignored. *)
  underive_public_key : KeyDerivation -> N -> PublicKey -> PublicKey;
  (** the public key of [in_ephemeral] and the key image. *)
  generate_key_image_helper : AccountKeys -> PublicKey -> N -> PublicKey * KeyImage
}.

(** [assert(cond)] followed by [k] *)
Definition assert_then `{ext : Externals} {S : Type} (cond : bool) (st : S) (k : Flow S) : Flow S :=
  if NDEBUG || cond then k else Leave AssertionFailed st.

(** Lines 496-514 and 523-541: the duplicate-key check made for one output
    key, with the two lines it may log. *)
Definition check_seen (seen : Seen) (txHash : Hash) (dup twice : LogLine)
    (key : PublicKey) (st : BuildState) : Flow BuildState :=
  if decide (txHash ∈ transactions_hash_seen seen) then Next st
  else if decide (key ∈ public_keys_seen seen) then
    Leave (Returned Success) (log_error dup st)
  else if decide (key ∈ temp_keys st) then
    Leave (Returned Success) (log_error twice st)
  else Next (stage key st).

(** Lines 522-542: [for (const auto &key : out.keys)] *)
Fixpoint check_seen_all (seen : Seen) (txHash : Hash) (ks : list PublicKey)
    (st : BuildState) : Flow BuildState :=
  match ks with
  | [] => Next st
  | key :: rest =>
      match check_seen seen txHash (DuplicateMultisignatureOutputKey txHash)
              (SameMultisignatureOutputKeyTwice txHash) key st with
      | Next st' => check_seen_all seen txHash rest st'
      | Leave o st' => Leave o st'
      end
  end.

(** Lines 477-478. [globalIdxs[idx]] past the end of the vector is undefined
    behaviour: [None]. *)
Definition global_output_index `{ext : Externals} (blockInfo : TransactionBlockInfo)
    (globalIdxs : list N) (idx : N) : option N :=
  if decide (height blockInfo = WALLET_UNCONFIRMED_TRANSACTION_HEIGHT)
  then Some UNCONFIRMED_TRANSACTION_GLOBAL_OUTPUT_INDEX
  else globalIdxs !! N.to_nat idx.

(** Lines 461-547: the body of [for (auto idx : outputs)]. *)
Definition createTransfers_body `{ext : Externals} (account : AccountKeys)
    (blockInfo : TransactionBlockInfo) (tx : ITransactionReader)
    (globalIdxs : list N) (seen : Seen) (idx : N) (st : BuildState)
    : Flow BuildState :=
  let txPubKey := getTransactionPublicKey tx in
  let txHash := getTransactionHash tx in
  if decide (getOutputCount tx <= idx) then Leave (Returned ArgumentOutOfDomain) st
  else
    match getOutput tx idx with
    | None => Leave OutOfBounds st (* excluded by the guard above *)
    | Some OutOther => Next st
    | Some (OutKey amount key) =>
        match global_output_index blockInfo globalIdxs idx with
        | None => Leave OutOfBounds st
        | Some g =>
            let '(ephemeral, image) := generate_key_image_helper account txPubKey idx in
            assert_then (key =? ephemeral) st
              match check_seen seen txHash (DuplicateOutputKey txHash)
                      (SameOutputKeyTwice txHash) key st with
              | Leave o st' => Leave o st'
              | Next st' =>
                  Next (push_back {| type := Key;
                                     transactionPublicKey := txPubKey;
                                     outputInTransaction := idx;
                                     globalOutputIndex := g;
                                     amount := amount;
                                     details := KeyDetails key image |} st')
              end
        end
    | Some (OutMultisignature amount keys required) =>
        match global_output_index blockInfo globalIdxs idx with
        | None => Leave OutOfBounds st
        | Some g =>
            match check_seen_all seen txHash keys st with
            | Leave o st' => Leave o st'
            | Next st' =>
                Next (push_back {| type := Multisignature;
                                   transactionPublicKey := txPubKey;
                                   outputInTransaction := idx;
                                   globalOutputIndex := g;
                                   amount := amount;
                                   details := MultisignatureDetails required |} st')
            end
        end
    end.

(** Lines 460-548: the loop over the owned output indices. *)
Fixpoint createTransfers_loop `{ext : Externals} (account : AccountKeys)
    (blockInfo : TransactionBlockInfo) (tx : ITransactionReader)
    (globalIdxs : list N) (seen : Seen) (outputs : list N) (st : BuildState)
    : Flow BuildState :=
  match outputs with
  | [] => Next st
  | idx :: rest =>
      match createTransfers_body account blockInfo tx globalIdxs seen idx st with
      | Next st' => createTransfers_loop account blockInfo tx globalIdxs seen rest st'
      | Leave o st' => Leave o st'
      end
  end.

(** Lines 550-555: the merge into the registry after the loop. *)
Definition merge_seen (txHash : Hash) (tks : list PublicKey) (seen : Seen) : Seen :=
  {| transactions_hash_seen := transactions_hash_seen seen ∪ {[ txHash ]};
     public_keys_seen := public_keys_seen seen ∪ list_to_set tks |}.

(** [TransfersConsumer::createTransfers].  [transfers0] is the vector the
    caller passes by reference; [seen] is the registry on entry. *)
Definition createTransfers `{ext : Externals} (account : AccountKeys)
    (blockInfo : TransactionBlockInfo) (tx : ITransactionReader)
    (outputs : list N) (globalIdxs : list N)
    (transfers0 : list TransactionOutputInformationIn) (seen : Seen)
    : BuildResult :=
  match createTransfers_loop account blockInfo tx globalIdxs seen outputs
          {| temp_keys := []; transfers := transfers0; logged := [] |} with
  | Leave o st =>
      {| outcome := o; transfers_out := transfers st;
         seen_out := seen; log_out := logged st |}
  | Next st =>
      {| outcome := Returned Success; transfers_out := transfers st;
         seen_out := merge_seen (getTransactionHash tx) (temp_keys st) seen;
         log_out := logged st |}
  end.

(** [TransfersConsumer::addPublicKeysSeen] *)
Definition addPublicKeysSeen (transactionHash : Hash) (outputKey : PublicKey)
    (seen : Seen) : Seen :=
  {| transactions_hash_seen := transactions_hash_seen seen ∪ {[ transactionHash ]};
     public_keys_seen := public_keys_seen seen ∪ {[ outputKey ]} |}.

(** ** The output scanner *)

(** [static_cast<uint32_t>(x)] and arithmetic on [size_t] (64 bits). *)
Definition uint32_cast (x : N) : N := x mod 2 ^ 32.
Definition size_t_wrap (x : N) : N := x mod 2 ^ 64.

(** [checkOutputKey]: [outputs[spendKey]] creates an empty vector for a key
    that is not in the map yet. *)
Definition checkOutputKey `{ext : Externals} (derivation : KeyDerivation)
    (key : PublicKey) (keyIndex outputIndex : N) (spendKeys : gset PublicKey)
    (outputs : gmap PublicKey (list N)) : gmap PublicKey (list N) :=
  let spendKey := underive_public_key derivation keyIndex key in
  if decide (spendKey ∈ spendKeys) then
    <[spendKey := default [] (outputs !! spendKey) ++ [uint32_cast outputIndex]]> outputs
  else outputs.

(** Lines 94-97: [for (const auto &key : out.keys)], on the pair of the local
    [keyIndex] and the map [outputs]. *)
Fixpoint scan_multisignature_keys `{ext : Externals} (derivation : KeyDerivation)
    (ks : list PublicKey) (idx : N) (spendKeys : gset PublicKey)
    (st : N * gmap PublicKey (list N)) : N * gmap PublicKey (list N) :=
  match ks with
  | [] => st
  | key :: rest =>
      scan_multisignature_keys derivation rest idx spendKeys
        (size_t_wrap (st.1 + 1), checkOutputKey derivation key idx idx spendKeys st.2)
  end.

(** Lines 79-99: the loop over the outputs from position [idx] on; [outs] are
    the outputs at the positions [idx], [idx + 1], ... *)
Fixpoint scan_outputs `{ext : Externals} (derivation : KeyDerivation)
    (outs : list TransactionOutput) (idx : N) (spendKeys : gset PublicKey)
    (st : N * gmap PublicKey (list N)) : N * gmap PublicKey (list N) :=
  match outs with
  | [] => st
  | o :: rest =>
      scan_outputs derivation rest (idx + 1) spendKeys
        match o with
        | OutKey _ key =>
            (size_t_wrap (st.1 + 1),
             checkOutputKey derivation key st.1 idx spendKeys st.2)
        | OutMultisignature _ ks _ =>
            scan_multisignature_keys derivation ks idx spendKeys st
        | OutOther => st
        end
  end.

(** [findMyOutputs] *)
Definition findMyOutputs `{ext : Externals} (tx : ITransactionReader)
    (viewSecretKey : SecretKey) (spendKeys : gset PublicKey)
    (outputs : gmap PublicKey (list N)) : gmap PublicKey (list N) :=
  match generate_key_derivation (getTransactionPublicKey tx) viewSecretKey with
  | None => outputs
  | Some derivation => (scan_outputs derivation (txOutputs tx) 0 spendKeys (0, outputs)).2
  end.

(** *** The scanner as the specification words it *)

(** How many times an output advances the running key index. *)
Definition key_index_advance (o : TransactionOutput) : N :=
  match o with
  | OutKey _ _ => 1
  | OutMultisignature _ ks _ => N.of_nat (length ks)
  | OutOther => 0
  end.

(** The running key index on reaching position [i]: the addressable entries of
    the outputs before it. *)
Definition running_key_index (outs : list TransactionOutput) (i : nat) : N :=
  foldr (fun o n => key_index_advance o + n) 0 (take i outs).

(** One call of the ownership test: the index handed to
    [underive_public_key], the output key tested, and the output position that
    is recorded on a match. *)
Record UnderiveCall := {
  call_index : N;
  call_key : PublicKey;
  call_output : N
}.

(** The calls the specification prescribes for the output [o] at position [i]:
    a Key output is tested with the running key index, every sub-key of a
    Multisignature output with the position [i], other outputs not at all. *)
Definition calls_of_output (outs : list TransactionOutput) (i : nat)
    (o : TransactionOutput) : list UnderiveCall :=
  match o with
  | OutKey _ key =>
      [ {| call_index := running_key_index outs i; call_key := key;
           call_output := N.of_nat i |} ]
  | OutMultisignature _ ks _ =>
      (fun key => {| call_index := N.of_nat i; call_key := key;
                     call_output := N.of_nat i |}) <$> ks
  | OutOther => []
  end.

Definition prescribed_calls (outs : list TransactionOutput) : list UnderiveCall :=
  mjoin (imap (calls_of_output outs) outs).

(** If the candidate is a watched spend key, append the output position to
    that key's list. *)
Definition record_call `{ext : Externals} (derivation : KeyDerivation)
    (spendKeys : gset PublicKey) (outputs : gmap PublicKey (list N))
    (c : UnderiveCall) : gmap PublicKey (list N) :=
  let candidate := underive_public_key derivation (call_index c) (call_key c) in
  if decide (candidate ∈ spendKeys) then
    <[candidate := default [] (outputs !! candidate) ++ [call_output c]]> outputs
  else outputs.

(** ** Worker count *)

(** Lines 242-245: [workers] from [std::thread::hardware_concurrency()]. *)
Definition worker_count (hardware_concurrency : N) : N :=
  if decide (hardware_concurrency = 0) then 2 else hardware_concurrency.

(** Line 247: the capacity of [inputQueue]. *)
Definition queue_capacity (hardware_concurrency : N) : N :=
  size_t_wrap (worker_count hardware_concurrency * 2).

(** ** Subscriptions *)

(** The field of [TransactionInformation] the consumer reads. *)
Record TransactionInformation := {
  blockHeight : N
}.

(** [PreprocessInfo] *)
Record PreprocessInfo := {
  outputs : gmap PublicKey (list TransactionOutputInformationIn);
  globalIdxs : list N
}.

(** The calls the consumer makes on a subscription that change it. *)
Inductive SubscriptionCall :=
| AddTransaction (blockInfo : TransactionBlockInfo) (transactionHash : Hash)
    (transfers : list TransactionOutputInformationIn)
| MarkTransactionConfirmed (blockInfo : TransactionBlockInfo)
    (transactionHash : Hash) (globalIndices : list N)
| OnError (ec : error_code) (height : N)
| AdvanceHeight (height : N).

(** [TransfersSubscription] and its container are defined in other files: the
    consumer sees them through these operations on the container's state. *)
Class SubscriptionOps (Container : Type) := {
  getTransactionInformation : Container -> Hash -> option TransactionInformation;
  addTransaction : Container -> TransactionBlockInfo -> ITransactionReader ->
                   list TransactionOutputInformationIn -> Container * bool;
  markTransactionConfirmed : Container -> TransactionBlockInfo -> Hash -> list N -> Container;
  onError : Container -> error_code -> N -> Container;
  advanceHeight : Container -> N -> Container
}.

(** Modelled from the spec: [TransfersSubscription] (TransfersSubscription.cpp
    is not part of this file).  A subscription keeps the [AccountSubscription]
    it was created from and its container; [received] records, in order, the
    calls the consumer made on it. *)
Record TransfersSubscription (Container : Type) := {
  subscription : AccountSubscription;
  container : Container;
  received : list SubscriptionCall
}.
Arguments subscription {Container} _.
Arguments container {Container} _.
Arguments received {Container} _.

Section Subscription.
Context {Container : Type} `{ops : SubscriptionOps Container}.

(** Modelled from the spec: [TransfersSubscription::getSyncStart] returns the
    start the subscription was created with. *)
Definition getSyncStart (sub : TransfersSubscription Container) : SynchronizationStart :=
  syncStart (subscription sub).

Definition getKeys (sub : TransfersSubscription Container) : AccountKeys :=
  keys (subscription sub).

(** The subscription after a call that left its container as [c]. *)
Definition called (c : Container) (call : SubscriptionCall)
    (sub : TransfersSubscription Container) : TransfersSubscription Container :=
  {| subscription := subscription sub;
     container := c;
     received := received sub ++ [call] |}.

(** The four methods of a subscription [onNewBlocks] and [processOutputs]
    call: each hands the call to the container and is recorded. *)
Definition sub_addTransaction (sub : TransfersSubscription Container)
    (blockInfo : TransactionBlockInfo) (tx : ITransactionReader)
    (transfers : list TransactionOutputInformationIn)
    : TransfersSubscription Container * bool :=
  let r := addTransaction (container sub) blockInfo tx transfers in
  (called r.1 (AddTransaction blockInfo (getTransactionHash tx) transfers) sub, r.2).

Definition sub_markTransactionConfirmed (sub : TransfersSubscription Container)
    (blockInfo : TransactionBlockInfo) (transactionHash : Hash)
    (globalIndices : list N) : TransfersSubscription Container :=
  called (markTransactionConfirmed (container sub) blockInfo transactionHash globalIndices)
         (MarkTransactionConfirmed blockInfo transactionHash globalIndices) sub.

Definition sub_onError (ec : error_code) (height : N)
    (sub : TransfersSubscription Container) : TransfersSubscription Container :=
  called (onError (container sub) ec height) (OnError ec height) sub.

Definition sub_advanceHeight (height : N)
    (sub : TransfersSubscription Container) : TransfersSubscription Container :=
  called (advanceHeight (container sub) height) (AdvanceHeight height) sub.

(** ** The consumer *)

(** What the consumer tells its observers. *)
Inductive Notification :=
| OnBlocksAdded (blockHashes : list Hash)
| OnTransactionUpdated (transactionHash : Hash) (containers : list PublicKey).

(** The members of [TransfersConsumer] that change; [notified] records the
    calls to [m_observerManager.notify]. *)
Record TransfersConsumer := {
  m_viewSecret : SecretKey;
  m_subscriptions : gmap PublicKey (TransfersSubscription Container);
  m_spendKeys : gset PublicKey;
  m_syncStart : SynchronizationStart;
  notified : list Notification
}.

Definition with_subscriptions (subs : gmap PublicKey (TransfersSubscription Container))
    (c : TransfersConsumer) : TransfersConsumer :=
  {| m_viewSecret := m_viewSecret c;
     m_subscriptions := subs;
     m_spendKeys := m_spendKeys c;
     m_syncStart := m_syncStart c;
     notified := notified c |}.

Definition with_syncStart (start : SynchronizationStart)
    (c : TransfersConsumer) : TransfersConsumer :=
  {| m_viewSecret := m_viewSecret c;
     m_subscriptions := m_subscriptions c;
     m_spendKeys := m_spendKeys c;
     m_syncStart := start;
     notified := notified c |}.

Definition notify (n : Notification) (c : TransfersConsumer) : TransfersConsumer :=
  {| m_viewSecret := m_viewSecret c;
     m_subscriptions := m_subscriptions c;
     m_spendKeys := m_spendKeys c;
     m_syncStart := m_syncStart c;
     notified := notified c ++ [n] |}.

(** [std::numeric_limits<uint64_t>::max()] *)
Definition UINT64_MAX : N := 2 ^ 64 - 1.

(** Lines 203-207: one round of the loop of [updateSyncStart]. *)
Definition min_start (sub : TransfersSubscription Container)
    (start : SynchronizationStart) : SynchronizationStart :=
  let subStart := getSyncStart sub in
  {| ss_timestamp := N.min (ss_timestamp start) (ss_timestamp subStart);
     ss_height := N.min (ss_height start) (ss_height subStart) |}.

(** Lines 198-207: the local [start] of [updateSyncStart] after its loop
    over the subscriptions. *)
Definition recomputed_start (subs : gmap PublicKey (TransfersSubscription Container))
    : SynchronizationStart :=
  map_fold (fun _ sub start => min_start sub start)
           {| ss_timestamp := UINT64_MAX; ss_height := UINT64_MAX |} subs.

(** [TransfersConsumer::updateSyncStart] *)
Definition updateSyncStart (c : TransfersConsumer) : TransfersConsumer :=
  with_syncStart (recomputed_start (m_subscriptions c)) c.

(** The constructor. *)
Definition new_TransfersConsumer (viewSecret : SecretKey) : TransfersConsumer :=
  updateSyncStart
    {| m_viewSecret := viewSecret;
       m_subscriptions := ∅;
       m_spendKeys := ∅;
       m_syncStart := {| ss_timestamp := 0; ss_height := 0 |};
       notified := [] |}.

Definition getSyncStart_consumer (c : TransfersConsumer) : SynchronizationStart :=
  m_syncStart c.

(** [new TransfersSubscription(m_currency, logger, subscription)], with the
    container [fresh] it starts from. *)
Definition new_TransfersSubscription (fresh : Container)
    (subscription : AccountSubscription) : TransfersSubscription Container :=
  {| subscription := subscription; container := fresh; received := [] |}.

(** [TransfersConsumer::addSubscription]; [None] is the [std::runtime_error]
    thrown on a view secret key mismatch, which leaves the consumer as it
    was. *)
Definition addSubscription (fresh : Container) (subscription : AccountSubscription)
    (c : TransfersConsumer)
    : option (TransfersConsumer * TransfersSubscription Container) :=
  if decide (viewSecretKey (keys subscription) ≠ m_viewSecret c) then None
  else
    let key := spendPublicKey (address (keys subscription)) in
    match m_subscriptions c !! key with
    | Some res => Some (c, res)
    | None =>
        let res := new_TransfersSubscription fresh subscription in
        let subs := <[key := res]> (m_subscriptions c) in
        let start :=
          if decide (size subs = 1%nat) then getSyncStart res
          else min_start res (m_syncStart c) in
        Some ({| m_viewSecret := m_viewSecret c;
                 m_subscriptions := subs;
                 m_spendKeys := m_spendKeys c ∪ {[ key ]};
                 m_syncStart := start;
                 notified := notified c |}, res)
    end.

(** [TransfersConsumer::removeSubscription] *)
Definition removeSubscription (address : AccountPublicAddress)
    (c : TransfersConsumer) : TransfersConsumer * bool :=
  let c' :=
    updateSyncStart
      {| m_viewSecret := m_viewSecret c;
         m_subscriptions := delete (spendPublicKey address) (m_subscriptions c);
         m_spendKeys := m_spendKeys c ∖ {[ spendPublicKey address ]};
         m_syncStart := m_syncStart c;
         notified := notified c |} in
  (c', bool_decide (m_subscriptions c' = ∅)).

(** A call made by the owner of the consumer. *)
Inductive FacadeCall :=
| CallAddSubscription (fresh : Container) (subscription : AccountSubscription)
| CallRemoveSubscription (address : AccountPublicAddress).

Definition facade_step (c : TransfersConsumer) (call : FacadeCall) : TransfersConsumer :=
  match call with
  | CallAddSubscription fresh subscription =>
      match addSubscription fresh subscription c with
      | Some (c', _) => c'
      | None => c
      end
  | CallRemoveSubscription address => (removeSubscription address c).1
  end.

Definition facade_run (calls : list FacadeCall) (c : TransfersConsumer) : TransfersConsumer :=
  foldl facade_step c calls.

End Subscription.
Arguments TransfersConsumer Container : clear implicits.

(** ** Applying a transaction *)

Section Apply.
Context `{ext : Externals} {Container : Type} `{ops : SubscriptionOps Container}.

(** [TransfersConsumer::processOutputs]: the subscription after the call and
    the flags [contains] and [updated]; [None] when the [assert] fails. *)
Definition processOutputs (blockInfo : TransactionBlockInfo)
    (sub : TransfersSubscription Container) (tx : ITransactionReader)
    (transfers : list TransactionOutputInformationIn) (globalIdxs : list N)
    : option (TransfersSubscription Container * bool * bool) :=
  match getTransactionInformation (container sub) (getTransactionHash tx) with
  | Some subscribtionTxInfo =>
      if decide (blockHeight subscribtionTxInfo = WALLET_UNCONFIRMED_TRANSACTION_HEIGHT
                 ∧ height blockInfo ≠ WALLET_UNCONFIRMED_TRANSACTION_HEIGHT)
      then
        Some (sub_markTransactionConfirmed sub blockInfo (getTransactionHash tx) globalIdxs,
              true, true)
      else if NDEBUG || (blockHeight subscribtionTxInfo =? height blockInfo)
      then Some (sub, true, false)
      else None
  | None =>
      let r := sub_addTransaction sub blockInfo tx transfers in
      Some (r.1, r.2, r.2)
  end.

(** Lines 622-639: one round of [for (auto &kv : m_subscriptions)], on the
    subscriptions map, [someContainerUpdated] and [transactionContainers]. *)
Definition processTransaction_round (blockInfo : TransactionBlockInfo)
    (tx : ITransactionReader) (info : PreprocessInfo)
    (acc : option (gmap PublicKey (TransfersSubscription Container) * bool * list PublicKey))
    (kv : PublicKey * TransfersSubscription Container)
    : option (gmap PublicKey (TransfersSubscription Container) * bool * list PublicKey) :=
  match acc with
  | None => None
  | Some (subs, someContainerUpdated, transactionContainers) =>
      let subscriptionOutputs := default [] (outputs info !! kv.1) in
      match processOutputs blockInfo kv.2 tx subscriptionOutputs (globalIdxs info) with
      | None => None
      | Some (sub', containerContainsTx, containerUpdated) =>
          Some (<[kv.1 := sub']> subs,
                someContainerUpdated || containerUpdated,
                if containerContainsTx then transactionContainers ++ [kv.1]
                else transactionContainers)
      end
  end.

(** [TransfersConsumer::processTransaction(blockInfo, tx, info)]; the
    subscriptions are visited in the order of [map_to_list]. *)
Definition processTransaction (blockInfo : TransactionBlockInfo)
    (tx : ITransactionReader) (info : PreprocessInfo)
    (c : TransfersConsumer Container) : option (TransfersConsumer Container) :=
  match foldl (processTransaction_round blockInfo tx info)
              (Some (m_subscriptions c, false, []))
              (map_to_list (m_subscriptions c)) with
  | None => None
  | Some (subs, someContainerUpdated, transactionContainers) =>
      let c' := with_subscriptions subs c in
      Some (if someContainerUpdated
            then notify (OnTransactionUpdated (getTransactionHash tx) transactionContainers) c'
            else c')
  end.

(** Modelled from the spec: [forEachSubscription] (declared in
    TransfersConsumer.h) calls the action on every subscription. *)
Definition forEachSubscription
    (action : TransfersSubscription Container -> TransfersSubscription Container)
    (c : TransfersConsumer Container) : TransfersConsumer Container :=
  with_subscriptions (action <$> m_subscriptions c) c.

(** ** The batch pipeline *)

(** [struct Tx] and [struct PreprocessedTx : Tx, PreprocessInfo], local to
    [onNewBlocks]. *)
Record Tx := {
  tx_blockInfo : TransactionBlockInfo;
  tx_reader : ITransactionReader
}.

Record PreprocessedTx := {
  base : Tx;
  info : PreprocessInfo
}.

(** What [f.get()] gives for one worker: the error code the worker returned,
    a [std::system_error] with its code, or another exception. *)
Inductive WorkerResult :=
| WorkerReturned (ec : error_code)
| WorkerSystemError (code : error_code)
| WorkerException.

(** Lines 310-321: one round of [for (auto &f : processingThreads)]. *)
Definition join_round (processingError : error_code) (r : WorkerResult) : error_code :=
  match r with
  | WorkerReturned ec =>
      if negb (is_error processingError) && is_error ec then ec else processingError
  | WorkerSystemError code => code
  | WorkerException => OperationCanceled
  end.

Definition join_workers (results : list WorkerResult) : error_code :=
  foldl join_round Success results.

(** Lines 330-334: the comparator; [std::tie] compares lexicographically. *)
Definition tie_less (a b : PreprocessedTx) : bool :=
  let ha := height (tx_blockInfo (base a)) in
  let hb := height (tx_blockInfo (base b)) in
  let ia := transactionIndex (tx_blockInfo (base a)) in
  let ib := transactionIndex (tx_blockInfo (base b)) in
  (ha <? hb) || (negb (hb <? ha) && (ia <? ib)).

(** [std::sort] with a comparator: the result is a permutation of the input in
    which no element is less than an earlier one; the order of equivalent
    elements is left open by the library, here they keep their order. *)
Fixpoint sort_insert {A : Type} (less : A -> A -> bool) (x : A) (l : list A) : list A :=
  match l with
  | [] => [x]
  | y :: l' => if less x y then x :: y :: l' else y :: sort_insert less x l'
  end.

Definition std_sort {A : Type} (less : A -> A -> bool) (l : list A) : list A :=
  foldr (sort_insert less) [] l.

(** Lines 336-338: [for (const auto &tx : preprocessedTransactions)]. *)
Definition apply_all (txs : list PreprocessedTx) (c : TransfersConsumer Container)
    : option (TransfersConsumer Container) :=
  foldl (fun acc ptx =>
           match acc with
           | None => None
           | Some c' => processTransaction (tx_blockInfo (base ptx)) (tx_reader (base ptx)) (info ptx) c'
           end)
        (Some c) txs.

(** [CompleteBlock]: [block] is empty when the block is not initialized. *)
Record CompleteBlock := {
  blockHash : Hash;
  block : option N; (* the block's timestamp *)
  transactions : list ITransactionReader
}.

(** [getBlockHashes] *)
Definition getBlockHashes (blocks : list CompleteBlock) : list Hash :=
  blockHash <$> blocks.

(** Lines 309-352 of [onNewBlocks]: what follows the worker pool, given the
    results the workers' futures hold and the transactions the workers pushed
    to [preprocessedTransactions].  [None] when an [assert] fails. *)
Definition onNewBlocks_join (blocks : list CompleteBlock) (startHeight count : N)
    (results : list WorkerResult) (preprocessedTransactions : list PreprocessedTx)
    (c : TransfersConsumer Container) : option (TransfersConsumer Container * bool) :=
  let processingError := join_workers results in
  let blockHashes := getBlockHashes blocks in
  if negb (is_error processingError) then
    match apply_all (std_sort tie_less preprocessedTransactions)
                    (notify (OnBlocksAdded blockHashes) c) with
    | None => None
    | Some c' =>
        let newHeight := uint32_cast (startHeight + count + 2 ^ 32 - 1) in
        Some (forEachSubscription (sub_advanceHeight newHeight) c', true)
    end
  else
    Some (forEachSubscription (sub_onError processingError startHeight) c, false).

(** *** The producer and the worker pool *)

(** Lines 269-279: the transactions of one block, from the one [blockInfo]
    stands at; [++blockInfo.transactionIndex] is 32-bit arithmetic. *)
Fixpoint enumerate_transactions (blockInfo : TransactionBlockInfo)
    (txs : list ITransactionReader) : list Tx :=
  match txs with
  | [] => []
  | tx :: rest =>
      let next := {| height := height blockInfo;
                     timestamp := timestamp blockInfo;
                     transactionIndex := uint32_cast (transactionIndex blockInfo + 1) |} in
      if decide (getTransactionPublicKey tx = NULL_PUBLIC_KEY)
      then enumerate_transactions next rest
      else {| tx_blockInfo := blockInfo; tx_reader := tx |}
           :: enumerate_transactions next rest
  end.

(** Lines 252-280: the items the pushing thread puts on [inputQueue] for the
    blocks from position [i] on, when it is not stopped. *)
Fixpoint enumerate_blocks (syncStart : SynchronizationStart) (startHeight i : N)
    (blocks : list CompleteBlock) : list Tx :=
  match blocks with
  | [] => []
  | b :: rest =>
      match block b with
      | None => []
      | Some block_timestamp =>
          if negb (ss_timestamp syncStart =? 0) && (block_timestamp <? ss_timestamp syncStart)
          then []
          else enumerate_transactions
                 {| height := uint32_cast (startHeight + i);
                    timestamp := block_timestamp;
                    transactionIndex := 0 |}
                 (transactions b)
      end ++ enumerate_blocks syncStart startHeight (i + 1) rest
  end.

(** Lines 253-279: the items the pushing thread pushes in the round of its
    outer loop for the block at position [i]. *)
Definition enumerate_block (syncStart : SynchronizationStart) (startHeight i : N)
    (b : CompleteBlock) : list Tx :=
  match block b with
  | None => []
  | Some block_timestamp =>
      if negb (ss_timestamp syncStart =? 0) && (block_timestamp <? ss_timestamp syncStart)
      then []
      else enumerate_transactions
             {| height := uint32_cast (startHeight + i);
                timestamp := block_timestamp;
                transactionIndex := 0 |}
             (transactions b)
  end.

(** Lines 252-280: the rounds of the outer loop for the blocks from position
    [i] on, each with the items it pushes. *)
Fixpoint enumerate_rounds (syncStart : SynchronizationStart) (startHeight i : N)
    (blocks : list CompleteBlock) : list (list Tx) :=
  match blocks with
  | [] => []
  | b :: rest =>
      enumerate_block syncStart startHeight i b
      :: enumerate_rounds syncStart startHeight (i + 1) rest
  end.

(** The pushing thread (lines 251-283): inside a round of its outer loop with
    the items [pending] still to push and the rounds [later] to come, where
    [Pushing [] later] stands at the test [i < count && !stopProcessing]; or
    past [inputQueue.close()]. *)
Inductive Producer :=
| Pushing (pending : list Tx) (later : list (list Tx))
| ProducerFinished.

(** A worker thread running [processingFunction]: at the test of its loop,
    inside [inputQueue.pop], inside [preprocessOutputs] for an item, or
    finished with what its future holds. *)
Inductive Worker :=
| Idle
| Popping
| Busy (item : Tx)
| Finished (r : WorkerResult).

(** What the threads of [onNewBlocks] share: the pushing thread, the queue
    with its bound and its closed flag, the workers, the vector
    [preprocessedTransactions] and the flag [stopProcessing].

    Modelled from the spec: [BlockingQueue] (Common/BlockingQueue.h is not
    part of this file) is a bounded blocking first-in first-out queue; [push]
    waits while the queue holds [m_maxSize] items, [pop] waits while the queue
    is empty and open and fails once it is closed and empty. *)
Record Pool := {
  producer : Producer;
  inputQueue : list Tx;
  m_maxSize : N;
  m_closed : bool;
  workers : list Worker;
  preprocessedTransactions : list PreprocessedTx;
  stopProcessing : bool
}.

(** Lines 251-302: the steps of the pushing thread and of the workers.  The
    pushing thread reads [stopProcessing] between two blocks only, and a push
    goes through only while the queue is below its bound.  A worker reads the
    flag, then pops, so it may still take an item when the flag is raised in
    between.  What [preprocessOutputs] yields for an item depends on the node
    and on the registry at that moment: every [PreprocessInfo], every error
    code and every exception is allowed for. *)
Inductive pool_step : Pool -> Pool -> Prop :=
| step_next_block (p : Pool) (items : list Tx) (later : list (list Tx)) :
    producer p = Pushing [] (items :: later) ->
    stopProcessing p = false ->
    pool_step p {| producer := Pushing items later;
                   inputQueue := inputQueue p;
                   m_maxSize := m_maxSize p;
                   m_closed := m_closed p;
                   workers := workers p;
                   preprocessedTransactions := preprocessedTransactions p;
                   stopProcessing := stopProcessing p |}
| step_push (p : Pool) (item : Tx) (pending : list Tx) (later : list (list Tx)) :
    producer p = Pushing (item :: pending) later ->
    N.of_nat (length (inputQueue p)) < m_maxSize p ->
    pool_step p {| producer := Pushing pending later;
                   inputQueue := inputQueue p ++ [item];
                   m_maxSize := m_maxSize p;
                   m_closed := m_closed p;
                   workers := workers p;
                   preprocessedTransactions := preprocessedTransactions p;
                   stopProcessing := stopProcessing p |}
| step_close (p : Pool) (later : list (list Tx)) :
    producer p = Pushing [] later ->
    later = [] \/ stopProcessing p = true ->
    pool_step p {| producer := ProducerFinished;
                   inputQueue := inputQueue p;
                   m_maxSize := m_maxSize p;
                   m_closed := true;
                   workers := workers p;
                   preprocessedTransactions := preprocessedTransactions p;
                   stopProcessing := stopProcessing p |}
| step_loop_test (p : Pool) (w : nat) :
    workers p !! w = Some Idle ->
    stopProcessing p = false ->
    pool_step p {| producer := producer p;
                   inputQueue := inputQueue p;
                   m_maxSize := m_maxSize p;
                   m_closed := m_closed p;
                   workers := <[w := Popping]> (workers p);
                   preprocessedTransactions := preprocessedTransactions p;
                   stopProcessing := stopProcessing p |}
| step_stopped (p : Pool) (w : nat) :
    workers p !! w = Some Idle ->
    stopProcessing p = true ->
    pool_step p {| producer := producer p;
                   inputQueue := inputQueue p;
                   m_maxSize := m_maxSize p;
                   m_closed := m_closed p;
                   workers := <[w := Finished (WorkerReturned Success)]> (workers p);
                   preprocessedTransactions := preprocessedTransactions p;
                   stopProcessing := stopProcessing p |}
| step_pop (p : Pool) (w : nat) (item : Tx) (rest : list Tx) :
    workers p !! w = Some Popping ->
    inputQueue p = item :: rest ->
    pool_step p {| producer := producer p;
                   inputQueue := rest;
                   m_maxSize := m_maxSize p;
                   m_closed := m_closed p;
                   workers := <[w := Busy item]> (workers p);
                   preprocessedTransactions := preprocessedTransactions p;
                   stopProcessing := stopProcessing p |}
| step_pop_closed (p : Pool) (w : nat) :
    workers p !! w = Some Popping ->
    inputQueue p = [] ->
    m_closed p = true ->
    pool_step p {| producer := producer p;
                   inputQueue := inputQueue p;
                   m_maxSize := m_maxSize p;
                   m_closed := m_closed p;
                   workers := <[w := Finished (WorkerReturned Success)]> (workers p);
                   preprocessedTransactions := preprocessedTransactions p;
                   stopProcessing := stopProcessing p |}
| step_push_back (p : Pool) (w : nat) (item : Tx) (output : PreprocessInfo) :
    workers p !! w = Some (Busy item) ->
    pool_step p {| producer := producer p;
                   inputQueue := inputQueue p;
                   m_maxSize := m_maxSize p;
                   m_closed := m_closed p;
                   workers := <[w := Idle]> (workers p);
                   preprocessedTransactions :=
                     preprocessedTransactions p ++ [ {| base := item; info := output |} ];
                   stopProcessing := stopProcessing p |}
| step_error (p : Pool) (w : nat) (item : Tx) (ec : error_code) :
    workers p !! w = Some (Busy item) ->
    is_error ec = true ->
    pool_step p {| producer := producer p;
                   inputQueue := inputQueue p;
                   m_maxSize := m_maxSize p;
                   m_closed := m_closed p;
                   workers := <[w := Finished (WorkerReturned ec)]> (workers p);
                   preprocessedTransactions := preprocessedTransactions p;
                   stopProcessing := true |}
| step_throw (p : Pool) (w : nat) (item : Tx) (r : WorkerResult) :
    workers p !! w = Some (Busy item) ->
    (forall ec, r <> WorkerReturned ec) ->
    pool_step p {| producer := producer p;
                   inputQueue := inputQueue p;
                   m_maxSize := m_maxSize p;
                   m_closed := m_closed p;
                   workers := <[w := Finished r]> (workers p);
                   preprocessedTransactions := preprocessedTransactions p;
                   stopProcessing := stopProcessing p |}.

(** Lines 239-307: the threads as [onNewBlocks] starts them, the pushing
    thread with the rounds of its outer loop before it. *)
Definition start_pool (hardware_concurrency : N) (rounds : list (list Tx)) : Pool :=
  {| producer := Pushing [] rounds;
     inputQueue := [];
     m_maxSize := queue_capacity hardware_concurrency;
     m_closed := false;
     workers := replicate (N.to_nat (worker_count hardware_concurrency)) Idle;
     preprocessedTransactions := [];
     stopProcessing := false |}.

(** What the futures of the workers hold once every worker has finished. *)
Definition worker_results (p : Pool) : option (list WorkerResult) :=
  mapM (fun w => match w with Finished r => Some r | _ => None end) (workers p).

(** [TransfersConsumer::onNewBlocks] on a platform that reports
    [hardware_concurrency]: [res] is a result of the call on [c], [None] when
    an [assert] fails.  The call returns once the future of every worker holds
    its result (the loop of line 310) and the pushing thread has finished: the
    future of [std::async] waits for its thread when the scope is left. *)
Definition onNewBlocks (hardware_concurrency : N) (blocks : list CompleteBlock)
    (startHeight : N) (c : TransfersConsumer Container)
    (res : option (TransfersConsumer Container * bool)) : Prop :=
  let count := N.of_nat (length blocks) in
  if negb NDEBUG && (count =? 0) then res = None
  else
    exists (p : Pool) (results : list WorkerResult),
      rtc pool_step
          (start_pool hardware_concurrency
                      (enumerate_rounds (m_syncStart c) startHeight 0 blocks)) p
      /\ worker_results p = Some results
      /\ producer p = ProducerFinished
      /\ res = onNewBlocks_join blocks startHeight count results
                                (preprocessedTransactions p) c.

End Apply.

(** ** Lookup of subscriptions *)

Section Lookup.
Context {Container : Type}.

(** Modelled from the spec: [TransfersSubscription::getAddress]
    (TransfersSubscription.cpp is not part of this file) gives the address of
    the account the subscription was created for. *)
Definition getAddress (sub : TransfersSubscription Container) : AccountPublicAddress :=
  address (keys (subscription sub)).

(** [TransfersConsumer::getSubscription]: [None] is [nullptr]. *)
Definition getSubscription (acc : AccountPublicAddress) (c : TransfersConsumer Container)
    : option (TransfersSubscription Container) :=
  m_subscriptions c !! spendPublicKey acc.

(** [TransfersConsumer::getSubscriptions]: one address per stored
    subscription is appended to the vector passed in. *)
Definition getSubscriptions (subscriptions : list AccountPublicAddress)
    (c : TransfersConsumer Container) : list AccountPublicAddress :=
  subscriptions ++ ((fun kv => getAddress kv.2) <$> map_to_list (m_subscriptions c)).

End Lookup.

(** ** Preprocessing a transaction *)

(** [INode::getTransactionOutsGlobalIndices]: the error code the callback
    carries and what the node wrote to the vector. *)
Class INode := {
  getTransactionOutsGlobalIndices : Hash -> error_code * list N
}.

(** What [preprocessOutputs] works on: the [info] it fills, the registry and
    the lines logged. *)
Record PreprocessState := {
  ps_info : PreprocessInfo;
  ps_seen : Seen;
  ps_log : list LogLine
}.

(** What a call of [preprocessOutputs] leaves. *)
Record Preprocessed := {
  pre_outcome : Outcome;
  pre_info : PreprocessInfo;
  pre_seen : Seen;
  pre_log : list LogLine
}.

Definition preprocessed (o : Outcome) (s : PreprocessState) : Preprocessed :=
  {| pre_outcome := o; pre_info := ps_info s; pre_seen := ps_seen s; pre_log := ps_log s |}.

Section Preprocess.
Context `{ext : Externals} `{node : INode} {Container : Type} `{ops : SubscriptionOps Container}.

(** [TransfersConsumer::getGlobalIndices]: the vector is cleared, the node
    fills it, and the call waits for the callback. *)
Definition getGlobalIndices (transactionHash : Hash) : error_code * list N :=
  getTransactionOutsGlobalIndices transactionHash.

(** Lines 580-594: one round of [for (const auto &kv : outputs)];
    [info.outputs[kv.first]] creates the entry it refers to. *)
Definition preprocessOutputs_round (c : TransfersConsumer Container)
    (blockInfo : TransactionBlockInfo) (tx : ITransactionReader)
    (acc : Flow PreprocessState) (kv : PublicKey * list N) : Flow PreprocessState :=
  match acc with
  | Leave o s => Leave o s
  | Next s =>
      match m_subscriptions c !! kv.1 with
      | None => Next s
      | Some sub =>
          let r := createTransfers (getKeys sub) blockInfo tx kv.2
                     (globalIdxs (ps_info s))
                     (default [] (outputs (ps_info s) !! kv.1)) (ps_seen s) in
          let s' := {| ps_info := {| outputs := <[kv.1 := transfers_out r]> (outputs (ps_info s));
                                     globalIdxs := globalIdxs (ps_info s) |};
                       ps_seen := seen_out r;
                       ps_log := ps_log s ++ log_out r |} in
          match outcome r with
          | Returned ec => if is_error ec then Leave (Returned ec) s' else Next s'
          | o => Leave o s'
          end
      end
  end.

(** [TransfersConsumer::preprocessOutputs]; the map the scanner filled is
    visited in the order of [map_to_list]. *)
Definition preprocessOutputs (c : TransfersConsumer Container)
    (blockInfo : TransactionBlockInfo) (tx : ITransactionReader)
    (info : PreprocessInfo) (seen : Seen) : Preprocessed :=
  let found := findMyOutputs tx (m_viewSecret c) (m_spendKeys c) ∅ in
  let s := {| ps_info := info; ps_seen := seen; ps_log := [] |} in
  if decide (found = ∅) then preprocessed (Returned Success) s
  else
    let queried :=
      if decide (height blockInfo ≠ WALLET_UNCONFIRMED_TRANSACTION_HEIGHT)
      then getGlobalIndices (getTransactionHash tx)
      else (Success, globalIdxs info) in
    let s1 := {| ps_info := {| outputs := outputs info; globalIdxs := queried.2 |};
                 ps_seen := seen; ps_log := [] |} in
    if is_error queried.1 then preprocessed (Returned queried.1) s1
    else
      match foldl (preprocessOutputs_round c blockInfo tx) (Next s1) (map_to_list found) with
      | Next s2 => preprocessed (Returned Success) s2
      | Leave o s2 => preprocessed o s2
      end.

(** What a call that preprocesses and applies a transaction leaves. *)
Record Processed := {
  pr_outcome : Outcome;
  pr_consumer : TransfersConsumer Container;
  pr_seen : Seen;
  pr_log : list LogLine
}.

(** A default-constructed [PreprocessInfo]. *)
Definition new_PreprocessInfo : PreprocessInfo := {| outputs := ∅; globalIdxs := [] |}.

(** [TransfersConsumer::processTransaction(blockInfo, tx)], the overload that
    preprocesses first. *)
Definition processTransaction2 (blockInfo : TransactionBlockInfo)
    (tx : ITransactionReader) (c : TransfersConsumer Container) (seen : Seen) : Processed :=
  let pre := preprocessOutputs c blockInfo tx new_PreprocessInfo seen in
  let failed o := {| pr_outcome := o; pr_consumer := c;
                     pr_seen := pre_seen pre; pr_log := pre_log pre |} in
  match pre_outcome pre with
  | Returned ec =>
      if is_error ec then failed (Returned ec)
      else match processTransaction blockInfo tx (pre_info pre) c with
           | Some c' => {| pr_outcome := Returned Success; pr_consumer := c';
                           pr_seen := pre_seen pre; pr_log := pre_log pre |}
           | None => failed AssertionFailed
           end
  | o => failed o
  end.

(** [TransfersConsumer::addUnconfirmedTransaction] *)
Definition addUnconfirmedTransaction (transaction : ITransactionReader)
    (c : TransfersConsumer Container) (seen : Seen) : Processed :=
  processTransaction2 {| height := WALLET_UNCONFIRMED_TRANSACTION_HEIGHT;
                         timestamp := 0;
                         transactionIndex := 0 |} transaction c seen.

End Preprocess.

(** ** The transaction pool *)

(** The operations of a subscription's container the pool path uses. *)
Class PoolOps (Container : Type) := {
  getUnconfirmedTransactions : Container -> list Hash;
  deleteUnconfirmedTransaction : Container -> Hash -> Container
}.

(** What the consumer tells the observers and the subscriptions when a
    transaction leaves the pool. *)
Inductive PoolEvent :=
| OnTransactionDeleteBegin (transactionHash : Hash)
| DeleteUnconfirmedTransaction (spendKey : PublicKey) (transactionHash : Hash)
| OnTransactionDeleteEnd (transactionHash : Hash).

(** The consumer with its set [m_poolTxs], the registry, the lines logged and
    the deletions announced. *)
Record PoolState (Container : Type) := {
  consumer : TransfersConsumer Container;
  m_poolTxs : gset Hash;
  registry : Seen;
  logged_lines : list LogLine;
  pool_events : list PoolEvent
}.
Arguments consumer {Container} _.
Arguments m_poolTxs {Container} _.
Arguments registry {Container} _.
Arguments logged_lines {Container} _.
Arguments pool_events {Container} _.

Section Pool.
Context `{ext : Externals} `{node : INode} {Container : Type}
        `{ops : SubscriptionOps Container} `{pool : PoolOps Container}.

(** Lines 184-192: what one subscription adds to [m_poolTxs]. *)
Definition initTransactionPool_round (uncommitedTransactions : gset Hash)
    (poolTxs : gset Hash) (kv : PublicKey * TransfersSubscription Container) : gset Hash :=
  foldl (fun acc transactionHash =>
           if decide (transactionHash ∈ uncommitedTransactions) then acc
           else acc ∪ {[ transactionHash ]})
        poolTxs (getUnconfirmedTransactions (container kv.2)).

(** [TransfersConsumer::initTransactionPool] *)
Definition initTransactionPool (uncommitedTransactions : gset Hash)
    (s : PoolState Container) : PoolState Container :=
  {| consumer := consumer s;
     m_poolTxs := foldl (initTransactionPool_round uncommitedTransactions) (m_poolTxs s)
                        (map_to_list (m_subscriptions (consumer s)));
     registry := registry s;
     logged_lines := logged_lines s;
     pool_events := pool_events s |}.

(** [TransfersConsumer::getKnownPoolTxIds] *)
Definition getKnownPoolTxIds (s : PoolState Container) : gset Hash := m_poolTxs s.

(** Modelled from the spec: [TransfersSubscription::deleteUnconfirmedTransaction]
    hands the hash to the container. *)
Definition sub_deleteUnconfirmedTransaction (transactionHash : Hash)
    (sub : TransfersSubscription Container) : TransfersSubscription Container :=
  {| subscription := subscription sub;
     container := deleteUnconfirmedTransaction (container sub) transactionHash;
     received := received sub |}.

(** [TransfersConsumer::removeUnconfirmedTransaction], also lines 378-393 of
    [onPoolUpdated]: the observers are told before and after every
    subscription is asked to delete the transaction. *)
Definition removeUnconfirmedTransaction (transactionHash : Hash)
    (s : PoolState Container) : PoolState Container :=
  {| consumer := forEachSubscription (sub_deleteUnconfirmedTransaction transactionHash)
                                     (consumer s);
     m_poolTxs := m_poolTxs s;
     registry := registry s;
     logged_lines := logged_lines s;
     pool_events :=
       pool_events s
       ++ [OnTransactionDeleteBegin transactionHash]
       ++ ((fun kv => DeleteUnconfirmedTransaction kv.1 transactionHash)
             <$> map_to_list (m_subscriptions (consumer s)))
       ++ [OnTransactionDeleteEnd transactionHash] |}.

(** Lines 364-374: one round of the loop over [addedTransactions].
    [transactionIndex] of the local block info is never written:
    [indeterminate] stands for what it holds. *)
Definition onPoolUpdated_add (indeterminate : N) (acc : Flow (PoolState Container))
    (tx : ITransactionReader) : Flow (PoolState Container) :=
  match acc with
  | Leave o s => Leave o s
  | Next s =>
      let r := processTransaction2
                 {| height := WALLET_UNCONFIRMED_TRANSACTION_HEIGHT;
                    timestamp := 0;
                    transactionIndex := indeterminate |}
                 tx (consumer s) (registry s) in
      let after (c : TransfersConsumer Container) :=
        {| consumer := c;
           m_poolTxs := m_poolTxs s ∪ {[ getTransactionHash tx ]};
           registry := pr_seen r;
           logged_lines := logged_lines s ++ pr_log r;
           pool_events := pool_events s |} in
      match pr_outcome r with
      | Returned ec =>
          if is_error ec
          then Leave (Returned ec)
                     (after (forEachSubscription
                               (sub_onError ec WALLET_UNCONFIRMED_TRANSACTION_HEIGHT)
                               (pr_consumer r)))
          else Next (after (pr_consumer r))
      | o => Leave o (after (pr_consumer r))
      end
  end.

(** Lines 376-394: one round of the loop over [deletedTransactions]. *)
Definition onPoolUpdated_delete (s : PoolState Container) (deletedTxHash : Hash)
    : PoolState Container :=
  removeUnconfirmedTransaction deletedTxHash
    {| consumer := consumer s;
       m_poolTxs := m_poolTxs s ∖ {[ deletedTxHash ]};
       registry := registry s;
       logged_lines := logged_lines s;
       pool_events := pool_events s |}.

(** [TransfersConsumer::onPoolUpdated] *)
Definition onPoolUpdated (addedTransactions : list ITransactionReader)
    (deletedTransactions : list Hash) (indeterminate : N)
    (s : PoolState Container) : Outcome * PoolState Container :=
  match foldl (onPoolUpdated_add indeterminate) (Next s) addedTransactions with
  | Leave o s' => (o, s')
  | Next s' => (Returned Success, foldl onPoolUpdated_delete s' deletedTransactions)
  end.

End Pool.

(** ** Vocabulary of the properties *)

(** The output keys of one output: what the duplicate-key defence looks at. *)
Definition output_keys (o : TransactionOutput) : list PublicKey :=
  match o with
  | OutKey _ key => [key]
  | OutMultisignature _ ks _ => ks
  | OutOther => []
  end.

(** The output keys of the owned outputs, in the order the builder meets
    them. *)
Definition owned_output_keys (tx : ITransactionReader) (owned : list N) : list PublicKey :=
  idx ← owned; from_option output_keys [] (getOutput tx idx).

(** The owned index points at a Key or a Multisignature output. *)
Definition addressable (tx : ITransactionReader) (idx : N) : bool :=
  match getOutputType tx idx with
  | Some Key | Some Multisignature => true
  | _ => false
  end.

(** The global index a transfer must carry: the sentinel for a pool
    transaction, [globalIdxs[idx]] for a confirmed one. *)
Definition carries_global_index `{ext : Externals} (blockInfo : TransactionBlockInfo)
    (globalIdxs : list N) (t : TransactionOutputInformationIn) : Prop :=
  if decide (height blockInfo = WALLET_UNCONFIRMED_TRANSACTION_HEIGHT)
  then globalOutputIndex t = UNCONFIRMED_TRANSACTION_GLOBAL_OUTPUT_INDEX
  else globalIdxs !! N.to_nat (outputInTransaction t) = Some (globalOutputIndex t).

(** The registry [a] is contained in the registry [b]. *)
Definition seen_le (a b : Seen) : Prop :=
  transactions_hash_seen a ⊆ transactions_hash_seen b
  ∧ public_keys_seen a ⊆ public_keys_seen b.

(** An operation of this file on the registry: a [createTransfers] call with
    its arguments, or [addPublicKeysSeen]. *)
Inductive RegistryOp :=
| OpCreateTransfers (account : AccountKeys) (blockInfo : TransactionBlockInfo)
    (tx : ITransactionReader) (owned : list N) (globalIdxs : list N)
    (transfers0 : list TransactionOutputInformationIn)
| OpAddPublicKeysSeen (transactionHash : Hash) (outputKey : PublicKey).

Definition registry_step `{ext : Externals} (seen : Seen) (op : RegistryOp) : Seen :=
  match op with
  | OpCreateTransfers account blockInfo tx owned globalIdxs transfers0 =>
      seen_out (createTransfers account blockInfo tx owned globalIdxs transfers0 seen)
  | OpAddPublicKeysSeen transactionHash outputKey =>
      addPublicKeysSeen transactionHash outputKey seen
  end.

(** [(height, transactionIndex)] of [a] is at most that of [b]. *)
Definition block_order (a b : TransactionBlockInfo) : Prop :=
  (height a < height b)%N
  ∨ (height a = height b ∧ (transactionIndex a <= transactionIndex b)%N).

(** The block infos of the [add_transaction] calls among [calls], in order. *)
Definition added_blockInfos (calls : list SubscriptionCall) : list TransactionBlockInfo :=
  omap (fun call => match call with
                    | AddTransaction blockInfo _ _ => Some blockInfo
                    | _ => None
                    end) calls.

(** Every subscription of [subs] is in [subs'] with further calls received,
    and the block infos of the [add_transaction] calls among them are taken,
    in order, from [infos]. *)
Definition grows_by {Container : Type} (infos : list TransactionBlockInfo)
    (subs subs' : gmap PublicKey (TransfersSubscription Container)) : Prop :=
  ∀ key,
    option_Forall2
      (fun sub sub' =>
         ∃ calls, received sub' = received sub ++ calls
                  ∧ added_blockInfos calls `sublist_of` infos)
      (subs !! key) (subs' !! key).

(** [m] is the least of the values [f] takes on the starts of the stored
    subscriptions, and the largest 64-bit value when none is stored. *)
Definition minimum_over {Container : Type} (f : SynchronizationStart -> N)
    (subs : gmap PublicKey (TransfersSubscription Container)) (m : N) : Prop :=
  (∀ key sub, subs !! key = Some sub -> (m <= f (getSyncStart sub))%N)
  ∧ ((∃ key sub, subs !! key = Some sub ∧ f (getSyncStart sub) = m)
     ∨ (subs = ∅ ∧ m = UINT64_MAX)).

(** [start] is the component-wise minimum of the starts of [subs]: height and
    timestamp independently. *)
Definition component_wise_minimum {Container : Type}
    (subs : gmap PublicKey (TransfersSubscription Container))
    (start : SynchronizationStart) : Prop :=
  minimum_over ss_height subs (ss_height start)
  ∧ minimum_over ss_timestamp subs (ss_timestamp start).

(** Both fields of a [SynchronizationStart] are [uint64_t]. *)
Definition uint64_start (start : SynchronizationStart) : Prop :=
  (ss_height start <= UINT64_MAX)%N ∧ (ss_timestamp start <= UINT64_MAX)%N.

Definition call_in_range {Container : Type} (call : FacadeCall (Container := Container)) : Prop :=
  match call with
  | CallAddSubscription _ subscription => uint64_start (syncStart subscription)
  | CallRemoveSubscription _ => True
  end.

(** The subscriptions of [subs] all have 64-bit starts. *)
Definition starts_in_range {Container : Type}
    (subs : gmap PublicKey (TransfersSubscription Container)) : Prop :=
  map_Forall (fun _ sub => uint64_start (getSyncStart sub)) subs.

(** What every facade call keeps true: the stored sync start is the one
    [updateSyncStart] would compute. *)
Definition sync_start_recomputed {Container : Type} (c : TransfersConsumer Container) : Prop :=
  m_syncStart c = recomputed_start (m_subscriptions c)
  ∧ starts_in_range (m_subscriptions c).

(** The items the workers are busy with. *)
Definition busy_items (ws : list Worker) : list Tx :=
  omap (fun w => match w with Busy item => Some item | _ => None end) ws.

(** No worker has gone wrong: each is between items, busy, or has returned
    without an error. *)
Definition all_well (ws : list Worker) : Prop :=
  Forall (fun w => match w with
                   | Finished r => r = WorkerReturned Success
                   | _ => True
                   end) ws.

(** The items the pushing thread has still to push. *)
Definition unpushed (producer : Producer) : list Tx :=
  match producer with
  | Pushing pending later => pending ++ concat later
  | ProducerFinished => []
  end.

(** While no worker has gone wrong, the flag is down and every item is still
    with the pushing thread, in the queue, with a worker, or among the
    results. *)
Definition nothing_lost (items : list Tx) (p : Pool) : Prop :=
  all_well (workers p) ->
  stopProcessing p = false
  ∧ (base <$> preprocessedTransactions p) ++ busy_items (workers p) ++ inputQueue p
      ++ unpushed (producer p)
    ≡ₚ items.

(** The queue is closed by the pushing thread as its last step. *)
Definition closed_by_producer (p : Pool) : Prop :=
  m_closed p = true -> producer p = ProducerFinished.

(** While the flag is down, a worker has only returned once the pushing
    thread had finished and the queue was empty. *)
Definition returned_on_empty (p : Pool) : Prop :=
  stopProcessing p = false ->
  (∃ w, workers p !! w = Some (Finished (WorkerReturned Success))) ->
  inputQueue p = [] ∧ producer p = ProducerFinished.

(** The worker has an item in hand that is not among the results: it is busy,
    or has left with an error or an exception. *)
Definition holds_item (w : Worker) : bool :=
  match w with
  | Busy _ => true
  | Finished (WorkerReturned ec) => is_error ec
  | Finished _ => true
  | _ => false
  end.

(** The number of items the workers have taken from the queue. *)
Definition taken (p : Pool) : nat :=
  length (preprocessedTransactions p)
  + length (List.filter holds_item (workers p)).

(** What a run with one worker on a single round of four items keeps: the
    queue holds two items at most, and once the pushing thread has entered the
    round every item is with it, in the queue or taken. *)
Definition one_round_of_four (p : Pool) : Prop :=
  m_maxSize p = 2
  ∧ (length (inputQueue p) <= 2)%nat
  ∧ length (workers p) = 1%nat
  ∧ match producer p with
    | Pushing pending [] =>
        (length pending + length (inputQueue p) + taken p = 4)%nat
    | Pushing pending _ =>
        pending = [] ∧ inputQueue p = [] ∧ taken p = 0%nat
        ∧ stopProcessing p = false ∧ m_closed p = false
        ∧ Forall (fun w => w = Idle ∨ w = Popping) (workers p)
    | ProducerFinished => (length (inputQueue p) + taken p = 4)%nat
    end.

(** The first error code a worker returned, in the order of
    [processingThreads]. *)
Definition first_error (results : list WorkerResult) : option error_code :=
  head (omap (fun r => match r with
                       | WorkerReturned ec => if is_error ec then Some ec else None
                       | _ => None
                       end) results).

(** A worker's future raised. *)
Definition raised (r : WorkerResult) : Prop :=
  match r with WorkerReturned _ => False | _ => True end.

(** The scanner's map lists watched keys only, each with output indices
    below [bound]. *)
Definition found_within (spendKeys : gset PublicKey) (bound : N)
    (found : gmap PublicKey (list N)) : Prop :=
  map_Forall (fun spendKey indices =>
                spendKey ∈ spendKeys ∧ Forall (fun i => i < bound) indices) found.

(** Every list of the scanner's map ascends and stays at or below [bound]. *)
Definition found_ascending (bound : N) (found : gmap PublicKey (list N)) : Prop :=
  map_Forall (fun _ indices =>
                StronglySorted N.le indices ∧ Forall (fun i => i <= bound) indices) found.

(** How often [i] stands in [indices]. *)
Definition occurrences (i : N) (indices : list N) : nat :=
  length (filter (fun j => j = i) indices).

(** How often the scanner may record the output at position [i] under
    [spendKey]: a Key output once, a Multisignature output once for each of
    its keys that leads to [spendKey], another output never. *)
Definition leading_keys `{ext : Externals} (tx : ITransactionReader)
    (viewSecretKey : SecretKey) (i : N) (spendKey : PublicKey) : nat :=
  match generate_key_derivation (getTransactionPublicKey tx) viewSecretKey,
        getOutput tx i with
  | Some derivation, Some (OutKey _ _) => 1
  | Some derivation, Some (OutMultisignature _ ks _) =>
      length (filter (fun key => underive_public_key derivation i key = spendKey) ks)
  | _, _ => 0
  end.

(** Every list of the scanner's map holds indices below [bound], each no
    more often than its output allows. *)
Definition found_repeats `{ext : Externals} (tx : ITransactionReader)
    (viewSecretKey : SecretKey) (bound : N) (found : gmap PublicKey (list N)) : Prop :=
  map_Forall (fun spendKey indices =>
                Forall (fun i => i < bound) indices
                ∧ ∀ i, (occurrences i indices <= leading_keys tx viewSecretKey i spendKey)%nat)
             found.

(** Inside the Multisignature output at position [idx], after its keys [done]:
    the indices are at most [idx], and [idx] stands under a spend key no more
    often than keys of [done] lead to it. *)
Definition found_repeats_inside `{ext : Externals} (tx : ITransactionReader)
    (viewSecretKey : SecretKey) (derivation : KeyDerivation) (idx : N)
    (done : list PublicKey) (found : gmap PublicKey (list N)) : Prop :=
  map_Forall (fun spendKey indices =>
                Forall (fun i => i <= idx) indices
                ∧ (∀ i, i ≠ idx ->
                        (occurrences i indices <= leading_keys tx viewSecretKey i spendKey)%nat)
                ∧ (occurrences idx indices
                   <= length (filter (fun key => underive_public_key derivation idx key = spendKey)
                                     done))%nat)
             found.

(** The output at position [i] of [outs] leads to [spendKey]: a Key output
    through its key and the running key index, a Multisignature output through
    one of its keys and the output's own position. *)
Definition output_matches `{ext : Externals} (derivation : KeyDerivation)
    (outs : list TransactionOutput) (i : N) (spendKey : PublicKey) : Prop :=
  match outs !! N.to_nat i with
  | Some (OutKey _ key) =>
      underive_public_key derivation (running_key_index outs (N.to_nat i)) key = spendKey
  | Some (OutMultisignature _ ks _) =>
      ∃ key, key ∈ ks ∧ underive_public_key derivation i key = spendKey
  | _ => False
  end.

(** The keys [ks] are pairwise different and none of them is in the
    registry. *)
Definition fresh_keys (seen : Seen) (ks : list PublicKey) : Prop :=
  NoDup ks ∧ Forall (fun key => key ∉ public_keys_seen seen) ks.

(** What the builder needs of an owned index to get past it: the index is in
    range, a confirmed transaction comes with a global index for it, and the
    ephemeral key generated for a Key output is the output's key (checked by
    an [assert]). *)
Definition builder_input_ok `{ext : Externals} (account : AccountKeys)
    (blockInfo : TransactionBlockInfo) (tx : ITransactionReader)
    (globalIdxs : list N) (idx : N) : Prop :=
  idx < getOutputCount tx
  ∧ (height blockInfo = WALLET_UNCONFIRMED_TRANSACTION_HEIGHT
     ∨ (N.to_nat idx < length globalIdxs)%nat)
  ∧ (NDEBUG = true
     ∨ ∀ amount key, getOutput tx idx = Some (OutKey amount key) ->
         (generate_key_image_helper account (getTransactionPublicKey tx) idx).1 = key).

(** [m_spendKeys] holds the keys of [m_subscriptions], and every subscription
    is stored under the spend key of its own account and has the consumer's
    view secret key. *)
Definition filed_under_own_key {Container : Type} (c : TransfersConsumer Container) : Prop :=
  m_spendKeys c = dom (m_subscriptions c)
  ∧ map_Forall (fun key sub =>
                  spendPublicKey (getAddress sub) = key
                  ∧ viewSecretKey (getKeys sub) = m_viewSecret c)
               (m_subscriptions c).

(** The call did not return an error code. *)
Definition no_error_code (o : Outcome) : Prop :=
  match o with Returned ec => ec = Success | _ => True end.

(** The call returned success, or an [assert] stopped the program. *)
Definition pool_outcome `{ext : Externals} (o : Outcome) : Prop :=
  o = Returned Success ∨ (o = AssertionFailed ∧ NDEBUG = false).

(** [(height, transactionIndex)] of [a] is below that of [b]. *)
Definition block_before (a b : TransactionBlockInfo) : Prop :=
  height a < height b
  ∨ (height a = height b ∧ transactionIndex a < transactionIndex b).

(** The heights of the batch and the transaction indices of its blocks fit in
    32 bits. *)
Definition batch_fits (startHeight : N) (blocks : list CompleteBlock) : Prop :=
  startHeight + N.of_nat (length blocks) <= 2 ^ 32
  ∧ Forall (fun b => N.of_nat (length (transactions b)) <= 2 ^ 32) blocks.

(** [item] is a transaction of the batch that has to be scanned: it stands at
    position [j] of the initialized block at position [i], the block passes the
    timestamp filter, the transaction has a public key, and the item carries
    the block's height and timestamp and the position [j]. *)
Definition to_scan `{ext : Externals} (syncStart : SynchronizationStart)
    (startHeight : N) (blocks : list CompleteBlock) (item : Tx) : Prop :=
  ∃ (i j : nat) (b : CompleteBlock) (block_timestamp : N),
    blocks !! i = Some b
    ∧ block b = Some block_timestamp
    ∧ (ss_timestamp syncStart = 0 ∨ ss_timestamp syncStart <= block_timestamp)
    ∧ transactions b !! j = Some (tx_reader item)
    ∧ getTransactionPublicKey (tx_reader item) ≠ NULL_PUBLIC_KEY
    ∧ tx_blockInfo item = {| height := startHeight + N.of_nat i;
                             timestamp := block_timestamp;
                             transactionIndex := N.of_nat j |}.

(** Every notification of [ns] is an [onTransactionUpdated]. *)
Definition transaction_updates (ns : list Notification) : Prop :=
  Forall (fun n => match n with OnTransactionUpdated _ _ => True | _ => False end) ns.

(** [c'] differs from [c] in the state of the subscriptions and in the
    notifications at most. *)
Definition unchanged_but_subscriptions {Container : Type}
    (c c' : TransfersConsumer Container) : Prop :=
  m_viewSecret c' = m_viewSecret c
  ∧ m_spendKeys c' = m_spendKeys c
  ∧ m_syncStart c' = m_syncStart c
  ∧ dom (m_subscriptions c') = dom (m_subscriptions c).

(** Every output index of the scanner's map points at a Key or a
    Multisignature output. *)
Definition found_addressable (tx : ITransactionReader) (found : gmap PublicKey (list N)) : Prop :=
  map_Forall (fun _ indices => Forall (fun i => addressable tx i = true) indices) found.

(** What the rounds of [preprocessOutputs] over [found] add to [info.outputs]
    when nothing goes wrong: under a spend key of [found] that is subscribed,
    one transfer per owned index after what was there; nothing elsewhere. *)
Definition transfers_added {Container : Type} (c : TransfersConsumer Container)
    (found : list (PublicKey * list N))
    (before after : gmap PublicKey (list TransactionOutputInformationIn)) : Prop :=
  ∀ key,
    (key ∉ found.*1 ∨ m_subscriptions c !! key = None -> after !! key = before !! key)
    ∧ (∀ owned, (key, owned) ∈ found -> is_Some (m_subscriptions c !! key) ->
         ∃ emitted,
           after !! key = Some (default [] (before !! key) ++ emitted)
           ∧ outputInTransaction <$> emitted = owned).

(** ** Example data *)

(** Externals with the sentinels of the wallet headers (both are the largest
    32-bit value), [assert] enabled, and toy primitives: the ephemeral key of
    output [idx] is [100 * (idx + 1)]. *)
Definition example_externals : Externals :=
  {| WALLET_UNCONFIRMED_TRANSACTION_HEIGHT := 4294967295;
     UNCONFIRMED_TRANSACTION_GLOBAL_OUTPUT_INDEX := 4294967295;
     NULL_PUBLIC_KEY := 0;
     NDEBUG := false;
     generate_key_derivation := fun txPublicKey viewSecret => Some (txPublicKey + viewSecret);
     underive_public_key := fun derivation index key => key - derivation - index;
     generate_key_image_helper := fun _ _ idx => (100 * (idx + 1), idx) |}.

Definition example_account : AccountKeys :=
  {| address := {| spendPublicKey := 11; viewPublicKey := 12 |};
     spendSecretKey := 13;
     viewSecretKey := 14 |}.

(** A transaction with two Key outputs and a Multisignature output. *)
Definition example_tx : ITransactionReader :=
  {| getTransactionPublicKey := 5;
     getTransactionHash := 7;
     txOutputs := [OutKey 10 100; OutKey 20 200; OutMultisignature 30 [31; 32] 2] |}.

Definition example_confirmed : TransactionBlockInfo :=
  {| height := 100; timestamp := 1000; transactionIndex := 0 |}.

Definition example_unconfirmed : TransactionBlockInfo :=
  {| height := 4294967295; timestamp := 0; transactionIndex := 0 |}.

(** A registry in which another transaction (hash 3) already placed the key
    of the second output. *)
Definition example_seen : Seen :=
  {| transactions_hash_seen := {[ 3 ]}; public_keys_seen := {[ 200 ]} |}.

Definition empty_seen : Seen :=
  {| transactions_hash_seen := ∅; public_keys_seen := ∅ |}.

(** A toy container: the height each known transaction is recorded at.  It
    records a transaction when it comes with transfers. *)
Definition example_ops : SubscriptionOps (gmap Hash N) :=
  {| getTransactionInformation := fun known transactionHash =>
       Build_TransactionInformation <$> known !! transactionHash;
     addTransaction := fun known blockInfo tx transfers =>
       match transfers with
       | [] => (known, false)
       | _ => (<[getTransactionHash tx := height blockInfo]> known, true)
       end;
     markTransactionConfirmed := fun known blockInfo transactionHash _ =>
       <[transactionHash := height blockInfo]> known;
     onError := fun known _ _ => known;
     advanceHeight := fun known _ => known |}.

Definition example_subscription : AccountSubscription :=
  {| keys := example_account;
     syncStart := {| ss_timestamp := 500; ss_height := 10 |} |}.

(** A subscription that knows [example_tx] from the pool. *)
Definition example_sub_pool : TransfersSubscription (gmap Hash N) :=
  {| subscription := example_subscription;
     container := {[ 7 := 4294967295 ]};
     received := [] |}.

(** A second transaction, and a batch of two blocks with one transaction
    each. *)
Definition example_tx2 : ITransactionReader :=
  {| getTransactionPublicKey := 6;
     getTransactionHash := 8;
     txOutputs := [OutKey 5 300] |}.

Definition example_blocks : list CompleteBlock :=
  [ {| blockHash := 9; block := Some 1000; transactions := [example_tx] |};
    {| blockHash := 10; block := Some 1010; transactions := [example_tx2] |} ].

(** A consumer with one subscription, whose container is empty. *)
Definition example_consumer : TransfersConsumer (gmap Hash N) :=
  {| m_viewSecret := 14;
     m_subscriptions := {[ 11 := new_TransfersSubscription ∅ example_subscription ]};
     m_spendKeys := {[ 11 ]};
     m_syncStart := syncStart example_subscription;
     notified := [] |}.

(** The two queue items of [example_blocks] from height 100 on. *)
Definition example_item1 : Tx :=
  {| tx_blockInfo := {| height := 100; timestamp := 1000; transactionIndex := 0 |};
     tx_reader := example_tx |}.

Definition example_item2 : Tx :=
  {| tx_blockInfo := {| height := 101; timestamp := 1010; transactionIndex := 0 |};
     tx_reader := example_tx2 |}.

Definition example_transfer (txPubKey g amount : N) (key : PublicKey)
    : TransactionOutputInformationIn :=
  {| type := Key; transactionPublicKey := txPubKey; outputInTransaction := 0;
     globalOutputIndex := g; amount := amount; details := KeyDetails key 0 |}.

Definition example_info1 : PreprocessInfo :=
  {| outputs := {[ 11 := [example_transfer 5 50 10 100] ]}; globalIdxs := [50; 51; 52] |}.

Definition example_info2 : PreprocessInfo :=
  {| outputs := {[ 11 := [example_transfer 6 60 5 300] ]}; globalIdxs := [60] |}.

(** A second account of the same view key family, with a later timestamp and
    a lower height to start from. *)
Definition example_subscription2 : AccountSubscription :=
  {| keys := {| address := {| spendPublicKey := 21; viewPublicKey := 12 |};
                spendSecretKey := 23;
                viewSecretKey := 14 |};
     syncStart := {| ss_timestamp := 900; ss_height := 5 |} |}.

(** Both accounts subscribe, then the first one leaves. *)
Definition example_calls : list (FacadeCall (Container := unit)) :=
  [ CallAddSubscription tt example_subscription;
    CallAddSubscription tt example_subscription2;
    CallRemoveSubscription (address example_account) ].

(** The pool after a run of two workers in which the worker that took the
    second transaction pushed its result first. *)
Definition example_pool_done : Pool :=
  {| producer := ProducerFinished;
     inputQueue := [];
     m_maxSize := 4;
     m_closed := true;
     workers := [Finished (WorkerReturned Success); Finished (WorkerReturned Success)];
     preprocessedTransactions :=
       [ {| base := example_item2; info := example_info2 |};
         {| base := example_item1; info := example_info1 |} ];
     stopProcessing := false |}.

(** The pool after a run of one worker whose first lookup failed: the pushing
    thread found the flag raised before the second block and closed the
    queue. *)
Definition example_pool_failed : Pool :=
  {| producer := ProducerFinished;
     inputQueue := [];
     m_maxSize := 2;
     m_closed := true;
     workers := [Finished (WorkerReturned (NodeError 1))];
     preprocessedTransactions := [];
     stopProcessing := true |}.

(** Further transactions, none with an output for the account 11. *)
Definition example_other (transactionHash : Hash) : ITransactionReader :=
  {| getTransactionPublicKey := transactionHash;
     getTransactionHash := transactionHash;
     txOutputs := [OutKey 5 300] |}.

(** A batch of one block with four transactions, of which the first is
    [example_tx]. *)
Definition example_long_block : list CompleteBlock :=
  [ {| blockHash := 9; block := Some 1000;
       transactions := [example_tx; example_other 21; example_other 22;
                        example_other 23] |} ].

(** The queue item of the transaction at position [j] of that block, for the
    positions after the first. *)
Definition example_queued (j : N) : Tx :=
  {| tx_blockInfo := {| height := 100; timestamp := 1000; transactionIndex := j |};
     tx_reader := example_other (20 + j) |}.

(** The threads of a call with one worker on [example_long_block], after the
    worker failed on the first transaction: the queue of bound 2 is full, and
    the pushing thread stands in [inputQueue.push] with the last item. *)
Definition example_pool_blocked : Pool :=
  {| producer := Pushing [example_queued 3] [];
     inputQueue := [example_queued 1; example_queued 2];
     m_maxSize := 2;
     m_closed := false;
     workers := [Finished (WorkerReturned (NodeError 1))];
     preprocessedTransactions := [];
     stopProcessing := true |}.

(** A transaction whose Multisignature output leads to the account 11
    through two of its three keys. *)
Definition example_tx_shared : ITransactionReader :=
  {| getTransactionPublicKey := 5;
     getTransactionHash := 17;
     txOutputs := [OutKey 10 100; OutMultisignature 30 [31; 40; 31] 2] |}.

(** A node whose lookups fail. *)
Definition example_node : INode :=
  {| getTransactionOutsGlobalIndices := fun _ => (NodeError 1, []) |}.

(** The toy container lists as unconfirmed the transactions it records at the
    sentinel height. *)
Definition example_pool_ops : PoolOps (gmap Hash N) :=
  {| getUnconfirmedTransactions := fun known =>
       (map_to_list (filter (fun kv => kv.2 = 4294967295) known)).*1;
     deleteUnconfirmedTransaction := fun known transactionHash =>
       delete transactionHash known |}.

(** [example_consumer] with the pool transaction 3 known and an empty
    registry. *)
Definition example_pool_state : PoolState (gmap Hash N) :=
  {| consumer := example_consumer;
     m_poolTxs := {[ 3 ]};
     registry := empty_seen;
     logged_lines := [];
     pool_events := [] |}.

(** A consumer whose subscription knows [example_tx] from the pool, before
    [initTransactionPool]. *)
Definition example_pool_restart : PoolState (gmap Hash N) :=
  {| consumer := {| m_viewSecret := 14;
                    m_subscriptions := {[ 11 := example_sub_pool ]};
                    m_spendKeys := {[ 11 ]};
                    m_syncStart := syncStart example_subscription;
                    notified := [] |};
     m_poolTxs := ∅;
     registry := empty_seen;
     logged_lines := [];
     pool_events := [] |}.

(** ** Properties of the transfer builder *)

Section Builder.
Context `{ext : Externals}.
Implicit Types (st : BuildState) (seen : Seen) (tx : ITransactionReader).

(** What one duplicate-key check does when it lets the key through. *)
Lemma check_seen_Next seen txHash dup twice key st st' :
  check_seen seen txHash dup twice key st = Next st' ->
  transfers st' = transfers st
  ∧ logged st' = logged st
  ∧ temp_keys st' =
      temp_keys st ++ (if decide (txHash ∈ transactions_hash_seen seen) then [] else [key]).
Proof.
  unfold check_seen. intros Hc.
  repeat case_decide; simplify_eq; simpl; rewrite ?app_nil_r; done.
Qed.

(** What one duplicate-key check does when it rejects the key. *)
Lemma check_seen_Leave seen txHash dup twice key st o st' :
  check_seen seen txHash dup twice key st = Leave o st' ->
  o = Returned Success
  ∧ (txHash ∉ transactions_hash_seen seen)
  ∧ (key ∈ public_keys_seen seen ∨ key ∈ temp_keys st)
  ∧ transfers st' = transfers st
  ∧ (logged st' = logged st ++ [dup] ∨ logged st' = logged st ++ [twice]).
Proof.
  unfold check_seen. intros Hc.
  repeat case_decide; simplify_eq; simpl; auto 10.
Qed.

Lemma check_seen_all_Next seen txHash ks st st' :
  check_seen_all seen txHash ks st = Next st' ->
  transfers st' = transfers st
  ∧ logged st' = logged st
  ∧ temp_keys st' =
      temp_keys st ++ (if decide (txHash ∈ transactions_hash_seen seen) then [] else ks).
Proof.
  revert st. induction ks as [|key ks IH]; simpl; intros st Hc.
  - simplify_eq. case_decide; by rewrite app_nil_r.
  - destruct (check_seen _ _ _ _ key st) as [st1|] eqn:Hk; [|done].
    apply check_seen_Next in Hk as (Ht & Hl & Hk).
    apply IH in Hc as (Ht' & Hl' & Hk').
    rewrite Ht', Hl', Hk', Ht, Hl, Hk.
    case_decide; by rewrite <- ?app_assoc.
Qed.

Lemma check_seen_all_Leave seen txHash ks st o st' :
  check_seen_all seen txHash ks st = Leave o st' ->
  o = Returned Success
  ∧ (txHash ∉ transactions_hash_seen seen)
  ∧ transfers st' = transfers st
  ∧ (∃ line, logged st' = logged st ++ [line]).
Proof.
  revert st. induction ks as [|key ks IH]; simpl; intros st Hc; [done|].
  destruct (check_seen _ _ _ _ key st) as [st1|o1 st1] eqn:Hk.
  - apply check_seen_Next in Hk as (Ht & Hl & _).
    apply IH in Hc as (-> & Hn & Ht' & line & Hl').
    rewrite Ht', Hl', Ht, Hl. eauto.
  - simplify_eq.
    apply check_seen_Leave in Hk as (-> & Hn & _ & Ht & [Hl|Hl]); eauto 10.
Qed.

(** The transfer the body appends carries the global index the block info
    calls for. *)
Lemma global_output_index_carried blockInfo globalIdxs idx g t :
  global_output_index blockInfo globalIdxs idx = Some g ->
  outputInTransaction t = idx ->
  globalOutputIndex t = g ->
  carries_global_index blockInfo globalIdxs t.
Proof.
  unfold global_output_index, carries_global_index.
  intros Hg <- <-. case_decide; by simplify_eq.
Qed.

(** One round of the loop that falls through: nothing is logged, at most one
    transfer is appended, and the keys of the output are staged unless the
    transaction hash is already in the registry. *)
Lemma createTransfers_body_Next account blockInfo tx globalIdxs seen idx st st' :
  createTransfers_body account blockInfo tx globalIdxs seen idx st = Next st' ->
  logged st' = logged st
  ∧ temp_keys st' =
      temp_keys st ++
      (if decide (getTransactionHash tx ∈ transactions_hash_seen seen) then []
       else from_option output_keys [] (getOutput tx idx))
  ∧ ∃ emitted,
      transfers st' = transfers st ++ emitted
      ∧ Forall (carries_global_index blockInfo globalIdxs) emitted
      ∧ outputInTransaction <$> emitted = (if addressable tx idx then [idx] else []).
Proof.
  unfold createTransfers_body, addressable, getOutputType, assert_then.
  intros Hb. case_decide; [done|].
  destruct (getOutput tx idx) as [[amount key|amount ks required|]|] eqn:Ho;
    simpl in *; [| | |done].
  - destruct (global_output_index _ _ _) as [g|] eqn:Hg; [|done].
    destruct (generate_key_image_helper _ _ _) as [ephemeral image].
    destruct (NDEBUG || _); [|done].
    destruct (check_seen _ _ _ _ key st) as [st1|] eqn:Hk; [|done].
    apply check_seen_Next in Hk as (Ht & Hl & Hk). simplify_eq. simpl.
    split_and!; [done|done|].
    eexists [_]. rewrite Ht. split_and!; [done| |done].
    constructor; [|done]. by eapply global_output_index_carried.
  - destruct (global_output_index _ _ _) as [g|] eqn:Hg; [|done].
    destruct (check_seen_all _ _ ks st) as [st1|] eqn:Hk; [|done].
    apply check_seen_all_Next in Hk as (Ht & Hl & Hk). simplify_eq. simpl.
    split_and!; [done|done|].
    eexists [_]. rewrite Ht. split_and!; [done| |done].
    constructor; [|done]. by eapply global_output_index_carried.
  - simplify_eq. split_and!; [done|by case_decide; rewrite app_nil_r|].
    exists []. by rewrite app_nil_r.
Qed.

(** One round of the loop that leaves the function: no transfer is appended;
    a success code comes with a logged line and only for a transaction hash
    that is not in the registry. *)
Lemma createTransfers_body_Leave account blockInfo tx globalIdxs seen idx st o st' :
  createTransfers_body account blockInfo tx globalIdxs seen idx st = Leave o st' ->
  transfers st' = transfers st
  ∧ (o = Returned Success ->
       (getTransactionHash tx ∉ transactions_hash_seen seen)
       ∧ (∃ line, logged st' = logged st ++ [line]))
  ∧ (o ≠ Returned Success -> logged st' = logged st).
Proof.
  unfold createTransfers_body, assert_then.
  intros Hb. case_decide; [by simplify_eq|].
  destruct (getOutput tx idx) as [[amount key|amount ks required|]|] eqn:Ho;
    simpl in *; [| |done|by simplify_eq].
  - destruct (global_output_index _ _ _) as [g|] eqn:Hg; [|by simplify_eq].
    destruct (generate_key_image_helper _ _ _) as [ephemeral image].
    destruct (NDEBUG || _); [|by simplify_eq].
    destruct (check_seen _ _ _ _ key st) as [|o1 st1] eqn:Hk; [done|].
    apply check_seen_Leave in Hk as (-> & Hn & _ & Ht & Hl). simplify_eq.
    split_and!; [done| |done]. intros _. split; [done|]. destruct Hl; eauto.
  - destruct (global_output_index _ _ _) as [g|] eqn:Hg; [|by simplify_eq].
    destruct (check_seen_all _ _ ks st) as [|o1 st1] eqn:Hk; [done|].
    apply check_seen_all_Leave in Hk as (-> & Hn & Ht & Hl). simplify_eq.
    split_and!; done.
Qed.

(** The loop that runs to its end. *)
Lemma createTransfers_loop_Next account blockInfo tx globalIdxs seen owned st st' :
  createTransfers_loop account blockInfo tx globalIdxs seen owned st = Next st' ->
  logged st' = logged st
  ∧ temp_keys st' =
      temp_keys st ++
      (if decide (getTransactionHash tx ∈ transactions_hash_seen seen) then []
       else owned_output_keys tx owned)
  ∧ ∃ emitted,
      transfers st' = transfers st ++ emitted
      ∧ Forall (carries_global_index blockInfo globalIdxs) emitted
      ∧ outputInTransaction <$> emitted = filter (fun idx => addressable tx idx = true) owned.
Proof.
  revert st. induction owned as [|idx owned IH]; simpl; intros st Hl.
  - simplify_eq. split_and!; [done|by case_decide; rewrite app_nil_r|].
    exists []. by rewrite app_nil_r.
  - destruct (createTransfers_body _ _ _ _ _ idx st) as [st1|] eqn:Hb; [|done].
    apply createTransfers_body_Next in Hb as (Hl1 & Hk1 & em1 & Ht1 & Hg1 & Hi1).
    apply IH in Hl as (Hl2 & Hk2 & em2 & Ht2 & Hg2 & Hi2).
    split_and!.
    + congruence.
    + rewrite Hk2, Hk1. unfold owned_output_keys.
      case_decide; by rewrite <- ?app_assoc.
    + exists (em1 ++ em2). rewrite Ht2, Ht1, <- app_assoc.
      split_and!; [done|by apply Forall_app|].
      rewrite fmap_app, Hi1, Hi2, filter_cons.
      destruct (addressable tx idx); by case_decide.
Qed.

(** The loop that is left early. *)
Lemma createTransfers_loop_Leave account blockInfo tx globalIdxs seen owned st o st' :
  createTransfers_loop account blockInfo tx globalIdxs seen owned st = Leave o st' ->
  (∃ emitted,
      transfers st' = transfers st ++ emitted
      ∧ Forall (carries_global_index blockInfo globalIdxs) emitted)
  ∧ (o = Returned Success ->
       (getTransactionHash tx ∉ transactions_hash_seen seen)
       ∧ (∃ line, logged st' = logged st ++ [line]))
  ∧ (o ≠ Returned Success -> logged st' = logged st).
Proof.
  revert st. induction owned as [|idx owned IH]; simpl; intros st Hl; [done|].
  destruct (createTransfers_body _ _ _ _ _ idx st) as [st1|o1 st1] eqn:Hb.
  - apply createTransfers_body_Next in Hb as (Hl1 & Hk1 & em1 & Ht1 & Hg1 & Hi1).
    apply IH in Hl as ((em2 & Ht2 & Hg2) & Hs & Hn).
    rewrite Hl1 in Hs, Hn. split_and!; [|done|done].
    exists (em1 ++ em2). rewrite Ht2, Ht1, <- app_assoc. split; [done|by apply Forall_app].
  - simplify_eq.
    apply createTransfers_body_Leave in Hb as (Ht & Hs & Hn).
    split_and!; [|done|done]. exists []. by rewrite app_nil_r.
Qed.

(** The loop over a list of indices cut in two. *)
Lemma createTransfers_loop_app account blockInfo tx globalIdxs seen before after st :
  createTransfers_loop account blockInfo tx globalIdxs seen (before ++ after) st =
  match createTransfers_loop account blockInfo tx globalIdxs seen before st with
  | Next st' => createTransfers_loop account blockInfo tx globalIdxs seen after st'
  | Leave o st' => Leave o st'
  end.
Proof.
  revert st. induction before as [|idx before IH]; simpl; intros st; [done|].
  destruct (createTransfers_body _ _ _ _ _ idx st); [apply IH|done].
Qed.

#[local] Instance seen_le_preorder : PreOrder seen_le.
Proof.
  split.
  - intros a. split; set_solver.
  - intros a b c [? ?] [? ?]. split; set_solver.
Qed.

(** A [createTransfers] call never removes anything from the registry. *)
Lemma createTransfers_seen_le account blockInfo tx owned globalIdxs transfers0 seen :
  seen_le seen
    (seen_out (createTransfers account blockInfo tx owned globalIdxs transfers0 seen)).
Proof.
  unfold createTransfers.
  destruct (createTransfers_loop _ _ _ _ _ _ _); simpl; [|done].
  split; simpl; set_solver.
Qed.

Lemma registry_step_seen_le seen op : seen_le seen (registry_step seen op).
Proof.
  destruct op; simpl; [apply createTransfers_seen_le|].
  split; simpl; set_solver.
Qed.

Lemma registry_run_seen_le seen (ops : list RegistryOp) :
  seen_le seen (foldl registry_step seen ops).
Proof.
  revert seen. induction ops as [|op ops IH]; intros seen; simpl; [done|].
  etrans; [apply registry_step_seen_le|apply IH].
Qed.

(** C5.  A [createTransfers] call on a transaction hash that is not in the
    registry, when it runs to its end without a duplicate-key drop (it returns
    success and logs nothing), adds the hash to [transactions_hash_seen] and
    the staged keys, which are the output keys of the owned outputs, to
    [public_keys_seen].  When the drop fires (an error line is logged) the call
    returns success and leaves the registry as it was.  Over every sequence of
    [createTransfers] and [addPublicKeysSeen] calls the registry only grows. *)
Theorem C5_registry_merge account blockInfo tx owned globalIdxs transfers0 seen :
  let r := createTransfers account blockInfo tx owned globalIdxs transfers0 seen in
  (getTransactionHash tx ∉ transactions_hash_seen seen ->
   outcome r = Returned Success -> log_out r = [] ->
     transactions_hash_seen (seen_out r)
       = transactions_hash_seen seen ∪ {[ getTransactionHash tx ]}
     ∧ public_keys_seen (seen_out r)
       = public_keys_seen seen ∪ list_to_set (owned_output_keys tx owned))
  ∧ (log_out r ≠ [] -> outcome r = Returned Success ∧ seen_out r = seen)
  ∧ (∀ ops : list RegistryOp, seen_le seen (foldl registry_step seen ops)).
Proof.
  unfold createTransfers.
  destruct (createTransfers_loop _ _ _ _ _ _ _) as [st|o st] eqn:Hl; simpl.
  - apply createTransfers_loop_Next in Hl as (Hlog & Hk & _). simpl in *.
    split_and!.
    + intros Hn _ _. rewrite Hk. case_decide; done.
    + by rewrite Hlog.
    + apply registry_run_seen_le.
  - apply createTransfers_loop_Leave in Hl as (_ & Hs & Hn). simpl in *.
    split_and!.
    + intros Hnot -> Hnil. destruct (Hs eq_refl) as (_ & line & Hline).
      rewrite Hnil in Hline. by destruct (app_cons_not_nil [] [] line).
    + intros Hlog. split; [|done].
      destruct (decide (o = Returned Success)) as [|Hne]; [done|].
      by rewrite (Hn Hne) in Hlog.
    + apply registry_run_seen_le.
Qed.

(** C9.  Every transfer a [createTransfers] call emits carries the
    UNCONFIRMED_GLOBAL sentinel as its global output index when the block info
    is unconfirmed, and [globalIdxs[idx]] for its output index [idx] when it is
    confirmed.  When the loop reaches an owned index that is not below the
    output count, the call returns ArgumentOutOfDomain. *)
Theorem C9_global_output_index account blockInfo tx owned globalIdxs transfers0 seen :
  let r := createTransfers account blockInfo tx owned globalIdxs transfers0 seen in
  (∃ emitted,
     transfers_out r = transfers0 ++ emitted
     ∧ Forall (carries_global_index blockInfo globalIdxs) emitted)
  ∧ (∀ before idx after st,
       owned = before ++ idx :: after ->
       (getOutputCount tx <= idx)%N ->
       createTransfers_loop account blockInfo tx globalIdxs seen before
         {| temp_keys := []; transfers := transfers0; logged := [] |} = Next st ->
       outcome r = Returned ArgumentOutOfDomain).
Proof.
  unfold createTransfers. split.
  - destruct (createTransfers_loop _ _ _ _ _ _ _) as [st|o st] eqn:Hl; simpl.
    + apply createTransfers_loop_Next in Hl as (_ & _ & em & Ht & Hg & _). eauto.
    + apply createTransfers_loop_Leave in Hl as ((em & Ht & Hg) & _). eauto.
  - intros before idx after st -> Hge Hb.
    rewrite createTransfers_loop_app, Hb. simpl.
    unfold createTransfers_body. by rewrite decide_True.
Qed.

(** C10.  A [createTransfers] call on a transaction whose hash is already in
    [transactions_hash_seen] makes no duplicate-key check: it logs no
    duplicate-key line whatever [public_keys_seen] holds, it leaves the
    registry as it is, and when it returns success it has emitted a transfer
    for every owned Key or Multisignature output. *)
Theorem C10_seen_hash_is_never_dropped account blockInfo tx owned globalIdxs transfers0 seen :
  getTransactionHash tx ∈ transactions_hash_seen seen ->
  let r := createTransfers account blockInfo tx owned globalIdxs transfers0 seen in
  log_out r = []
  ∧ seen_out r = seen
  ∧ (∃ emitted,
       transfers_out r = transfers0 ++ emitted
       ∧ (outcome r = Returned Success ->
          outputInTransaction <$> emitted
            = filter (fun idx => addressable tx idx = true) owned)).
Proof.
  intros Hin. unfold createTransfers.
  destruct (createTransfers_loop _ _ _ _ _ _ _) as [st|o st] eqn:Hl; simpl.
  - apply createTransfers_loop_Next in Hl as (Hlog & Hk & em & Ht & _ & Hi).
    simpl in *. rewrite decide_True in Hk by done.
    split_and!; [done| |eauto].
    rewrite Hk. destruct seen as [hs ks]. unfold merge_seen. simpl in *.
    f_equal.
    + rewrite (comm_L (∪)). apply subseteq_union_1_L. by apply singleton_subseteq_l.
    + apply (right_id_L ∅ (∪)).
  - apply createTransfers_loop_Leave in Hl as ((em & Ht & _) & Hs & Hn). simpl in *.
    assert (o ≠ Returned Success) as Hne by (intros ->; by destruct (Hs eq_refl)).
    split_and!; [by apply Hn|done|].
    exists em. split; [done|]. by intros [= ->].
Qed.

End Builder.


(** ** Properties of the output scanner *)

Section Scanner.
Context `{ext : Externals}.

(** The addressable entries of a list of outputs. *)
Lemma running_key_index_app (before after : list TransactionOutput) :
  running_key_index (before ++ after) (length (before ++ after)) =
  (running_key_index before (length before) + running_key_index after (length after))%N.
Proof.
  unfold running_key_index. rewrite !firstn_all.
  induction before as [|o before IH]; simpl; [done|]. rewrite IH. lia.
Qed.

Lemma running_key_index_snoc (before : list TransactionOutput) (o : TransactionOutput) :
  running_key_index (before ++ [o]) (length (before ++ [o])) =
  (running_key_index before (length before) + key_index_advance o)%N.
Proof.
  rewrite running_key_index_app. f_equal.
  unfold running_key_index. simpl. lia.
Qed.

Lemma running_key_index_prefix (before after : list TransactionOutput) :
  running_key_index (before ++ after) (length before) =
  running_key_index before (length before).
Proof.
  unfold running_key_index. by rewrite take_app_length, firstn_all.
Qed.

Lemma uint32_cast_small (x : N) : (x < 2 ^ 32)%N -> uint32_cast x = x.
Proof. apply N.mod_small. Qed.

Lemma size_t_wrap_small (x : N) : (x < 2 ^ 64)%N -> size_t_wrap x = x.
Proof. apply N.mod_small. Qed.

(** The loop over the sub-keys of a Multisignature output at position [idx]:
    every sub-key is tested with [idx], and each advances [keyIndex]. *)
Lemma scan_multisignature_keys_calls derivation ks idx spendKeys keyIndex found :
  (idx < 2 ^ 32)%N ->
  (keyIndex + N.of_nat (length ks) < 2 ^ 64)%N ->
  scan_multisignature_keys derivation ks idx spendKeys (keyIndex, found) =
  ((keyIndex + N.of_nat (length ks))%N,
   foldl (record_call derivation spendKeys) found
     ((fun key => {| call_index := idx; call_key := key; call_output := idx |}) <$> ks)).
Proof.
  intros Hidx. revert keyIndex found.
  induction ks as [|key ks IH]; simpl; intros keyIndex found Hk.
  - f_equal. lia.
  - rewrite size_t_wrap_small by lia. rewrite IH by lia.
    f_equal; [lia|].
    unfold checkOutputKey, record_call. simpl. by rewrite uint32_cast_small.
Qed.

(** The loop over the outputs, entered at the end of [before] with the
    running key index of that position. *)
Lemma scan_outputs_calls derivation spendKeys (all : list TransactionOutput) :
  (N.of_nat (length all) <= 2 ^ 32)%N ->
  (running_key_index all (length all) < 2 ^ 64)%N ->
  ∀ (outs before : list TransactionOutput) found,
    all = before ++ outs ->
    scan_outputs derivation outs (N.of_nat (length before)) spendKeys
      (running_key_index before (length before), found) =
    (running_key_index all (length all),
     foldl (record_call derivation spendKeys) found
       (mjoin (imap (fun i => calls_of_output all (length before + i)) outs))).
Proof.
  intros Hlen Hkeys outs.
  induction outs as [|o outs IH]; intros before found Hall.
  - simpl. by rewrite Hall, app_nil_r.
  - assert (all = (before ++ [o]) ++ outs) as Hall' by by rewrite <- app_assoc.
    assert (N.of_nat (length before) < 2 ^ 32)%N as Hidx.
    { rewrite Hall, length_app in Hlen. simpl in Hlen. lia. }
    assert (running_key_index before (length before) + key_index_advance o
              <= running_key_index all (length all))%N as Hbound.
    { rewrite Hall', running_key_index_app, running_key_index_snoc. lia. }
    assert (running_key_index all (length before + 0)
            = running_key_index before (length before)) as Hhere.
    { rewrite Nat.add_0_r, Hall. apply running_key_index_prefix. }
    specialize (IH (before ++ [o])).
    rewrite running_key_index_snoc, length_app in IH. simpl length in IH.
    replace (N.of_nat (length before + 1)) with (N.of_nat (length before) + 1)%N in IH by lia.
    rewrite imap_cons. simpl mjoin. rewrite foldl_app.
    erewrite (imap_ext _ (fun i => calls_of_output all (length before + 1 + i)));
      [|intros i x _; simpl; f_equal; lia].
    destruct o as [amount key|amount ks required|]; simpl scan_outputs;
      simpl in Hbound; simpl key_index_advance in IH.
    + rewrite size_t_wrap_small by lia.
      rewrite IH by done.
      f_equal. f_equal. simpl.
      unfold checkOutputKey, record_call. simpl.
      rewrite Hhere, Nat.add_0_r. by rewrite uint32_cast_small.
    + rewrite scan_multisignature_keys_calls by lia.
      rewrite IH by done.
      f_equal. f_equal. simpl. by rewrite Nat.add_0_r.
    + rewrite N.add_0_r in IH. by rewrite IH.
Qed.

(** C3.  [findMyOutputs] keeps a running key index over the addressable
    outputs.  A Key output at position [i] is tested with
    [underive_public_key(derivation, key_index, out.key)] and advances the key
    index by one; every sub-key of a Multisignature output at position [i] is
    tested with the position [i] in place of the key index, and advances the key
    index by one all the same; an output of another type is not tested and
    leaves the key index alone.  So the loop ends with the key index at the
    number of addressable entries and with the matches of exactly the
    prescribed calls recorded, in their order. *)
Theorem C3_scanner_key_index (tx : ITransactionReader) (viewSecretKey : SecretKey)
    (spendKeys : gset PublicKey) (found : gmap PublicKey (list N))
    (derivation : KeyDerivation) :
  (N.of_nat (length (txOutputs tx)) <= 2 ^ 32)%N ->
  (running_key_index (txOutputs tx) (length (txOutputs tx)) < 2 ^ 64)%N ->
  generate_key_derivation (getTransactionPublicKey tx) viewSecretKey = Some derivation ->
  scan_outputs derivation (txOutputs tx) 0 spendKeys (0%N, found) =
    (running_key_index (txOutputs tx) (length (txOutputs tx)),
     foldl (record_call derivation spendKeys) found (prescribed_calls (txOutputs tx)))
  ∧ findMyOutputs tx viewSecretKey spendKeys found =
      foldl (record_call derivation spendKeys) found (prescribed_calls (txOutputs tx)).
Proof.
  intros Hlen Hkeys Hd.
  pose proof (scan_outputs_calls derivation spendKeys (txOutputs tx) Hlen Hkeys
                (txOutputs tx) [] found eq_refl) as Hscan.
  change (N.of_nat (length [])) with 0%N in Hscan.
  change (running_key_index [] (length [])) with 0%N in Hscan.
  unfold findMyOutputs, prescribed_calls.
  by rewrite Hd, Hscan.
Qed.

End Scanner.

(** ** Properties of the sync start *)

Section SyncStart.
Context {Container : Type}.
Implicit Types (subs : gmap PublicKey (TransfersSubscription Container)).
Implicit Types (c : TransfersConsumer Container).

Lemma min_start_comm (a b : TransfersSubscription Container) start :
  min_start a (min_start b start) = min_start b (min_start a start).
Proof. unfold min_start. simpl. f_equal; lia. Qed.

Lemma recomputed_start_insert subs key res :
  subs !! key = None ->
  recomputed_start (<[key := res]> subs) = min_start res (recomputed_start subs).
Proof.
  intros Hnone. unfold recomputed_start. apply (map_fold_insert_L (fun _ sub start => min_start sub start)); [|done].
  intros. apply min_start_comm.
Qed.

Lemma minimum_over_insert (f : SynchronizationStart -> N) subs key res m :
  subs !! key = None ->
  (f (getSyncStart res) <= UINT64_MAX)%N ->
  minimum_over f subs m ->
  minimum_over f (<[key := res]> subs) (N.min m (f (getSyncStart res))).
Proof.
  intros Hnone Hres [Hlow Hhit]. split.
  - intros k sub. rewrite lookup_insert. case_decide.
    + intros [= <-]. lia.
    + intros Hk. specialize (Hlow _ _ Hk). lia.
  - left. destruct (N.min_spec m (f (getSyncStart res))) as [[Hlt ->]|[Hle ->]].
    + destruct Hhit as [(k & sub & Hk & Hf)|[-> ->]]; [|lia].
      exists k, sub. split; [|done].
      rewrite lookup_insert_ne; [done|]. intros ->. congruence.
    + exists key, res. by rewrite lookup_insert_eq.
Qed.

Lemma recomputed_start_minimum subs :
  starts_in_range subs -> component_wise_minimum subs (recomputed_start subs).
Proof.
  induction subs as [|key res subs Hnone IH] using map_ind; intros Hrange.
  - unfold recomputed_start. rewrite map_fold_empty.
    split; (split; [by intros ? ?; rewrite lookup_empty|by right]).
  - rewrite recomputed_start_insert by done.
    apply map_Forall_insert in Hrange as [[Hh Ht] Hrange]; [|done].
    destruct (IH Hrange) as [IHh IHt].
    split; simpl; by apply minimum_over_insert.
Qed.

Lemma new_TransfersConsumer_recomputed viewSecret :
  sync_start_recomputed (new_TransfersConsumer (Container := Container) viewSecret).
Proof. split; [done|]. apply map_Forall_empty. Qed.

Lemma facade_step_recomputed c call :
  call_in_range call ->
  sync_start_recomputed c -> sync_start_recomputed (facade_step c call).
Proof.
  intros Hcall [Hstart Hrange].
  destruct call as [fresh subscription|address]; simpl.
  - unfold addSubscription. case_decide; [done|].
    destruct (m_subscriptions c !! _) as [res|] eqn:Hkey; [done|]. simpl.
    split; simpl.
    + rewrite recomputed_start_insert by done. rewrite <- Hstart.
      case_decide as Hsize; [|done].
      rewrite map_size_insert_None in Hsize by done.
      assert (m_subscriptions c = ∅) as Hempty by (apply map_size_empty_inv; lia).
      rewrite Hstart, Hempty. unfold recomputed_start. rewrite map_fold_empty.
      destruct Hcall as [Hh Ht]. unfold min_start, getSyncStart. simpl.
      destruct (syncStart subscription) as [ts h]. simpl in *. f_equal; lia.
    + by apply map_Forall_insert_2.
  - split; simpl; [done|]. by apply map_Forall_delete.
Qed.

Lemma facade_run_recomputed calls c :
  Forall call_in_range calls ->
  sync_start_recomputed c -> sync_start_recomputed (facade_run calls c).
Proof.
  intros Hcalls. revert c. induction Hcalls as [|call calls Hcall _ IH]; intros c Hc; [done|].
  simpl. apply IH. by apply facade_step_recomputed.
Qed.

(** C7.  After every sequence of [addSubscription] and [removeSubscription]
    calls on a new consumer, [getSyncStart] returns the component-wise minimum
    of the sync starts of the stored subscriptions, height and timestamp
    independently, and (uint64 max, uint64 max) when no subscription is
    stored, as it does right after construction. *)
Theorem C7_sync_start_is_minimum (viewSecret : SecretKey)
    (calls : list (FacadeCall (Container := Container))) :
  Forall call_in_range calls ->
  let c := facade_run calls (new_TransfersConsumer viewSecret) in
  component_wise_minimum (m_subscriptions c) (getSyncStart_consumer c)
  ∧ (m_subscriptions c = ∅ ->
     getSyncStart_consumer c = {| ss_timestamp := UINT64_MAX; ss_height := UINT64_MAX |})
  ∧ getSyncStart_consumer (new_TransfersConsumer (Container := Container) viewSecret)
    = {| ss_timestamp := UINT64_MAX; ss_height := UINT64_MAX |}.
Proof.
  intros Hcalls c.
  destruct (facade_run_recomputed calls _ Hcalls
              (new_TransfersConsumer_recomputed viewSecret)) as [Hstart Hrange].
  fold c in Hstart, Hrange. unfold getSyncStart_consumer.
  split_and!; [|intros Hempty|done].
  - rewrite Hstart. by apply recomputed_start_minimum.
  - rewrite Hstart, Hempty. unfold recomputed_start. by rewrite map_fold_empty.
Qed.

End SyncStart.

(** ** Properties of the worker count *)

(** C8, as the code has it.  [onNewBlocks] starts as many workers as the
    platform reports hardware threads, and two when the platform reports none;
    that is [max(2, p)] for every [p] but one. *)
Theorem C8_worker_count (p : N) (rounds : list (list Tx)) :
  length (workers (start_pool p rounds)) = N.to_nat (worker_count p)
  ∧ (p = 0 -> worker_count p = 2)%N
  ∧ (p ≠ 0 -> worker_count p = p)%N
  ∧ (p ≠ 1 -> worker_count p = N.max 2 p)%N.
Proof.
  unfold start_pool, worker_count. simpl. rewrite length_replicate.
  split_and!; [done|..]; intros Hp; case_decide; lia.
Qed.

(** C8 fails where the platform reports one hardware thread: one worker is
    started, not two. *)
Lemma C8_counterexample :
  length (workers (start_pool 1 [])) = 1%nat
  ∧ N.to_nat (N.max 2 1) = 2%nat
  ∧ length (workers (start_pool 1 [])) ≠ N.to_nat (N.max 2 1).
Proof. split_and!; [reflexivity|reflexivity|by vm_compute]. Qed.

(** ** Properties of the sort *)

Section Sorting.
Context {A : Type} (less : A -> A -> bool).
Hypothesis less_asym : ∀ x y, less x y = true -> less y x = false.
Hypothesis not_less_trans :
  ∀ x y z, less y x = false -> less z y = false -> less z x = false.

Lemma sort_insert_Permutation x l : sort_insert less x l ≡ₚ x :: l.
Proof.
  induction l as [|y l IH]; simpl; [done|].
  destruct (less x y); [done|]. by rewrite IH, Permutation_swap.
Qed.

Lemma std_sort_Permutation l : std_sort less l ≡ₚ l.
Proof.
  induction l as [|x l IH]; simpl; [done|].
  by rewrite sort_insert_Permutation, IH.
Qed.

Lemma sort_insert_sorted x l :
  StronglySorted (fun a b => less b a = false) l ->
  StronglySorted (fun a b => less b a = false) (sort_insert less x l).
Proof.
  induction 1 as [|y l Hsorted IH Hy]; simpl.
  - repeat constructor.
  - destruct (less x y) eqn:Hxy.
    + constructor; [by constructor|].
      constructor; [by apply less_asym|].
      eapply Forall_impl; [exact Hy|]. intros z Hz. simpl in Hz.
      eapply not_less_trans; [|exact Hz]. by apply less_asym.
    + constructor; [done|].
      rewrite sort_insert_Permutation. by constructor.
Qed.

Lemma std_sort_sorted l :
  StronglySorted (fun a b => less b a = false) (std_sort less l).
Proof.
  induction l as [|x l IH]; simpl; [constructor|]. by apply sort_insert_sorted.
Qed.

End Sorting.

Lemma tie_less_block_order (a b : PreprocessedTx) :
  tie_less b a = false <-> block_order (tx_blockInfo (base a)) (tx_blockInfo (base b)).
Proof.
  unfold tie_less, block_order.
  rewrite orb_false_iff, andb_false_iff, negb_false_iff, !N.ltb_ge, N.ltb_lt. lia.
Qed.

Lemma tie_less_asym (x y : PreprocessedTx) : tie_less x y = true -> tie_less y x = false.
Proof.
  unfold tie_less.
  rewrite orb_true_iff, andb_true_iff, negb_true_iff, orb_false_iff,
    andb_false_iff, negb_false_iff, !N.ltb_ge, !N.ltb_lt. lia.
Qed.

Lemma tie_less_not_trans (x y z : PreprocessedTx) :
  tie_less y x = false -> tie_less z y = false -> tie_less z x = false.
Proof.
  rewrite !tie_less_block_order. unfold block_order. lia.
Qed.

(** The transactions leave [std::sort] in ascending order of
    [(height, transactionIndex)]. *)
Lemma std_sort_block_order (txs : list PreprocessedTx) :
  StronglySorted block_order ((fun ptx => tx_blockInfo (base ptx)) <$> std_sort tie_less txs).
Proof.
  eapply StronglySorted_fmap; [|apply std_sort_sorted].
  - intros a b. apply tie_less_block_order.
  - apply tie_less_asym.
  - apply tie_less_not_trans.
Qed.

Lemma StronglySorted_sublist {A : Type} (R : relation A) (l k : list A) :
  l `sublist_of` k -> StronglySorted R k -> StronglySorted R l.
Proof.
  induction 1 as [|x l k Hsub IH|x l k Hsub IH]; intros Hk.
  - constructor.
  - apply StronglySorted_inv in Hk as [Hk Hx].
    constructor; [by apply IH|].
    rewrite Forall_forall in Hx |- *. intros y Hy. apply Hx.
    by eapply elem_of_sublist.
  - apply StronglySorted_inv in Hk as [Hk _]. by apply IH.
Qed.

(** ** Properties of the worker pool *)

Section PoolProperties.
Context `{ext : Externals}.
Implicit Types (p : Pool) (ws : list Worker).

(** The rounds of the pushing thread hold the enumerated items. *)
Lemma concat_enumerate_rounds syncStart startHeight i blocks :
  concat (enumerate_rounds syncStart startHeight i blocks)
  = enumerate_blocks syncStart startHeight i blocks.
Proof.
  revert i. induction blocks as [|b blocks IH]; intros i; simpl; [done|].
  by rewrite IH.
Qed.

Lemma busy_items_insert_to_Busy ws w x item :
  ws !! w = Some x ->
  (∀ item', x ≠ Busy item') ->
  busy_items (<[w := Busy item]> ws) ≡ₚ item :: busy_items ws.
Proof.
  intros Hw Hx. revert w Hw. induction ws as [|y ws IH]; intros [|w]; simpl; try done.
  - intros [= ->]. unfold busy_items. simpl. destruct x; [done|done|by destruct (Hx item0)|done].
  - intros Hw. unfold busy_items in *. simpl.
    destruct y; simpl; rewrite IH by done; [done|done|apply Permutation_swap|done].
Qed.

Lemma busy_items_insert_Busy ws w item x :
  ws !! w = Some (Busy item) ->
  (∀ item', x ≠ Busy item') ->
  item :: busy_items (<[w := x]> ws) ≡ₚ busy_items ws.
Proof.
  intros Hw Hx. revert w Hw. induction ws as [|y ws IH]; intros [|w]; simpl; try done.
  - intros [= ->]. unfold busy_items. simpl.
    destruct x; [done|done|by destruct (Hx item0)|done].
  - intros Hw. unfold busy_items in *. simpl.
    destruct y; simpl; rewrite <- (IH _ Hw); [done|done|apply Permutation_swap|done].
Qed.

Lemma busy_items_insert_other ws w y x :
  ws !! w = Some y ->
  (∀ item', y ≠ Busy item') ->
  (∀ item', x ≠ Busy item') ->
  busy_items (<[w := x]> ws) = busy_items ws.
Proof.
  intros Hw Hy Hx. revert w Hw. induction ws as [|z ws IH]; intros [|w]; simpl; try done.
  - intros [= ->]. unfold busy_items. simpl.
    destruct x; [|by destruct y; [| |destruct (Hy item)|]
                 |by destruct (Hx item)|by destruct y; [| |destruct (Hy item)|]].
    by destruct y; [| |destruct (Hy item)|].
  - intros Hw. unfold busy_items in *. simpl. by rewrite (IH _ Hw).
Qed.

(** A step does not repair a worker that has gone wrong. *)
Lemma all_well_before ws w x y :
  ws !! w = Some x ->
  match x with Finished _ => False | _ => True end ->
  all_well (<[w := y]> ws) -> all_well ws.
Proof.
  unfold all_well. rewrite !Forall_lookup. intros Hw Hx Hall i z Hi.
  destruct (decide (i = w)) as [->|Hne].
  - rewrite Hw in Hi. injection Hi as <-. by destruct x.
  - apply (Hall i). by rewrite list_lookup_insert_ne.
Qed.

Lemma all_well_at ws w y : (w < length ws)%nat -> all_well (<[w := y]> ws) ->
  match y with Finished r => r = WorkerReturned Success | _ => True end.
Proof.
  unfold all_well. rewrite Forall_lookup. intros Hw Hall.
  apply (Hall w). by apply list_lookup_insert_eq.
Qed.

Lemma pool_step_nothing_lost items p p' :
  pool_step p p' -> nothing_lost items p -> nothing_lost items p'.
Proof.
  unfold nothing_lost.
  destruct 1 as [p its later Hp Hs|p item pending later Hp Hq|p later Hp Hl
                |p w Hw Hs|p w Hw Hs|p w item rest Hw Hq|p w Hw Hq Hc
                |p w item output Hw|p w item ec Hw Hec|p w item r Hw Hr];
    simpl; intros Hinv Hwell.
  - destruct (Hinv Hwell) as [Hstop Hperm]. split; [done|].
    by rewrite Hp in Hperm.
  - destruct (Hinv Hwell) as [Hstop Hperm]. split; [done|].
    rewrite Hp in Hperm. simpl in Hperm. rewrite <- Hperm.
    do 2 apply Permutation_app_head. by rewrite <- app_assoc.
  - destruct (Hinv Hwell) as [Hstop Hperm]. split; [done|].
    destruct Hl as [->|Hl]; [|congruence].
    by rewrite Hp in Hperm.
  - destruct (Hinv (all_well_before _ _ _ _ Hw I Hwell)) as [Hstop Hperm].
    split; [done|]. by rewrite (busy_items_insert_other _ _ Idle).
  - destruct (Hinv (all_well_before _ _ _ _ Hw I Hwell)) as [Hstop Hperm]. congruence.
  - destruct (Hinv (all_well_before _ _ _ _ Hw I Hwell)) as [Hstop Hperm].
    split; [done|]. rewrite (busy_items_insert_to_Busy _ _ Popping) by done.
    rewrite Hq in Hperm. rewrite <- Hperm.
    apply Permutation_app_head. simpl. apply Permutation_middle.
  - destruct (Hinv (all_well_before _ _ _ _ Hw I Hwell)) as [Hstop Hperm].
    split; [done|]. by rewrite (busy_items_insert_other _ _ Popping).
  - destruct (Hinv (all_well_before _ _ _ _ Hw I Hwell)) as [Hstop Hperm].
    split; [done|]. rewrite <- Hperm, fmap_app, <- app_assoc. simpl.
    apply Permutation_app_head.
    rewrite <- (busy_items_insert_Busy _ _ _ Idle Hw) by done. done.
  - apply all_well_at in Hwell; [|by eapply lookup_lt_Some].
    injection Hwell as ->. done.
  - apply all_well_at in Hwell; [|by eapply lookup_lt_Some]. by destruct (Hr Success).
Qed.

Lemma pool_step_closed_by_producer p p' :
  pool_step p p' -> closed_by_producer p -> closed_by_producer p'.
Proof.
  unfold closed_by_producer.
  destruct 1 as [p its later Hp Hs|p item pending later Hp Hq|p later Hp Hl
                |p w Hw Hs|p w Hw Hs|p w item rest Hw Hq|p w Hw Hq Hc
                |p w item output Hw|p w item ec Hw Hec|p w item r Hw Hr];
    simpl; intros Hinv Hclosed; try done; try (by apply Hinv).
  - rewrite Hinv in Hp by done. done.
  - rewrite Hinv in Hp by done. done.
Qed.

Lemma pool_step_returned_on_empty p p' :
  pool_step p p' -> closed_by_producer p -> returned_on_empty p -> returned_on_empty p'.
Proof.
  unfold returned_on_empty.
  destruct 1 as [p its later Hp Hs|p item pending later Hp Hq|p later Hp Hl
                |p w Hw Hs|p w Hw Hs|p w item rest Hw Hq|p w Hw Hq Hc
                |p w item output Hw|p w item ec Hw Hec|p w item r Hw Hr];
    simpl; intros Hclosed Hinv Hstop (w' & Hw').
  - destruct Hinv as [_ Hfin]; [done|by eauto|]. congruence.
  - destruct Hinv as [_ Hfin]; [done|by eauto|]. congruence.
  - destruct Hinv as [_ Hfin]; [done|by eauto|]. congruence.
  - destruct (decide (w' = w)) as [->|Hne].
    + rewrite list_lookup_insert_eq in Hw' by by eapply lookup_lt_Some. done.
    + rewrite list_lookup_insert_ne in Hw' by done. eauto.
  - congruence.
  - destruct (decide (w' = w)) as [->|Hne].
    + rewrite list_lookup_insert_eq in Hw' by by eapply lookup_lt_Some. done.
    + rewrite list_lookup_insert_ne in Hw' by done.
      destruct Hinv as [Hempty _]; [done|by eauto|]. congruence.
  - split; [done|]. by apply Hclosed.
  - destruct (decide (w' = w)) as [->|Hne].
    + rewrite list_lookup_insert_eq in Hw' by by eapply lookup_lt_Some. done.
    + rewrite list_lookup_insert_ne in Hw' by done. eauto.
  - done.
  - destruct (decide (w' = w)) as [->|Hne].
    + rewrite list_lookup_insert_eq in Hw' by by eapply lookup_lt_Some.
      injection Hw' as ->. by destruct (Hr Success).
    + rewrite list_lookup_insert_ne in Hw' by done. eauto.
Qed.

Lemma start_pool_nothing_lost hardware_concurrency rounds :
  nothing_lost (concat rounds) (start_pool hardware_concurrency rounds).
Proof.
  intros _. simpl. split; [done|].
  unfold busy_items. induction (N.to_nat _) as [|n IH]; simpl; done.
Qed.

Lemma start_pool_returned_on_empty hardware_concurrency rounds :
  returned_on_empty (start_pool hardware_concurrency rounds).
Proof.
  intros _ (w & Hw). simpl in Hw. apply lookup_replicate in Hw as [? _]. done.
Qed.

(** What the futures hold when every worker returned without an error: the
    workers are all finished, and none is left busy. *)
Lemma worker_results_all_returned ws results :
  mapM (fun w => match w with Finished r => Some r | _ => None end) ws = Some results ->
  Forall (fun r => r = WorkerReturned Success) results ->
  all_well ws ∧ busy_items ws = []
  ∧ ∀ w, (w < length ws)%nat -> ws !! w = Some (Finished (WorkerReturned Success)).
Proof.
  rewrite mapM_Some. intros Hall Hok.
  induction Hall as [|x r ws results Hx _ IH]; simpl.
  - split_and!; [constructor|done|]. intros w Hw. simpl in Hw. lia.
  - apply Forall_cons in Hok as [-> Hok]. destruct (IH Hok) as (Hwell & Hbusy & Hfin).
    destruct x as [| | |r]; simplify_eq.
    split_and!; [by constructor|done|].
    intros [|w] Hw; simpl in *; [done|]. apply Hfin. lia.
Qed.

(** Every run of the pool in which all workers return without an error ends
    with the pushing thread finished and a result for each item of its rounds,
    whatever the number of workers and the order of the steps. *)
Lemma pool_run_complete hardware_concurrency rounds p results :
  rtc pool_step (start_pool hardware_concurrency rounds) p ->
  worker_results p = Some results ->
  Forall (fun r => r = WorkerReturned Success) results ->
  base <$> preprocessedTransactions p ≡ₚ concat rounds.
Proof.
  intros Hrun Hresults Hok.
  assert (nothing_lost (concat rounds) p ∧ closed_by_producer p ∧ returned_on_empty p
          ∧ length (workers p) ≠ 0%nat)
    as (Hlost & _ & Hempty & Hlen).
  { revert Hrun. generalize p.
    apply (rtc_ind_r (fun p => nothing_lost (concat rounds) p ∧ closed_by_producer p
                               ∧ returned_on_empty p ∧ length (workers p) ≠ 0%nat)).
    - split_and!; [apply start_pool_nothing_lost|done|apply start_pool_returned_on_empty|].
      simpl. rewrite length_replicate. unfold worker_count. case_decide; lia.
    - intros p1 p2 Hrun Hstep (IH1 & IH2 & IH3 & IH4).
      split_and!; [by eapply pool_step_nothing_lost|by eapply pool_step_closed_by_producer
                  |by eapply pool_step_returned_on_empty|].
      destruct Hstep; simpl; by rewrite ?length_insert. }
  destruct (worker_results_all_returned _ _ Hresults Hok) as (Hwell & Hbusy & Hfin).
  destruct (Hlost Hwell) as [Hstop Hperm].
  destruct Hempty as [Hqueue Hproducer]; [done|exists 0%nat; apply Hfin; lia|].
  by rewrite Hbusy, Hqueue, Hproducer, !app_nil_r in Hperm.
Qed.

Lemma single_worker (ws : list Worker) w x :
  length ws = 1%nat -> ws !! w = Some x -> ws = [x] ∧ w = 0%nat.
Proof.
  destruct ws as [|y [|z ws]]; [done| |done]. intros _.
  destruct w as [|w]; simpl; [by intros [= ->]|done].
Qed.

(** With one worker and a queue of two, a single round of four items keeps
    its items in sight. *)
Lemma pool_step_one_round_of_four p p' (i1 i2 i3 i4 : Tx) :
  pool_step p p' ->
  (∀ pending later, producer p = Pushing pending later ->
                    later = [] ∨ later = [[i1; i2; i3; i4]]) ->
  one_round_of_four p -> one_round_of_four p'.
Proof.
  unfold one_round_of_four, taken.
  destruct 1 as [p its later Hp Hs|p item pending later Hp Hq|p later Hp Hl
                |p w Hw Hs|p w Hw Hs|p w item rest Hw Hq|p w Hw Hq Hc
                |p w item output Hw|p w item ec Hw Hec|p w item r Hw Hr];
    simpl; intros Hshape (Hmax & Hqueue & Hone & Hinv);
    try (destruct (single_worker _ _ _ Hone Hw) as [Hws ->]; rewrite Hws in *; simpl in * );
    (split; [done|]).
  - rewrite Hp in Hinv. destruct (Hshape _ _ Hp) as [?|[= -> ->]]; [done|].
    destruct Hinv as (_ & -> & Ht & _). simpl in *. split_and!; [lia|done|lia].
  - rewrite Hp in Hinv. rewrite length_app. simpl.
    split_and!; [lia|done|].
    destruct later as [|? ?]; [simpl in *; lia|by destruct Hinv].
  - rewrite Hp in Hinv. split_and!; [done|done|].
    destruct later as [|? ?]; [simpl in *; lia|].
    destruct Hl as [?|Hstop]; [done|]. destruct Hinv as (_ & _ & _ & ? & _). congruence.
  - split_and!; [done|done|].
    destruct (producer p) as [pending [|? ?]|]; simpl in *; [done| |done].
    destruct Hinv as (? & ? & ? & ? & ? & ?). split_and!; [done..|].
    constructor; [by right|constructor].
  - split_and!; [done|done|].
    destruct (producer p) as [pending [|? ?]|]; simpl in *; [done| |done].
    destruct Hinv as (? & ? & ? & ? & ? & ?). congruence.
  - rewrite Hq in *. simpl in *. split_and!; [lia|done|].
    destruct (producer p) as [pending [|? ?]|]; simpl in *; [lia| |lia].
    by destruct Hinv as (? & ? & _).
  - split_and!; [done|done|].
    destruct (producer p) as [pending [|? ?]|]; simpl in *; [done| |done].
    destruct Hinv as (? & ? & ? & ? & ? & ?). congruence.
  - rewrite length_app. simpl. split_and!; [done|done|].
    destruct (producer p) as [pending [|? ?]|]; simpl in *; [lia| |lia].
    destruct Hinv as (? & ? & ? & _). lia.
  - rewrite Hec. simpl. split_and!; [done|done|].
    destruct (producer p) as [pending [|? ?]|]; simpl in *; [lia| |lia].
    destruct Hinv as (? & ? & ? & _). lia.
  - destruct r as [ec| |]; [by destruct (Hr ec)| |]; simpl in *;
      (split_and!; [done|done|]);
      (destruct (producer p) as [pending [|? ?]|]; simpl in *; [lia| |lia]);
      destruct Hinv as (? & ? & ? & _); lia.
Qed.

Lemma start_one_round_of_four (i1 i2 i3 i4 : Tx) :
  one_round_of_four (start_pool 1 [[i1; i2; i3; i4]]).
Proof.
  unfold one_round_of_four, taken. simpl.
  split_and!; [done|lia|done|done|done|done|done|done|]. constructor; [by left|constructor].
Qed.

Lemma pool_run_one_round_of_four (i1 i2 i3 i4 : Tx) p :
  rtc pool_step (start_pool 1 [[i1; i2; i3; i4]]) p ->
  one_round_of_four p.
Proof.
  intros Hrun.
  enough (one_round_of_four p
          ∧ ∀ pending later, producer p = Pushing pending later ->
                             later = [] ∨ later = [[i1; i2; i3; i4]]) as [? _] by done.
  revert Hrun. generalize p.
  apply (rtc_ind_r (fun p => one_round_of_four p
                             ∧ ∀ pending later, producer p = Pushing pending later ->
                                                later = [] ∨ later = [[i1; i2; i3; i4]])).
  - split; [apply start_one_round_of_four|]. intros pending later [= <- <-]. by right.
  - intros p1 p2 _ Hstep [IH Hshape]. split; [by eapply pool_step_one_round_of_four|].
    destruct Hstep as [q its later Hp Hs|q item pending later Hp Hq|q later Hp Hl
                      |q w Hw Hs|q w Hw Hs|q w item rest Hw Hq|q w Hw Hq Hc
                      |q w item output Hw|q w item ec Hw Hec|q w item r Hw Hr];
      simpl; try done.
    + intros ? ? [= <- <-]. destruct (Hshape _ _ Hp) as [?|[= -> ->]]; [done|by left].
    + intros ? ? [= <- <-]. by apply (Hshape _ _ Hp).
Qed.

(** When the one worker has finished without a preprocessed transaction, the
    pushing thread has not. *)
Lemma one_round_of_four_blocked p results :
  one_round_of_four p ->
  worker_results p = Some results ->
  preprocessedTransactions p = [] ->
  producer p ≠ ProducerFinished.
Proof.
  unfold one_round_of_four, taken. intros (Hmax & Hqueue & Hone & Hinv) Hresults Hnone Hfin.
  rewrite Hfin, Hnone in Hinv. simpl in Hinv.
  destruct (workers p) as [|w [|? ?]]; [done| |done]. simpl in Hinv.
  destruct (holds_item w); simpl in Hinv; lia.
Qed.

(** Without blocks no worker gets busy: every worker stands at its loop, in
    [pop], or has returned without an error. *)
Lemma pool_run_without_items hardware_concurrency p results :
  rtc pool_step (start_pool hardware_concurrency []) p ->
  worker_results p = Some results ->
  Forall (fun r => r = WorkerReturned Success) results.
Proof.
  intros Hrun Hresults.
  assert (inputQueue p = []
          ∧ (producer p = Pushing [] [] ∨ producer p = ProducerFinished)
          ∧ Forall (fun w => w = Idle ∨ w = Popping ∨ w = Finished (WorkerReturned Success))
                   (workers p))
    as (_ & _ & Hws).
  { revert Hrun. generalize p.
    apply (rtc_ind_r (fun p => inputQueue p = []
                               ∧ (producer p = Pushing [] [] ∨ producer p = ProducerFinished)
                               ∧ Forall (fun w => w = Idle ∨ w = Popping
                                                  ∨ w = Finished (WorkerReturned Success))
                                        (workers p))).
    - split_and!; [done|by left|]. simpl. apply Forall_replicate. by left.
    - intros p1 p2 Hrun Hstep (IH1 & IH2 & IH3).
      destruct Hstep as [q its later Hp Hs|q item pending later Hp Hq|q later Hp Hl
                        |q w Hw Hs|q w Hw Hs|q w item rest Hw Hq|q w Hw Hq Hc
                        |q w item output Hw|q w item ec Hw Hec|q w item r Hw Hr]; simpl.
      + destruct IH2; congruence.
      + destruct IH2; congruence.
      + split_and!; [done|by right|done].
      + split_and!; [done|done|]. apply Forall_insert; [done|by right; left].
      + split_and!; [done|done|]. apply Forall_insert; [done|by right; right].
      + congruence.
      + split_and!; [done|done|]. apply Forall_insert; [done|by right; right].
      + rewrite Forall_lookup in IH3. by destruct (IH3 _ _ Hw) as [?|[?|?]].
      + rewrite Forall_lookup in IH3. by destruct (IH3 _ _ Hw) as [?|[?|?]].
      + rewrite Forall_lookup in IH3. by destruct (IH3 _ _ Hw) as [?|[?|?]]. }
  unfold worker_results in Hresults. apply mapM_Some in Hresults.
  induction Hresults as [|x r ws results Hx _ IH]; [constructor|].
  apply Forall_cons in Hws as [[->|[->| ->]] Hws]; [done|done|].
  injection Hx as <-. constructor; [done|by apply IH].
Qed.

End PoolProperties.

(** ** Properties of applying a transaction *)

Section ApplyProperties.
Context `{ext : Externals} {Container : Type} `{ops : SubscriptionOps Container}.
Implicit Types (sub : TransfersSubscription Container).
Implicit Types (c : TransfersConsumer Container).

(** C6.  For a transaction the container of a subscription already knows:
    when the known entry is at the UNCONFIRMED height and the incoming block
    info is confirmed, [processOutputs] calls [markTransactionConfirmed];
    otherwise the incoming height has to equal the known one, which the code
    asserts, and the subscription is left as it is.  A known confirmed entry
    is never touched, so no confirmed entry goes back to unconfirmed, and in
    no case is [addTransaction] called for the known hash. *)
Theorem C6_known_transaction blockInfo sub tx transfers globalIdxs known :
  getTransactionInformation (container sub) (getTransactionHash tx) = Some known ->
  let r := processOutputs blockInfo sub tx transfers globalIdxs in
  let pool_to_chain :=
    blockHeight known = WALLET_UNCONFIRMED_TRANSACTION_HEIGHT
    ∧ height blockInfo ≠ WALLET_UNCONFIRMED_TRANSACTION_HEIGHT in
  (pool_to_chain ->
     r = Some (sub_markTransactionConfirmed sub blockInfo (getTransactionHash tx) globalIdxs,
               true, true)
     ∧ received (sub_markTransactionConfirmed sub blockInfo (getTransactionHash tx) globalIdxs)
       = received sub
         ++ [MarkTransactionConfirmed blockInfo (getTransactionHash tx) globalIdxs])
  ∧ (¬ pool_to_chain -> blockHeight known = height blockInfo -> r = Some (sub, true, false))
  ∧ (¬ pool_to_chain -> blockHeight known ≠ height blockInfo ->
       r = if NDEBUG then Some (sub, true, false) else None)
  ∧ (blockHeight known ≠ WALLET_UNCONFIRMED_TRANSACTION_HEIGHT ->
       ∀ sub' contains updated, r = Some (sub', contains, updated) -> sub' = sub)
  ∧ (∀ sub' contains updated, r = Some (sub', contains, updated) ->
       added_blockInfos (received sub') = added_blockInfos (received sub)).
Proof.
  intros Hknown. unfold processOutputs. rewrite Hknown. simpl.
  split_and!.
  - intros Hpc. by rewrite decide_True.
  - intros Hpc Heq. rewrite decide_False by done.
    rewrite Heq, N.eqb_refl, orb_true_r. done.
  - intros Hpc Hne. rewrite decide_False by done.
    apply N.eqb_neq in Hne. rewrite Hne, orb_false_r. done.
  - intros Hconfirmed sub' contains updated.
    rewrite decide_False by (intros [? ?]; done).
    destruct (NDEBUG || _); by intros [= <- <- <-].
  - intros sub' contains updated. case_decide.
    + intros [= <- <- <-]. simpl. unfold added_blockInfos.
      by rewrite omap_app, app_nil_r.
    + destruct (NDEBUG || _); by intros [= <- <- <-].
Qed.

(** What a [processOutputs] call adds to the calls a subscription received. *)
Lemma processOutputs_received blockInfo sub tx transfers globalIdxs sub' contains updated :
  processOutputs blockInfo sub tx transfers globalIdxs = Some (sub', contains, updated) ->
  ∃ calls, received sub' = received sub ++ calls
           ∧ added_blockInfos calls `sublist_of` [blockInfo].
Proof.
  unfold processOutputs.
  destruct (getTransactionInformation _ _) as [known|].
  - case_decide.
    + intros [= <- <- <-]. eexists [_]. split; [done|]. apply sublist_nil_l.
    + destruct (NDEBUG || _); [|done]. intros [= <- <- <-].
      exists []. split; [by rewrite app_nil_r|apply sublist_nil_l].
  - intros [= <- <- <-]. eexists [_]. split; [done|]. simpl. reflexivity.
Qed.

Lemma grows_by_refl (subs : gmap PublicKey (TransfersSubscription Container)) :
  grows_by [] subs subs.
Proof.
  intros key. destruct (subs !! key) as [sub|]; constructor.
  exists []. split; [by rewrite app_nil_r|apply sublist_nil_l].
Qed.

Lemma grows_by_trans infos1 infos2
    (subs1 subs2 subs3 : gmap PublicKey (TransfersSubscription Container)) :
  grows_by infos1 subs1 subs2 -> grows_by infos2 subs2 subs3 ->
  grows_by (infos1 ++ infos2) subs1 subs3.
Proof.
  intros H12 H23 key. specialize (H12 key). specialize (H23 key).
  destruct H12 as [sub1 sub2 (calls1 & Hr1 & Hs1)|]; inversion H23 as [? sub3 (calls2 & Hr2 & Hs2)|];
    simplify_eq; constructor.
  exists (calls1 ++ calls2). rewrite Hr2, Hr1, <- app_assoc. split; [done|].
  unfold added_blockInfos. rewrite omap_app. by apply sublist_app.
Qed.

Lemma processTransaction_rounds_None blockInfo tx info
    (l : list (PublicKey * TransfersSubscription Container)) :
  foldl (processTransaction_round blockInfo tx info) None l = None.
Proof. induction l; simpl; done. Qed.

(** The loop over the subscriptions handles each subscription by itself. *)
Lemma processTransaction_rounds_lookup blockInfo tx info
    (l : list (PublicKey * TransfersSubscription Container)) :
  NoDup l.*1 ->
  ∀ subs0 updated0 containers0 subs updated containers,
    foldl (processTransaction_round blockInfo tx info)
          (Some (subs0, updated0, containers0)) l = Some (subs, updated, containers) ->
    ∀ key,
      (key ∉ l.*1 -> subs !! key = subs0 !! key)
      ∧ (∀ sub, (key, sub) ∈ l ->
           ∃ sub' contains upd,
             processOutputs blockInfo sub tx (default [] (outputs info !! key))
               (globalIdxs info) = Some (sub', contains, upd)
             ∧ subs !! key = Some sub').
Proof.
  induction l as [|[k s] l IH]; simpl; intros Hnd subs0 updated0 containers0 subs updated containers.
  - intros [= <- <- <-] key. split; [done|]. intros sub Hin. by apply elem_of_nil in Hin.
  - apply NoDup_cons in Hnd as [Hk Hnd].
    destruct (processOutputs blockInfo s tx _ _) as [[[s' ct] up]|] eqn:Hp;
      [|by rewrite processTransaction_rounds_None].
    intros Hfold key. destruct (IH Hnd _ _ _ _ _ _ Hfold key) as [Hout Hin].
    destruct (IH Hnd _ _ _ _ _ _ Hfold k) as [Houtk _].
    split.
    + intros Hkey. apply not_elem_of_cons in Hkey as [Hne Hkey].
      rewrite Hout by done. by rewrite lookup_insert_ne.
    + intros sub Hsub. apply elem_of_cons in Hsub as [[= -> ->]|Hsub]; [|by apply Hin].
      exists s', ct, up. split; [done|].
      rewrite Houtk by done. by rewrite lookup_insert_eq.
Qed.

Lemma processTransaction_grows blockInfo tx info c c' :
  processTransaction blockInfo tx info c = Some c' ->
  grows_by [blockInfo] (m_subscriptions c) (m_subscriptions c').
Proof.
  unfold processTransaction.
  destruct (foldl _ _ _) as [[[subs updated] containers]|] eqn:Hfold; [|done].
  intros [= <-] key.
  pose proof (processTransaction_rounds_lookup _ _ _ _
                (NoDup_fst_map_to_list (m_subscriptions c)) _ _ _ _ _ _ Hfold key)
    as [Hout Hin].
  assert (m_subscriptions
            (if updated
             then notify (OnTransactionUpdated (getTransactionHash tx) containers)
                         (with_subscriptions subs c)
             else with_subscriptions subs c) = subs) as -> by by destruct updated.
  destruct (m_subscriptions c !! key) as [sub|] eqn:Hkey.
  - apply elem_of_map_to_list in Hkey.
    destruct (Hin _ Hkey) as (sub' & ct & up & Hp & ->). constructor.
    by eapply processOutputs_received.
  - rewrite Hout; [constructor|].
    intros Hel. apply list_elem_of_fmap in Hel as [[k sub] [-> Hel]].
    apply elem_of_map_to_list in Hel. simpl in *. congruence.
Qed.

Lemma apply_all_cons ptx txs c :
  apply_all (ptx :: txs) c =
  match processTransaction (tx_blockInfo (base ptx)) (tx_reader (base ptx)) (info ptx) c with
  | Some c' => apply_all txs c'
  | None => None
  end.
Proof.
  unfold apply_all. simpl. destruct (processTransaction _ _ _ c); [done|].
  induction txs; simpl; done.
Qed.

(** The transactions applied one after the other: a subscription receives
    [add_transaction] calls in the order of the applied transactions. *)
Lemma apply_all_grows txs c c' :
  apply_all txs c = Some c' ->
  grows_by ((fun ptx => tx_blockInfo (base ptx)) <$> txs)
           (m_subscriptions c) (m_subscriptions c').
Proof.
  revert c. induction txs as [|ptx txs IH]; intros c.
  - intros [= <-]. apply grows_by_refl.
  - rewrite apply_all_cons.
    destruct (processTransaction _ _ _ c) as [c1|] eqn:Hp; [|done].
    intros Hrest. apply processTransaction_grows in Hp.
    apply (grows_by_trans [_] _ _ _ _ Hp (IH _ Hrest)).
Qed.


Lemma forEachSubscription_lookup
    (action : TransfersSubscription Container -> TransfersSubscription Container) c key :
  m_subscriptions (forEachSubscription action c) !! key
  = action <$> m_subscriptions c !! key.
Proof. unfold forEachSubscription. simpl. apply lookup_fmap. Qed.

(** The join loop ends with an error when a worker returned one, provided
    every [std::system_error] it caught carries an error code. *)
Lemma join_workers_error (results : list WorkerResult) :
  (∃ ec, WorkerReturned ec ∈ results ∧ is_error ec = true) ->
  (∀ code, WorkerSystemError code ∈ results -> is_error code = true) ->
  is_error (join_workers results) = true.
Proof.
  unfold join_workers.
  induction results as [|r results IH] using rev_ind; intros (ec & Hin & Hec) Hsys.
  - by apply elem_of_nil in Hin.
  - rewrite foldl_app. simpl.
    destruct r as [ec'|code|]; simpl; [| |done].
    + destruct (is_error (foldl join_round Success results)) eqn:Hacc; simpl; [done|].
      destruct (is_error ec') eqn:Hec'; [done|].
      exfalso. enough (false = true) by done. apply IH.
      * apply elem_of_app in Hin as [Hin|Hin]; [by eauto|].
        apply list_elem_of_singleton in Hin. simplify_eq. congruence.
      * intros code Hcode. apply Hsys. apply elem_of_app. by left.
    + apply Hsys. apply elem_of_app. right. by apply list_elem_of_singleton.
Qed.

(** When no future raised, the join loop keeps the first error code a worker
    returned, in the order of [processingThreads]. *)
Lemma join_workers_first_error (results : list WorkerResult) (acc : error_code) :
  Forall (fun r => ¬ raised r) results ->
  foldl join_round acc results =
  if is_error acc then acc else default Success (first_error results).
Proof.
  intros Hno. revert acc. induction Hno as [|r results Hr _ IH]; intros acc; simpl.
  - by destruct acc.
  - rewrite IH. destruct r as [ec| |]; simpl in *; [|done|done].
    unfold first_error. simpl.
    destruct (is_error acc) eqn:Hacc; simpl; [by rewrite Hacc|].
    destruct (is_error ec) eqn:Hec; simpl; [by rewrite Hec|].
    by rewrite Hacc.
Qed.

(** C2.  A batch [onNewBlocks] accepts is applied in ascending order of
    (block height, transaction index in block): whatever the number of workers
    and the order in which they pushed their results to the accumulated
    vector, the vector is sorted by that pair before [processTransaction] runs
    over it, so the [add_transaction] calls every subscription receives during
    the call come in ascending (height, transaction index) order.  When every
    worker returned without an error the sorted vector holds exactly the
    enumerated transactions. *)
Theorem C2_applied_in_block_order (hardware_concurrency : N)
    (blocks : list CompleteBlock) (startHeight : N) c c' :
  onNewBlocks hardware_concurrency blocks startHeight c (Some (c', true)) ->
  ∃ (p : Pool) (results : list WorkerResult),
    rtc pool_step
        (start_pool hardware_concurrency
                    (enumerate_rounds (m_syncStart c) startHeight 0 blocks)) p
    ∧ worker_results p = Some results
    ∧ let applied := std_sort tie_less (preprocessedTransactions p) in
      applied ≡ₚ preprocessedTransactions p
      ∧ (Forall (fun r => r = WorkerReturned Success) results ->
         base <$> applied ≡ₚ enumerate_blocks (m_syncStart c) startHeight 0 blocks)
      ∧ StronglySorted block_order ((fun ptx => tx_blockInfo (base ptx)) <$> applied)
      ∧ grows_by ((fun ptx => tx_blockInfo (base ptx)) <$> applied)
                 (m_subscriptions c) (m_subscriptions c')
      ∧ (∀ key sub',
           m_subscriptions c' !! key = Some sub' ->
           ∃ sub calls,
             m_subscriptions c !! key = Some sub
             ∧ received sub' = received sub ++ calls
             ∧ StronglySorted block_order (added_blockInfos calls)).
Proof.
  unfold onNewBlocks. destruct (negb NDEBUG && _); [done|].
  intros (p & results & Hrun & Hresults & _ & Hres).
  unfold onNewBlocks_join in Hres.
  destruct (negb (is_error (join_workers results))); [|done].
  destruct (apply_all _ _) as [c1|] eqn:Happly; [|done].
  injection Hres as ->.
  exists p, results. split; [done|]. split; [done|].
  apply apply_all_grows in Happly. simpl in Happly.
  assert (grows_by ((fun ptx => tx_blockInfo (base ptx))
                      <$> std_sort tie_less (preprocessedTransactions p))
                   (m_subscriptions c)
                   (m_subscriptions
                      (forEachSubscription
                         (sub_advanceHeight
                            (uint32_cast (startHeight + N.of_nat (length blocks) + 2 ^ 32 - 1)))
                         c1))) as Hgrows.
  { intros key. rewrite forEachSubscription_lookup. specialize (Happly key).
    destruct Happly as [sub sub1 (calls & Hr & Hs)|]; constructor.
    exists (calls ++ [AdvanceHeight
                        (uint32_cast (startHeight + N.of_nat (length blocks) + 2 ^ 32 - 1))]).
    simpl. rewrite Hr, <- app_assoc. split; [done|].
    unfold added_blockInfos. rewrite omap_app. simpl. by rewrite app_nil_r. }
  split_and!; [apply std_sort_Permutation| |apply std_sort_block_order|done|].
  - intros Hok. rewrite std_sort_Permutation, <- concat_enumerate_rounds.
    by eapply pool_run_complete.
  - intros key sub' Hkey. specialize (Hgrows key). rewrite Hkey in Hgrows.
    inversion Hgrows as [sub ? (calls & Hr & Hs) Hsub|]; simplify_eq.
    exists sub, calls. split_and!; [done|done|].
    eapply StronglySorted_sublist; [exact Hs|apply std_sort_block_order].
Qed.

(** X20.  Once the workers of a call have finished and one of them returned an
    error code, what follows the worker pool hands [onError] with the error and
    the start height to every subscription, as the one call it makes on it,
    and applies nothing of what the workers of this run accumulated: no
    [add_transaction], no [mark_transaction_confirmed], no [advance_height], and
    the observers are not told of any block.  The error handed over is the
    first one in the order of the workers when no worker's future raised.  When
    the pushing thread has finished as well, the call returns false. *)
Theorem X20_error_join (hardware_concurrency : N)
    (blocks : list CompleteBlock) (startHeight : N) c (p : Pool)
    (results : list WorkerResult) :
  rtc pool_step
      (start_pool hardware_concurrency
                  (enumerate_rounds (m_syncStart c) startHeight 0 blocks)) p ->
  worker_results p = Some results ->
  (∃ ec, WorkerReturned ec ∈ results ∧ is_error ec = true) ->
  (∀ code, WorkerSystemError code ∈ results -> is_error code = true) ->
  ∃ (e : error_code) c',
    join_workers results = e
    ∧ is_error e = true
    ∧ (Forall (fun r => ¬ raised r) results -> first_error results = Some e)
    ∧ onNewBlocks_join blocks startHeight (N.of_nat (length blocks)) results
        (preprocessedTransactions p) c = Some (c', false)
    ∧ (producer p = ProducerFinished ->
       onNewBlocks hardware_concurrency blocks startHeight c (Some (c', false)))
    ∧ (∀ key sub,
         m_subscriptions c !! key = Some sub ->
         ∃ sub', m_subscriptions c' !! key = Some sub'
                 ∧ received sub' = received sub ++ [OnError e startHeight])
    ∧ (∀ key, m_subscriptions c !! key = None -> m_subscriptions c' !! key = None)
    ∧ notified c' = notified c.
Proof.
  intros Hrun Hresults Hec Hsys.
  pose proof (join_workers_error results Hec Hsys) as Herr.
  assert (onNewBlocks_join blocks startHeight (N.of_nat (length blocks)) results
            (preprocessedTransactions p) c
          = Some (forEachSubscription (sub_onError (join_workers results) startHeight) c,
                  false)) as Hjoin.
  { unfold onNewBlocks_join. by rewrite Herr. }
  exists (join_workers results),
         (forEachSubscription (sub_onError (join_workers results) startHeight) c).
  split_and!; [done|done| |done| | | |done].
  - intros Hno. unfold join_workers in *.
    rewrite (join_workers_first_error results Success Hno) in Herr |- *. simpl in *.
    destruct (first_error results); [done|]. done.
  - intros Hfinished. unfold onNewBlocks.
    assert ((N.of_nat (length blocks) =? 0)%N = false) as ->.
    { apply N.eqb_neq. destruct blocks; [|simpl; lia].
      pose proof (pool_run_without_items _ _ _ Hrun Hresults) as Hok.
      destruct Hec as (ec & Hin & Hec). rewrite Forall_forall in Hok.
      apply Hok in Hin. by simplify_eq. }
    rewrite andb_false_r.
    exists p, results. by split_and!.
  - intros key sub Hkey. rewrite forEachSubscription_lookup, Hkey. simpl. eauto.
  - intros key Hkey. by rewrite forEachSubscription_lookup, Hkey.
Qed.

End ApplyProperties.

(** ** The reach of the output scanner *)

Section ScannerReach.
Context `{ext : Externals}.

Lemma uint32_cast_le (x : N) : uint32_cast x <= x.
Proof. unfold uint32_cast. apply N.Div0.mod_le. Qed.

Lemma checkOutputKey_within derivation key keyIndex outputIndex spendKeys bound found :
  outputIndex < bound ->
  found_within spendKeys bound found ->
  found_within spendKeys bound
    (checkOutputKey derivation key keyIndex outputIndex spendKeys found).
Proof.
  intros Hidx Hfound. unfold checkOutputKey. case_decide as Hin; [|done].
  apply map_Forall_insert_2; [|done]. split; [done|].
  apply Forall_app. split.
  - destruct (found !! _) as [l|] eqn:Hl; simpl; [|constructor].
    by destruct (Hfound _ _ Hl).
  - constructor; [|done]. pose proof (uint32_cast_le outputIndex). lia.
Qed.

Lemma scan_multisignature_keys_within derivation ks idx spendKeys bound st :
  idx < bound ->
  found_within spendKeys bound st.2 ->
  found_within spendKeys bound
    (scan_multisignature_keys derivation ks idx spendKeys st).2.
Proof.
  intros Hidx. revert st. induction ks as [|key ks IH]; simpl; intros st Hst; [done|].
  apply IH. simpl. by apply checkOutputKey_within.
Qed.

Lemma scan_outputs_within derivation outs idx spendKeys bound st :
  idx + N.of_nat (length outs) <= bound ->
  found_within spendKeys bound st.2 ->
  found_within spendKeys bound (scan_outputs derivation outs idx spendKeys st).2.
Proof.
  revert idx st. induction outs as [|o outs IH]; simpl; intros idx st Hlen Hst; [done|].
  apply IH; [lia|].
  destruct o as [amount key|amount ks required|]; simpl; [| |done].
  - apply checkOutputKey_within; [lia|done].
  - apply scan_multisignature_keys_within; [lia|done].
Qed.

(** Whatever the scanner records lies within the watched keys and the
    outputs of the transaction. *)
Lemma findMyOutputs_within tx viewSecretKey spendKeys :
  found_within spendKeys (getOutputCount tx) (findMyOutputs tx viewSecretKey spendKeys ∅).
Proof.
  unfold findMyOutputs.
  destruct (generate_key_derivation _ _) as [derivation|]; [|apply map_Forall_empty].
  apply scan_outputs_within; [unfold getOutputCount; lia|apply map_Forall_empty].
Qed.

(** X1.  [findMyOutputs] started on an empty map records watched keys only,
    and every output index it records is below [tx.getOutputCount()]: the
    indices handed to [createTransfers] are always in range. *)
Theorem X1_scanner_within tx viewSecretKey spendKeys :
  map_Forall (fun spendKey indices =>
                spendKey ∈ spendKeys ∧ Forall (fun i => i < getOutputCount tx) indices)
             (findMyOutputs tx viewSecretKey spendKeys ∅).
Proof. apply findMyOutputs_within. Qed.

(** What a run of tests leaves under [spendKey]. *)
Lemma foldl_record_call_elem derivation spendKeys calls found spendKey i :
  i ∈ default [] (foldl (record_call derivation spendKeys) found calls !! spendKey)
  <-> i ∈ default [] (found !! spendKey)
      ∨ (spendKey ∈ spendKeys
         ∧ ∃ c, c ∈ calls ∧ call_output c = i
                ∧ underive_public_key derivation (call_index c) (call_key c) = spendKey).
Proof.
  revert found. induction calls as [|c calls IH]; intros found; simpl.
  - split; [by left|]. intros [?|(_ & c & Hc & _)]; [done|]. by apply elem_of_nil in Hc.
  - rewrite IH. unfold record_call. case_decide as Hin.
    + rewrite lookup_insert. case_decide as Heq.
      * subst spendKey. simpl. rewrite elem_of_app, list_elem_of_singleton. split.
        -- intros [[?| ->]|(HS & c' & Hc' & Ho & Hu)]; [by left| |].
           ++ right. split; [done|]. exists c. split_and!; [left|done|done].
           ++ right. split; [done|]. exists c'. split_and!; [by right|done|done].
        -- intros [?|(HS & c' & Hc' & Ho & Hu)]; [by left; left|].
           apply elem_of_cons in Hc' as [ ->|Hc']; [by left; right|].
           right. split; [done|]. by exists c'.
      * split.
        -- intros [?|(HS & c' & Hc' & Ho & Hu)]; [by left|].
           right. split; [done|]. exists c'. split_and!; [by right|done|done].
        -- intros [?|(HS & c' & Hc' & Ho & Hu)]; [by left|].
           apply elem_of_cons in Hc' as [ ->|Hc']; [done|].
           right. split; [done|]. by exists c'.
    + split.
      * intros [?|(HS & c' & Hc' & Ho & Hu)]; [by left|].
        right. split; [done|]. exists c'. split_and!; [by right|done|done].
      * intros [?|(HS & c' & Hc' & Ho & Hu)]; [by left|].
        apply elem_of_cons in Hc' as [ ->|Hc']; [by rewrite Hu in Hin|].
        right. split; [done|]. by exists c'.
Qed.

(** A test of the scanner at output [i] yields [spendKey] exactly when the
    output matches it. *)
Lemma prescribed_calls_elem derivation outs i spendKey :
  (∃ c, c ∈ prescribed_calls outs ∧ call_output c = i
        ∧ underive_public_key derivation (call_index c) (call_key c) = spendKey)
  <-> output_matches derivation outs i spendKey.
Proof.
  unfold prescribed_calls, output_matches. split.
  - intros (c & Hc & Ho & Hu).
    apply list_elem_of_join in Hc as (cs & Hc & Hcs).
    apply elem_of_lookup_imap in Hcs as (j & o & -> & Hj).
    destruct o as [amount key|amount ks required|]; simpl in Hc.
    + apply list_elem_of_singleton in Hc as ->. simpl in *. subst i.
      by rewrite Nat2N.id, Hj.
    + apply list_elem_of_fmap in Hc as (key & -> & Hkey). simpl in *. subst i.
      rewrite Nat2N.id, Hj. eauto.
    + by apply elem_of_nil in Hc.
  - destruct (outs !! N.to_nat i) as [[amount key|amount ks required|]|] eqn:Hi; [| |done|done].
    + intros Hu.
      exists {| call_index := running_key_index outs (N.to_nat i); call_key := key;
                call_output := i |}. split_and!; [|done|done].
      apply list_elem_of_join. eexists. split; [|by eapply elem_of_lookup_imap_2].
      simpl. rewrite N2Nat.id. by left.
    + intros (key & Hkey & Hu).
      exists {| call_index := i; call_key := key; call_output := i |}. split_and!; [|done|done].
      apply list_elem_of_join. eexists. split; [|by eapply elem_of_lookup_imap_2].
      simpl. rewrite N2Nat.id. apply list_elem_of_fmap. eauto.
Qed.

(** X2.  The scanner is sound and complete: when the transaction has at most
    2^32 outputs, its running key index stays below 2^64 and the key
    derivation succeeds, the output index [i] is recorded under [spendKey] by
    [findMyOutputs] exactly when [spendKey] is watched and the output at [i]
    underives to it, a Key output through its key and the running key index,
    a Multisignature output through one of its keys and the position [i]. *)
Theorem X2_scanner_sound_complete tx viewSecretKey spendKeys derivation spendKey i :
  (N.of_nat (length (txOutputs tx)) <= 2 ^ 32)%N ->
  (running_key_index (txOutputs tx) (length (txOutputs tx)) < 2 ^ 64)%N ->
  generate_key_derivation (getTransactionPublicKey tx) viewSecretKey = Some derivation ->
  i ∈ default [] (findMyOutputs tx viewSecretKey spendKeys ∅ !! spendKey)
  <-> spendKey ∈ spendKeys ∧ output_matches derivation (txOutputs tx) i spendKey.
Proof.
  intros Hlen Hkeys Hd.
  pose proof (scan_outputs_calls derivation spendKeys (txOutputs tx) Hlen Hkeys
                (txOutputs tx) [] ∅ eq_refl) as Hscan.
  change (N.of_nat (length [])) with 0%N in Hscan.
  change (running_key_index [] (length [])) with 0%N in Hscan.
  unfold findMyOutputs. rewrite Hd, Hscan. simpl.
  rewrite foldl_record_call_elem, lookup_empty. simpl.
  rewrite <- prescribed_calls_elem. split.
  - intros [Hnil|?]; [by apply elem_of_nil in Hnil|done].
  - by right.
Qed.

End ScannerReach.

(** ** The order of the scanner's indices *)

Section ScannerOrder.
Context `{ext : Externals}.

Lemma found_ascending_mono b b' found :
  b <= b' -> found_ascending b found -> found_ascending b' found.
Proof.
  intros Hb Hf K l Hl. destruct (Hf K l Hl) as [Hs Hall]. split; [done|].
  eapply Forall_impl; [exact Hall|]. intros i Hi. simpl in *. lia.
Qed.

Lemma checkOutputKey_ascending derivation key keyIndex idx spendKeys found :
  idx < 2 ^ 32 ->
  found_ascending idx found ->
  found_ascending idx (checkOutputKey derivation key keyIndex idx spendKeys found).
Proof.
  intros Hidx Hf. unfold checkOutputKey. case_decide as Hin; [|done].
  apply map_Forall_insert_2; [|done]. rewrite uint32_cast_small by done.
  assert (StronglySorted N.le (default [] (found !! underive_public_key derivation keyIndex key))
          ∧ Forall (fun i => i <= idx) (default [] (found !! underive_public_key derivation keyIndex key)))
    as [Hs Hall].
  { destruct (found !! _) as [l|] eqn:Hl; simpl; [by apply (Hf _ _ Hl)|]. split; constructor. }
  split.
  - apply StronglySorted_app_2; [|done|repeat constructor].
    intros x1 x2 Hx1 Hx2. apply list_elem_of_singleton in Hx2 as ->.
    rewrite Forall_forall in Hall. by apply Hall.
  - apply Forall_app. split; [done|]. constructor; [lia|done].
Qed.

Lemma scan_multisignature_keys_ascending derivation ks idx spendKeys st :
  idx < 2 ^ 32 ->
  found_ascending idx st.2 ->
  found_ascending idx (scan_multisignature_keys derivation ks idx spendKeys st).2.
Proof.
  intros Hidx. revert st. induction ks as [|key ks IH]; simpl; intros st Hst; [done|].
  apply IH. simpl. by apply checkOutputKey_ascending.
Qed.

Lemma scan_outputs_ascending derivation outs idx spendKeys st :
  idx + N.of_nat (length outs) <= 2 ^ 32 ->
  found_ascending idx st.2 ->
  found_ascending (idx + N.of_nat (length outs))
    (scan_outputs derivation outs idx spendKeys st).2.
Proof.
  revert idx st. induction outs as [|o outs IH]; simpl length; intros idx st Hlen Hst.
  - simpl. eapply found_ascending_mono; [|exact Hst]. lia.
  - replace (idx + N.of_nat (S (length outs))) with (idx + 1 + N.of_nat (length outs)) by lia.
    simpl scan_outputs. apply IH; [lia|].
    apply (found_ascending_mono idx); [lia|].
    destruct o as [amount key|amount ks required|]; simpl; [| |done].
    + apply checkOutputKey_ascending; [lia|done].
    + apply scan_multisignature_keys_ascending; [lia|done].
Qed.

Lemma occurrences_app i l k : occurrences i (l ++ k) = (occurrences i l + occurrences i k)%nat.
Proof. unfold occurrences. by rewrite filter_app, length_app. Qed.

Lemma occurrences_below i bound l :
  Forall (fun j => j < bound) l -> bound <= i -> occurrences i l = 0%nat.
Proof.
  intros Hl Hi. unfold occurrences. induction Hl as [|j l Hj _ IH]; [done|].
  rewrite filter_cons_False by lia. done.
Qed.

Lemma occurrences_singleton i j :
  occurrences i [j] = if decide (j = i) then 1%nat else 0%nat.
Proof. unfold occurrences. rewrite filter_cons. by case_decide. Qed.

(** A Key output is recorded once at most. *)
Lemma checkOutputKey_repeats tx viewSecretKey derivation amount key keyIndex idx spendKeys found :
  generate_key_derivation (getTransactionPublicKey tx) viewSecretKey = Some derivation ->
  idx < 2 ^ 32 ->
  getOutput tx idx = Some (OutKey amount key) ->
  found_repeats tx viewSecretKey idx found ->
  found_repeats tx viewSecretKey (idx + 1)
    (checkOutputKey derivation key keyIndex idx spendKeys found).
Proof.
  intros Hd Hidx Hout Hf.
  assert (found_repeats tx viewSecretKey (idx + 1) found) as Hmono.
  { intros K l Hl. destruct (Hf K l Hl) as [Hlt Hocc]. split; [|done].
    eapply Forall_impl; [exact Hlt|]. intros i Hi. simpl in *. lia. }
  unfold checkOutputKey. case_decide as Hin; [|done].
  apply map_Forall_insert_2; [|done]. rewrite uint32_cast_small by done.
  set (K := underive_public_key derivation keyIndex key).
  assert (Forall (fun i => i < idx) (default [] (found !! K))
          ∧ ∀ i, (occurrences i (default [] (found !! K))
                  <= leading_keys tx viewSecretKey i K)%nat) as [Hlt Hocc].
  { destruct (found !! K) as [l|] eqn:Hl; simpl; [by apply (Hf _ _ Hl)|].
    split; [constructor|]. intros i. unfold occurrences. simpl. lia. }
  split.
  - apply Forall_app. split; [|constructor; [lia|done]].
    eapply Forall_impl; [exact Hlt|]. intros i Hi. simpl in *. lia.
  - intros i. rewrite occurrences_app, occurrences_singleton. case_decide as Heq.
    + subst i. rewrite (occurrences_below idx idx) by (done || lia).
      unfold leading_keys. rewrite Hd, Hout. done.
    + specialize (Hocc i). lia.
Qed.

Lemma found_repeats_enter tx viewSecretKey derivation idx found :
  found_repeats tx viewSecretKey idx found ->
  found_repeats_inside tx viewSecretKey derivation idx [] found.
Proof.
  intros Hf K l Hl. destruct (Hf K l Hl) as [Hlt Hocc]. split_and!.
  - eapply Forall_impl; [exact Hlt|]. intros i Hi. simpl in *. lia.
  - intros i _. apply Hocc.
  - rewrite (occurrences_below idx idx) by (done || lia). simpl. lia.
Qed.

Lemma found_repeats_leave tx viewSecretKey derivation idx amount ks required found :
  generate_key_derivation (getTransactionPublicKey tx) viewSecretKey = Some derivation ->
  getOutput tx idx = Some (OutMultisignature amount ks required) ->
  found_repeats_inside tx viewSecretKey derivation idx ks found ->
  found_repeats tx viewSecretKey (idx + 1) found.
Proof.
  intros Hd Hout Hf K l Hl. destruct (Hf K l Hl) as (Hle & Hother & Hidx). split.
  - eapply Forall_impl; [exact Hle|]. intros i Hi. simpl in *. lia.
  - intros i. destruct (decide (i = idx)) as [->|Hne]; [|by apply Hother].
    unfold leading_keys. by rewrite Hd, Hout.
Qed.

(** A key of a Multisignature output is recorded under the spend key it leads
    to. *)
Lemma checkOutputKey_repeats_inside tx viewSecretKey derivation key idx spendKeys done found :
  idx < 2 ^ 32 ->
  found_repeats_inside tx viewSecretKey derivation idx done found ->
  found_repeats_inside tx viewSecretKey derivation idx (done ++ [key])
    (checkOutputKey derivation key idx idx spendKeys found).
Proof.
  intros Hidx Hf.
  assert (found_repeats_inside tx viewSecretKey derivation idx (done ++ [key]) found) as Hmono.
  { intros K l Hl. destruct (Hf K l Hl) as (Hle & Hother & Hocc). split_and!; [done|done|].
    rewrite filter_app, length_app. lia. }
  unfold checkOutputKey. case_decide as Hin; [|done].
  apply map_Forall_insert_2; [|done]. rewrite uint32_cast_small by done.
  set (K := underive_public_key derivation idx key).
  assert (Forall (fun i => i <= idx) (default [] (found !! K))
          ∧ (∀ i, i ≠ idx -> (occurrences i (default [] (found !! K))
                              <= leading_keys tx viewSecretKey i K)%nat)
          ∧ (occurrences idx (default [] (found !! K))
             <= length (filter (fun key' => underive_public_key derivation idx key' = K)
                               done))%nat) as (Hle & Hother & Hocc).
  { destruct (found !! K) as [l|] eqn:Hl; simpl; [by apply (Hf _ _ Hl)|].
    split_and!; [constructor| |]; intros; unfold occurrences; simpl; lia. }
  split_and!.
  - apply Forall_app. split; [done|]. constructor; [lia|done].
  - intros i Hne. rewrite occurrences_app, occurrences_singleton.
    rewrite decide_False by done. specialize (Hother i Hne). lia.
  - rewrite occurrences_app, occurrences_singleton, decide_True by done.
    rewrite filter_app, length_app, filter_cons_True by done. simpl. lia.
Qed.

Lemma scan_multisignature_keys_repeats tx viewSecretKey derivation ks idx spendKeys done st :
  idx < 2 ^ 32 ->
  found_repeats_inside tx viewSecretKey derivation idx done st.2 ->
  found_repeats_inside tx viewSecretKey derivation idx (done ++ ks)
    (scan_multisignature_keys derivation ks idx spendKeys st).2.
Proof.
  intros Hidx. revert done st. induction ks as [|key ks IH]; simpl; intros done st Hst.
  - by rewrite app_nil_r.
  - rewrite cons_middle, app_assoc. apply IH. simpl.
    by apply checkOutputKey_repeats_inside.
Qed.

Lemma scan_outputs_repeats tx viewSecretKey derivation before outs spendKeys st :
  generate_key_derivation (getTransactionPublicKey tx) viewSecretKey = Some derivation ->
  txOutputs tx = before ++ outs ->
  N.of_nat (length (txOutputs tx)) <= 2 ^ 32 ->
  found_repeats tx viewSecretKey (N.of_nat (length before)) st.2 ->
  found_repeats tx viewSecretKey (N.of_nat (length (txOutputs tx)))
    (scan_outputs derivation outs (N.of_nat (length before)) spendKeys st).2.
Proof.
  intros Hd. revert before st.
  induction outs as [|o outs IH]; simpl; intros before st Hall Hlen Hst.
  - by rewrite Hall, app_nil_r.
  - replace (N.of_nat (length before) + 1) with (N.of_nat (length (before ++ [o])))
      by (rewrite length_app; simpl; lia).
    assert (N.of_nat (length before) < 2 ^ 32) as Hidx.
    { rewrite Hall, length_app in Hlen. simpl in Hlen. lia. }
    assert (getOutput tx (N.of_nat (length before)) = Some o) as Hget.
    { unfold getOutput. rewrite Hall, Nat2N.id. by apply list_lookup_middle. }
    apply IH; [by rewrite <- app_assoc|done|].
    replace (N.of_nat (length (before ++ [o]))) with (N.of_nat (length before) + 1)
      by (rewrite length_app; simpl; lia).
    destruct o as [amount key|amount ks required|]; simpl.
    + by eapply checkOutputKey_repeats.
    + eapply found_repeats_leave; [done|done|].
      apply (scan_multisignature_keys_repeats _ _ _ ks _ _ []); [done|].
      by apply found_repeats_enter.
    + intros K l Hl. destruct (Hst K l Hl) as [Hlt Hocc]. split; [|done].
      eapply Forall_impl; [exact Hlt|]. intros i Hi. simpl in *. lia.
Qed.

(** The scanner records no output more often than its keys allow. *)
Lemma findMyOutputs_repeats tx viewSecretKey spendKeys :
  N.of_nat (length (txOutputs tx)) <= 2 ^ 32 ->
  found_repeats tx viewSecretKey (getOutputCount tx)
    (findMyOutputs tx viewSecretKey spendKeys ∅).
Proof.
  intros Hlen. unfold findMyOutputs.
  destruct (generate_key_derivation _ _) as [derivation|] eqn:Hd; [|apply map_Forall_empty].
  apply (scan_outputs_repeats tx viewSecretKey derivation []); [done|done|done|].
  apply map_Forall_empty.
Qed.

(** X3.  For a transaction of at most 2^32 outputs every list of output
    indices [findMyOutputs] records is in ascending order, and an index stands
    in the list of a spend key once at most when its output is a Key output,
    and no more often than keys of its output lead to the spend key when it is
    a Multisignature output: an index is repeated only when several keys of
    one Multisignature output lead to the same spend key. *)
Theorem X3_scanner_ascending tx viewSecretKey spendKeys :
  N.of_nat (length (txOutputs tx)) <= 2 ^ 32 ->
  map_Forall (fun spendKey indices =>
                StronglySorted N.le indices
                ∧ ∀ i, (occurrences i indices
                        <= leading_keys tx viewSecretKey i spendKey)%nat)
             (findMyOutputs tx viewSecretKey spendKeys ∅).
Proof.
  intros Hlen K l Hl. split.
  - revert K l Hl. unfold findMyOutputs.
    destruct (generate_key_derivation _ _) as [derivation|]; [|apply map_Forall_empty].
    pose proof (scan_outputs_ascending derivation (txOutputs tx) 0 spendKeys (0, ∅)) as Hscan.
    intros K l Hl. apply (Hscan Hlen (map_Forall_empty _) K l Hl).
  - by apply (findMyOutputs_repeats tx viewSecretKey spendKeys Hlen K l Hl).
Qed.

End ScannerOrder.

(** ** Completion of the transfer builder *)

Section BuilderCompletion.
Context `{ext : Externals}.
Implicit Types (st : BuildState) (seen : Seen) (tx : ITransactionReader).

Lemma check_seen_Next_fresh seen txHash dup twice key st st' :
  check_seen seen txHash dup twice key st = Next st' ->
  txHash ∉ transactions_hash_seen seen ->
  (key ∉ public_keys_seen seen) ∧ (key ∉ temp_keys st).
Proof. unfold check_seen. intros Hc Hn. by repeat case_decide. Qed.

Lemma check_seen_all_Next_fresh seen txHash ks st st' :
  check_seen_all seen txHash ks st = Next st' ->
  txHash ∉ transactions_hash_seen seen ->
  NoDup (temp_keys st) ->
  NoDup (temp_keys st ++ ks) ∧ Forall (fun key => key ∉ public_keys_seen seen) ks.
Proof.
  revert st. induction ks as [|key ks IH]; simpl; intros st Hc Hn Hnd.
  - by rewrite app_nil_r.
  - destruct (check_seen _ _ _ _ key st) as [st1|] eqn:Hk; [|done].
    destruct (check_seen_Next_fresh _ _ _ _ _ _ _ Hk Hn) as [Hs Ht].
    apply check_seen_Next in Hk as (_ & _ & Hk). rewrite decide_False in Hk by done.
    destruct (IH st1 Hc Hn) as [Hnd' Hall].
    { rewrite Hk. apply NoDup_app. split_and!; [done| |apply NoDup_singleton].
      intros x Hx Hx'. apply list_elem_of_singleton in Hx' as ->. done. }
    rewrite Hk, <- app_assoc in Hnd'. split; [done|]. by constructor.
Qed.

Lemma createTransfers_body_Next_fresh account blockInfo tx globalIdxs seen idx st st' :
  createTransfers_body account blockInfo tx globalIdxs seen idx st = Next st' ->
  getTransactionHash tx ∉ transactions_hash_seen seen ->
  NoDup (temp_keys st) ->
  NoDup (temp_keys st ++ from_option output_keys [] (getOutput tx idx))
  ∧ Forall (fun key => key ∉ public_keys_seen seen)
           (from_option output_keys [] (getOutput tx idx)).
Proof.
  unfold createTransfers_body, assert_then.
  intros Hb Hn Hnd. case_decide; [done|].
  destruct (getOutput tx idx) as [[amount key|amount ks required|]|] eqn:Ho;
    simpl in *; [| | |done].
  - destruct (global_output_index _ _ _) as [g|]; [|done].
    destruct (generate_key_image_helper _ _ _) as [ephemeral image].
    destruct (NDEBUG || _); [|done].
    destruct (check_seen _ _ _ _ key st) as [st1|] eqn:Hk; [|done].
    destruct (check_seen_Next_fresh _ _ _ _ _ _ _ Hk Hn) as [Hs Ht].
    split; [|by constructor].
    apply NoDup_app. split_and!; [done| |apply NoDup_singleton].
    intros x Hx Hx'. apply list_elem_of_singleton in Hx' as ->. done.
  - destruct (global_output_index _ _ _) as [g|]; [|done].
    destruct (check_seen_all _ _ ks st) as [st1|] eqn:Hk; [|done].
    by eapply check_seen_all_Next_fresh.
  - by rewrite app_nil_r.
Qed.

Lemma createTransfers_loop_Next_fresh account blockInfo tx globalIdxs seen owned st st' :
  createTransfers_loop account blockInfo tx globalIdxs seen owned st = Next st' ->
  getTransactionHash tx ∉ transactions_hash_seen seen ->
  NoDup (temp_keys st) ->
  NoDup (temp_keys st ++ owned_output_keys tx owned)
  ∧ Forall (fun key => key ∉ public_keys_seen seen) (owned_output_keys tx owned).
Proof.
  revert st. induction owned as [|idx owned IH]; simpl; intros st Hl Hn Hnd.
  - by rewrite app_nil_r.
  - destruct (createTransfers_body _ _ _ _ _ idx st) as [st1|] eqn:Hb; [|done].
    destruct (createTransfers_body_Next_fresh _ _ _ _ _ _ _ _ Hb Hn Hnd) as [Hnd1 Hall1].
    apply createTransfers_body_Next in Hb as (_ & Hk & _).
    rewrite decide_False in Hk by done.
    destruct (IH st1 Hl Hn) as [Hnd2 Hall2]; [by rewrite Hk|].
    unfold owned_output_keys in *. simpl.
    rewrite Hk, <- app_assoc in Hnd2. split; [done|]. by apply Forall_app.
Qed.

(** X4.  When [createTransfers] runs on a transaction whose hash is not in
    the registry and returns success without logging anything, the output keys
    of the owned outputs are pairwise different and none of them was in
    [public_keys_seen] before the call. *)
Theorem X4_completion_means_fresh_keys account blockInfo tx owned globalIdxs transfers0 seen :
  getTransactionHash tx ∉ transactions_hash_seen seen ->
  let r := createTransfers account blockInfo tx owned globalIdxs transfers0 seen in
  outcome r = Returned Success -> log_out r = [] ->
  fresh_keys seen (owned_output_keys tx owned).
Proof.
  intros Hn. unfold createTransfers.
  destruct (createTransfers_loop _ _ _ _ _ _ _) as [st|o st] eqn:Hl; simpl.
  - intros _ _. apply (createTransfers_loop_Next_fresh _ _ _ _ _ _ _ _ Hl Hn). constructor.
  - intros -> Hlog. apply createTransfers_loop_Leave in Hl as (_ & Hs & _).
    destruct (Hs eq_refl) as (_ & line & Hline). simpl in Hline. by rewrite Hlog in Hline.
Qed.

Lemma check_seen_passes seen txHash dup twice key st :
  txHash ∈ transactions_hash_seen seen
  ∨ ((key ∉ public_keys_seen seen) ∧ (key ∉ temp_keys st)) ->
  ∃ st', check_seen seen txHash dup twice key st = Next st'.
Proof.
  unfold check_seen. intros [Hin|[Hs Ht]]; [rewrite decide_True by done; eauto|].
  case_decide; [eauto|]. rewrite !decide_False by done. eauto.
Qed.

Lemma check_seen_all_passes seen txHash ks st :
  txHash ∈ transactions_hash_seen seen
  ∨ (NoDup (temp_keys st ++ ks) ∧ Forall (fun key => key ∉ public_keys_seen seen) ks) ->
  ∃ st', check_seen_all seen txHash ks st = Next st'.
Proof.
  revert st. induction ks as [|key ks IH]; simpl; intros st Hok; [eauto|].
  unfold check_seen. destruct Hok as [Hin|[Hnd Hall]].
  - rewrite decide_True by done. apply IH. by left.
  - apply Forall_cons in Hall as [Hkey Hall].
    apply NoDup_app in Hnd as (Hnd1 & Hdisj & Hnd2).
    case_decide; [by apply IH; left|].
    rewrite decide_False by done.
    rewrite decide_False by (intros Hin; apply (Hdisj _ Hin); by left).
    apply IH. right. split; [|done]. simpl. rewrite <- app_assoc. simpl.
    apply NoDup_app. split_and!; [done|exact Hdisj|done].
Qed.

Lemma createTransfers_loop_completes account blockInfo tx globalIdxs seen owned st :
  Forall (builder_input_ok account blockInfo tx globalIdxs) owned ->
  getTransactionHash tx ∈ transactions_hash_seen seen
  ∨ (NoDup (temp_keys st ++ owned_output_keys tx owned)
     ∧ Forall (fun key => key ∉ public_keys_seen seen) (owned_output_keys tx owned)) ->
  ∃ st', createTransfers_loop account blockInfo tx globalIdxs seen owned st = Next st'.
Proof.
  intros Hin. revert st. induction Hin as [|idx owned (Hidx & Hg & Ha) _ IH]; simpl; intros st Hok;
    [eauto|].
  assert (∃ st1, createTransfers_body account blockInfo tx globalIdxs seen idx st = Next st1)
    as [st1 Hb].
  { unfold createTransfers_body, assert_then.
    rewrite decide_False by lia.
    destruct (getOutput tx idx) as [[amount key|amount ks required|]|] eqn:Ho; simpl.
    - assert (∃ g, global_output_index blockInfo globalIdxs idx = Some g) as [g ->].
      { unfold global_output_index. case_decide; [eauto|].
        destruct Hg as [?|Hg]; [done|]. by apply lookup_lt_is_Some_2. }
      destruct (generate_key_image_helper _ _ _) as [ephemeral image] eqn:He.
      assert (NDEBUG || (key =? ephemeral) = true) as ->.
      { destruct Ha as [->|Ha]; [done|]. specialize (Ha _ _ eq_refl).
        simpl in Ha. subst. by rewrite N.eqb_refl, orb_true_r. }
      destruct (check_seen_passes seen (getTransactionHash tx)
                  (DuplicateOutputKey (getTransactionHash tx))
                  (SameOutputKeyTwice (getTransactionHash tx)) key st) as [st1 ->]; [|eauto].
      destruct Hok as [?|[Hnd Hall]]; [by left|right].
      unfold owned_output_keys in *. simpl in *.
      apply Forall_cons in Hall as [? _]. split; [done|].
      apply NoDup_app in Hnd as (_ & Hd & _). intros Hin. apply (Hd _ Hin). by left.
    - assert (∃ g, global_output_index blockInfo globalIdxs idx = Some g) as [g ->].
      { unfold global_output_index. case_decide; [eauto|].
        destruct Hg as [?|Hg]; [done|]. by apply lookup_lt_is_Some_2. }
      destruct (check_seen_all_passes seen (getTransactionHash tx) ks st) as [st1 ->]; [|eauto].
      destruct Hok as [?|[Hnd Hall]]; [by left|right].
      unfold owned_output_keys in *. simpl in *.
      apply Forall_app in Hall as [? _]. split; [|done].
      rewrite app_assoc in Hnd. by apply NoDup_app in Hnd as (? & _ & _).
    - eauto.
    - unfold getOutput, getOutputCount in *. apply lookup_ge_None in Ho. lia. }
  rewrite Hb. apply IH.
  destruct Hok as [?|[Hnd Hall]]; [by left|right].
  apply createTransfers_body_Next in Hb as (_ & Hk & _).
  case_decide; [|]. { rewrite app_nil_r in Hk. rewrite Hk.
    unfold owned_output_keys in *. simpl in *. apply Forall_app in Hall as [_ ?].
    split; [|done]. rewrite app_assoc in Hnd.
    apply NoDup_app in Hnd as (Hnd1 & Hd & Hnd2). apply NoDup_app in Hnd1 as (? & _ & _).
    apply NoDup_app. split_and!; [done| |done].
    intros x Hx. apply Hd. apply elem_of_app. by left. }
  unfold owned_output_keys in *. simpl in *. apply Forall_app in Hall as [_ ?].
  rewrite Hk, <- app_assoc. done.
Qed.

(** X5.  When every owned index is in range, comes with a global index if
    the transaction is confirmed, and passes the ephemeral-key [assert], and
    the transaction hash is in the registry or the owned output keys are
    pairwise different and not in [public_keys_seen], then [createTransfers]
    returns success, logs nothing, and appends one transfer for each owned Key
    or Multisignature output, in the order of the owned indices. *)
Theorem X5_builder_success account blockInfo tx owned globalIdxs transfers0 seen :
  Forall (builder_input_ok account blockInfo tx globalIdxs) owned ->
  getTransactionHash tx ∈ transactions_hash_seen seen
  ∨ fresh_keys seen (owned_output_keys tx owned) ->
  let r := createTransfers account blockInfo tx owned globalIdxs transfers0 seen in
  outcome r = Returned Success
  ∧ log_out r = []
  ∧ ∃ emitted,
      transfers_out r = transfers0 ++ emitted
      ∧ outputInTransaction <$> emitted = filter (fun idx => addressable tx idx = true) owned.
Proof.
  intros Hin Hok.
  destruct (createTransfers_loop_completes account blockInfo tx globalIdxs seen owned
              {| temp_keys := []; transfers := transfers0; logged := [] |} Hin)
    as [st Hl]; [by destruct Hok as [?|[? ?]]; [left|right]|].
  unfold createTransfers. rewrite Hl. simpl.
  apply createTransfers_loop_Next in Hl as (Hlog & _ & em & Ht & _ & Hi).
  split_and!; [done|done|eauto].
Qed.

End BuilderCompletion.

(** ** Replaying the transfer builder *)

Section BuilderReplay.
Context `{ext : Externals}.
Implicit Types (st : BuildState) (seen : Seen) (tx : ITransactionReader).

Lemma check_seen_skipped seen txHash dup twice key st :
  txHash ∈ transactions_hash_seen seen ->
  check_seen seen txHash dup twice key st = Next st.
Proof. intros Hin. unfold check_seen. by rewrite decide_True. Qed.

Lemma check_seen_all_skipped seen txHash ks st :
  txHash ∈ transactions_hash_seen seen ->
  check_seen_all seen txHash ks st = Next st.
Proof.
  intros Hin. induction ks as [|key ks IH]; simpl; [done|].
  by rewrite check_seen_skipped.
Qed.

Lemma createTransfers_body_replay account blockInfo tx globalIdxs seen seen' idx st st1 st' :
  createTransfers_body account blockInfo tx globalIdxs seen idx st = Next st1 ->
  getTransactionHash tx ∈ transactions_hash_seen seen' ->
  transfers st' = transfers st ->
  ∃ st1', createTransfers_body account blockInfo tx globalIdxs seen' idx st' = Next st1'
          ∧ transfers st1' = transfers st1
          ∧ temp_keys st1' = temp_keys st' ∧ logged st1' = logged st'.
Proof.
  unfold createTransfers_body, assert_then. intros Hb Hin Ht.
  case_decide; [done|].
  destruct (getOutput tx idx) as [[amount key|amount ks required|]|]; simpl in *; [| | |done].
  - destruct (global_output_index _ _ _) as [g|]; [|done].
    destruct (generate_key_image_helper _ _ _) as [ephemeral image].
    destruct (NDEBUG || _); [|done].
    rewrite check_seen_skipped by done.
    destruct (check_seen _ _ _ _ key st) as [st2|] eqn:Hk; [|done].
    apply check_seen_Next in Hk as (Ht2 & _ & _). simplify_eq. simpl.
    eexists. split_and!; [done| |done|done]. simpl. by rewrite Ht, Ht2.
  - destruct (global_output_index _ _ _) as [g|]; [|done].
    rewrite check_seen_all_skipped by done.
    destruct (check_seen_all _ _ ks st) as [st2|] eqn:Hk; [|done].
    apply check_seen_all_Next in Hk as (Ht2 & _ & _). simplify_eq. simpl.
    eexists. split_and!; [done| |done|done]. simpl. by rewrite Ht, Ht2.
  - simplify_eq. eauto.
Qed.

Lemma createTransfers_loop_replay account blockInfo tx globalIdxs seen seen' owned st st1 st' :
  createTransfers_loop account blockInfo tx globalIdxs seen owned st = Next st1 ->
  getTransactionHash tx ∈ transactions_hash_seen seen' ->
  transfers st' = transfers st ->
  ∃ st1', createTransfers_loop account blockInfo tx globalIdxs seen' owned st' = Next st1'
          ∧ transfers st1' = transfers st1
          ∧ temp_keys st1' = temp_keys st' ∧ logged st1' = logged st'.
Proof.
  revert st st'. induction owned as [|idx owned IH]; simpl; intros st st' Hl Hin Ht.
  - simplify_eq. eauto.
  - destruct (createTransfers_body _ _ _ _ seen idx st) as [st2|] eqn:Hb; [|done].
    destruct (createTransfers_body_replay _ _ _ _ _ _ _ _ _ st' Hb Hin Ht)
      as (st2' & -> & Ht2 & Hk2 & Hl2).
    destruct (IH _ st2' Hl Hin Ht2) as (st1' & -> & ? & ? & ?).
    eexists. split_and!; [done|done|congruence|congruence].
Qed.

(** X6.  [createTransfers] can be replayed: after a call that returned
    success without logging anything, the same call on the registry the first
    one left returns success again, logs nothing, builds the same transfers
    and leaves the registry as it is. *)
Theorem X6_builder_replay account blockInfo tx owned globalIdxs transfers0 seen :
  let first := createTransfers account blockInfo tx owned globalIdxs transfers0 seen in
  outcome first = Returned Success -> log_out first = [] ->
  let again := createTransfers account blockInfo tx owned globalIdxs transfers0
                 (seen_out first) in
  outcome again = Returned Success
  ∧ log_out again = []
  ∧ transfers_out again = transfers_out first
  ∧ seen_out again = seen_out first.
Proof.
  cbv zeta.
  remember (createTransfers account blockInfo tx owned globalIdxs transfers0 seen)
    as first eqn:Hfirst.
  unfold createTransfers in Hfirst.
  destruct (createTransfers_loop _ _ _ _ seen _ _) as [st|o st] eqn:Hl; subst first; simpl.
  - intros _ _.
    set (seen' := merge_seen (getTransactionHash tx) (temp_keys st) seen).
    assert (getTransactionHash tx ∈ transactions_hash_seen seen') as Hin.
    { simpl. apply elem_of_union. right. by apply elem_of_singleton. }
    destruct (createTransfers_loop_replay _ _ _ _ _ seen' _ _ _
                {| temp_keys := []; transfers := transfers0; logged := [] |} Hl Hin eq_refl)
      as (st' & Hl' & Ht & Hk & Hlog).
    unfold createTransfers. rewrite Hl'. simpl in *. rewrite Hk.
    split_and!; [done|done|done|].
    unfold seen', merge_seen. simpl. f_equal.
    + rewrite (comm_L (∪)). apply subseteq_union_1_L. by apply singleton_subseteq_l.
    + apply (right_id_L ∅ (∪)).
  - intros -> Hlog. apply createTransfers_loop_Leave in Hl as (_ & Hs & _).
    destruct (Hs eq_refl) as (_ & line & Hline). simpl in *. by rewrite Hlog in Hline.
Qed.

End BuilderReplay.

(** ** Properties of the facade *)

Section Facade.
Context {Container : Type}.
Implicit Types (c : TransfersConsumer Container).

Lemma new_TransfersConsumer_filed viewSecret :
  filed_under_own_key (new_TransfersConsumer (Container := Container) viewSecret).
Proof. split; simpl; [by rewrite dom_empty_L|apply map_Forall_empty]. Qed.

Lemma facade_step_filed c call :
  filed_under_own_key c -> filed_under_own_key (facade_step c call).
Proof.
  intros [Hdom Hsubs]. destruct call as [fresh subscription|address]; simpl.
  - unfold addSubscription. case_decide as Hview; [done|].
    destruct (m_subscriptions c !! _) as [res|] eqn:Hkey; [done|]. simpl.
    split; simpl.
    + rewrite dom_insert_L, Hdom. apply (comm_L (∪)).
    + apply map_Forall_insert; [done|]. split; [|done]. by split.
  - split; simpl.
    + by rewrite dom_delete_L, Hdom.
    + by apply map_Forall_delete.
Qed.

Lemma facade_step_viewSecret c call : m_viewSecret (facade_step c call) = m_viewSecret c.
Proof.
  destruct call as [fresh subscription|address]; simpl; [|done].
  unfold addSubscription. case_decide; [done|].
  by destruct (m_subscriptions c !! _).
Qed.

(** The calls of the owner keep the view secret key and the filing of the
    subscriptions. *)
Lemma facade_run_filed (viewSecret : SecretKey)
    (calls : list (FacadeCall (Container := Container))) :
  m_viewSecret (facade_run calls (new_TransfersConsumer viewSecret)) = viewSecret
  ∧ filed_under_own_key (facade_run calls (new_TransfersConsumer viewSecret)).
Proof.
  unfold facade_run.
  induction calls as [|call calls IH] using rev_ind; simpl.
  - split; [done|apply new_TransfersConsumer_filed].
  - rewrite foldl_app. simpl. destruct IH as [IH1 IH2].
    split; [by rewrite facade_step_viewSecret|by apply facade_step_filed].
Qed.

(** X7.  Whatever sequence of [addSubscription] and [removeSubscription]
    calls a consumer has served since its construction, its view secret key is
    the one it was constructed with, [m_spendKeys] is exactly the set of keys
    of [m_subscriptions], and every subscription is stored under the spend key
    of its own account and has the consumer's view secret key. *)
Theorem X7_facade_invariant (viewSecret : SecretKey)
    (calls : list (FacadeCall (Container := Container))) :
  m_viewSecret (facade_run calls (new_TransfersConsumer viewSecret)) = viewSecret
  ∧ filed_under_own_key (facade_run calls (new_TransfersConsumer viewSecret)).
Proof. apply facade_run_filed. Qed.

(** X8.  [getSubscription] after [addSubscription] gives the subscription the
    call returned; when the spend key was subscribed already that is the
    stored subscription and the consumer is left as it was; accounts with
    another spend key are looked up as before.  After [removeSubscription]
    the account is not found, and the others are looked up as before. *)
Theorem X8_subscription_lookup c (fresh : Container) (subscription : AccountSubscription)
    (other : AccountPublicAddress) :
  (∀ c' res,
     addSubscription fresh subscription c = Some (c', res) ->
     getSubscription (address (keys subscription)) c' = Some res
     ∧ (∀ old, getSubscription (address (keys subscription)) c = Some old ->
               res = old ∧ c' = c)
     ∧ (spendPublicKey other ≠ spendPublicKey (address (keys subscription)) ->
        getSubscription other c' = getSubscription other c))
  ∧ (let c' := (removeSubscription other c).1 in
     getSubscription other c' = None
     ∧ ∀ acc, spendPublicKey acc ≠ spendPublicKey other ->
              getSubscription acc c' = getSubscription acc c).
Proof.
  unfold getSubscription. split.
  - intros c' res. unfold addSubscription. case_decide; [done|].
    destruct (m_subscriptions c !! _) as [old|] eqn:Hkey.
    + intros [= <- <-]. split_and!; [done| |done]. by intros ? [= <-].
    + intros [= <- <-]. simpl. split_and!; [apply lookup_insert_eq|done|].
      intros Hne. by rewrite lookup_insert_ne.
  - simpl. split; [apply lookup_delete_eq|].
    intros acc Hne. by rewrite lookup_delete_ne.
Qed.

(** X9.  Adding a subscription and removing it again is a round trip: on a
    consumer reached by calls with 64-bit starts that does not hold the
    account, [addSubscription] followed by [removeSubscription] of the same
    address gives back the consumer as it was, sync start included; this also
    holds when the view secret key does not match and the addition throws. *)
Theorem X9_add_remove_round_trip (viewSecret : SecretKey)
    (calls : list (FacadeCall (Container := Container)))
    (fresh : Container) (subscription : AccountSubscription) :
  Forall call_in_range calls ->
  getSubscription (address (keys subscription))
                  (facade_run calls (new_TransfersConsumer viewSecret)) = None ->
  facade_run [CallAddSubscription fresh subscription;
              CallRemoveSubscription (address (keys subscription))]
             (facade_run calls (new_TransfersConsumer viewSecret))
  = facade_run calls (new_TransfersConsumer viewSecret).
Proof.
  intros Hcalls.
  set (c := facade_run calls (new_TransfersConsumer viewSecret)). intros Hnone.
  destruct (facade_run_filed viewSecret calls) as [Hview [Hdom _]].
  destruct (facade_run_recomputed calls _ Hcalls
              (new_TransfersConsumer_recomputed viewSecret)) as [Hstart _].
  fold c in Hview, Hdom, Hstart. unfold getSubscription in Hnone.
  simpl. unfold addSubscription. case_decide.
  - simpl. unfold updateSyncStart, with_syncStart. simpl.
    rewrite delete_id by done. rewrite <- Hstart.
    destruct c as [v subs keys start ns]. simpl in *. f_equal.
    apply difference_disjoint_L, disjoint_singleton_r.
    rewrite Hdom. by apply not_elem_of_dom.
  - rewrite Hnone. simpl. unfold updateSyncStart, with_syncStart. simpl.
    rewrite delete_insert_eq, delete_id by done. rewrite <- Hstart.
    destruct c as [v subs keys start ns]. simpl in *. f_equal.
    rewrite difference_union_distr_l_L, difference_diag_L, (right_id_L ∅ (∪)).
    apply difference_disjoint_L, disjoint_singleton_r.
    rewrite Hdom. by apply not_elem_of_dom.
Qed.

(** X10.  [getSubscriptions] on an empty vector lists every subscribed
    account once: the spend keys of the addresses listed are pairwise
    different, they are exactly the keys of [m_spendKeys], and there are as
    many addresses as subscriptions. *)
Theorem X10_getSubscriptions (viewSecret : SecretKey)
    (calls : list (FacadeCall (Container := Container))) :
  NoDup (spendPublicKey
           <$> getSubscriptions [] (facade_run calls (new_TransfersConsumer viewSecret)))
  ∧ list_to_set
      (spendPublicKey
         <$> getSubscriptions [] (facade_run calls (new_TransfersConsumer viewSecret)))
    = m_spendKeys (facade_run calls (new_TransfersConsumer viewSecret))
  ∧ length (getSubscriptions [] (facade_run calls (new_TransfersConsumer viewSecret)))
    = size (m_subscriptions (facade_run calls (new_TransfersConsumer viewSecret))).
Proof.
  set (c := facade_run calls (new_TransfersConsumer viewSecret)).
  set (listed := getSubscriptions [] c).
  destruct (facade_run_filed viewSecret calls) as [_ [Hdom Hsubs]].
  fold c in Hdom, Hsubs.
  assert (spendPublicKey <$> listed = (map_to_list (m_subscriptions c)).*1) as ->.
  { unfold listed, getSubscriptions. simpl. rewrite <- list_fmap_compose.
    apply Forall_fmap_ext. apply Forall_forall.
    intros [key sub] Hin. apply elem_of_map_to_list in Hin. simpl.
    by destruct (Hsubs _ _ Hin). }
  split_and!.
  - apply NoDup_fst_map_to_list.
  - rewrite Hdom. apply set_eq. intros key.
    rewrite elem_of_list_to_set, elem_of_dom, list_elem_of_fmap. split.
    + intros ([k sub] & -> & Hin). apply elem_of_map_to_list in Hin. eauto.
    + intros [sub Hsub]. exists (key, sub). split; [done|]. by apply elem_of_map_to_list.
  - unfold listed, getSubscriptions. simpl. by rewrite length_fmap, length_map_to_list.
Qed.

End Facade.

(** ** Properties of preprocessing *)

Section Preprocessing.
Context `{ext : Externals} `{node : INode} {Container : Type} `{ops : SubscriptionOps Container}.
Implicit Types (c : TransfersConsumer Container).
#[local] Existing Instance seen_le_preorder.

(** Three steps on the keys [info.outputs] may hold. *)
Lemma subseteq_watched_step (key : PublicKey) (D L S : gset PublicKey) :
  key ∈ S -> {[ key ]} ∪ D ∪ (L ∩ S) ⊆ D ∪ (({[ key ]} ∪ L) ∩ S).
Proof.
  intros Hkey x.
  rewrite !elem_of_union, !elem_of_intersection, !elem_of_union, elem_of_singleton.
  intros [[ ->|?]|[? ?]]; auto.
Qed.

Lemma subseteq_watched_stop (key : PublicKey) (D L S : gset PublicKey) :
  key ∈ S -> {[ key ]} ∪ D ⊆ D ∪ (({[ key ]} ∪ L) ∩ S).
Proof.
  intros Hkey. etrans; [|by apply subseteq_watched_step]. apply union_subseteq_l.
Qed.

Lemma subseteq_watched_keys (D D' L K S : gset PublicKey) :
  L ⊆ K -> D' ⊆ D ∪ (L ∩ S) -> D' ⊆ D ∪ (K ∩ S).
Proof.
  intros HL HD x Hx. apply HD in Hx.
  revert Hx. rewrite !elem_of_union, !elem_of_intersection.
  intros [?|[? ?]]; auto.
Qed.

(** The ways one round of the builder's loop ends the call. *)
Lemma createTransfers_body_Leave_cases account blockInfo tx globalIdxs seen idx st o st' :
  createTransfers_body account blockInfo tx globalIdxs seen idx st = Leave o st' ->
  (o = Returned ArgumentOutOfDomain ∧ getOutputCount tx <= idx)
  ∨ o = Returned Success
  ∨ (o = AssertionFailed ∧ NDEBUG = false)
  ∨ (o = OutOfBounds ∧ height blockInfo ≠ WALLET_UNCONFIRMED_TRANSACTION_HEIGHT).
Proof.
  unfold createTransfers_body, assert_then. intros Hb.
  case_decide as Hge; [simplify_eq; by left|].
  destruct (getOutput tx idx) as [[amount key|amount ks required|]|] eqn:Ho; simpl in *.
  - destruct (global_output_index _ _ _) as [g|] eqn:Hg.
    + destruct (generate_key_image_helper _ _ _) as [ephemeral image].
      destruct NDEBUG eqn:Hnd; simpl in Hb;
        [|destruct (key =? ephemeral); [|simplify_eq; by right; right; left]].
      all: try (destruct (check_seen _ _ _ _ key st) as [|o1 st1] eqn:Hk; [done|];
                apply check_seen_Leave in Hk as (-> & _); simplify_eq; by right; left).
    + simplify_eq. right; right; right. split; [done|].
      unfold global_output_index in Hg. by case_decide.
  - destruct (global_output_index _ _ _) as [g|] eqn:Hg.
    + destruct (check_seen_all _ _ ks st) as [|o1 st1] eqn:Hk; [done|].
      apply check_seen_all_Leave in Hk as (-> & _). simplify_eq. by right; left.
    + simplify_eq. right; right; right. split; [done|].
      unfold global_output_index in Hg. by case_decide.
  - done.
  - unfold getOutput, getOutputCount in *. apply lookup_ge_None in Ho. lia.
Qed.

(** On indices below the output count the builder returns no error code. *)
Lemma createTransfers_in_range account blockInfo tx owned globalIdxs transfers0 seen :
  Forall (fun idx => idx < getOutputCount tx) owned ->
  let r := createTransfers account blockInfo tx owned globalIdxs transfers0 seen in
  no_error_code (outcome r)
  ∧ (outcome r = OutOfBounds ->
     height blockInfo ≠ WALLET_UNCONFIRMED_TRANSACTION_HEIGHT)
  ∧ (outcome r = AssertionFailed -> NDEBUG = false).
Proof.
  intros Hin. unfold createTransfers.
  destruct (createTransfers_loop _ _ _ _ _ _ _) as [st|o st] eqn:Hl; simpl; [done|].
  revert Hl. generalize {| temp_keys := []; transfers := transfers0; logged := [] |}.
  induction Hin as [|idx owned Hidx _ IH]; simpl; intros st0 Hl; [done|].
  destruct (createTransfers_body _ _ _ _ _ idx st0) as [st1|o1 st1] eqn:Hb; [by eapply IH|].
  simplify_eq.
  apply createTransfers_body_Leave_cases in Hb as [[-> Hge]|[->|[[-> Hnd]|[-> Hh]]]];
    [lia|done|done|done].
Qed.

Lemma preprocessOutputs_rounds_Leave c blockInfo tx o s l :
  foldl (preprocessOutputs_round c blockInfo tx) (Leave o s) l = Leave o s.
Proof. induction l; simpl; done. Qed.

(** What the rounds of [preprocessOutputs] keep. *)
Lemma preprocessOutputs_rounds c blockInfo tx (l : list (PublicKey * list N)) s :
  Forall (fun kv => Forall (fun idx => idx < getOutputCount tx) kv.2) l ->
  ∃ o s',
    (foldl (preprocessOutputs_round c blockInfo tx) (Next s) l = Next s' ∧ o = Returned Success
     ∨ foldl (preprocessOutputs_round c blockInfo tx) (Next s) l = Leave o s')
    ∧ no_error_code o
    ∧ (o = OutOfBounds -> height blockInfo ≠ WALLET_UNCONFIRMED_TRANSACTION_HEIGHT)
    ∧ (o = AssertionFailed -> NDEBUG = false)
    ∧ seen_le (ps_seen s) (ps_seen s')
    ∧ globalIdxs (ps_info s') = globalIdxs (ps_info s)
    ∧ dom (outputs (ps_info s')) ⊆
        dom (outputs (ps_info s)) ∪ (list_to_set l.*1 ∩ dom (m_subscriptions c)).
Proof.
  intros Hl. revert s. induction Hl as [|[key owned] l Hkv _ IH]; simpl; intros s.
  - exists (Returned Success), s. split_and!; [by left|done|done|done|done|done|apply union_subseteq_l].
  - destruct (m_subscriptions c !! key) as [sub|] eqn:Hsub.
    + set (r := createTransfers (getKeys sub) blockInfo tx owned (globalIdxs (ps_info s))
                  (default [] (outputs (ps_info s) !! key)) (ps_seen s)).
      pose proof (createTransfers_in_range (getKeys sub) blockInfo tx owned
                    (globalIdxs (ps_info s)) (default [] (outputs (ps_info s) !! key))
                    (ps_seen s) Hkv) as (Hno & Hub & Hab). fold r in Hno, Hub, Hab.
      pose proof (createTransfers_seen_le (getKeys sub) blockInfo tx owned
                    (globalIdxs (ps_info s)) (default [] (outputs (ps_info s) !! key))
                    (ps_seen s)) as Hle. fold r in Hle.
      assert (key ∈ dom (m_subscriptions c)) as Hkey by (apply elem_of_dom; eauto).
      destruct (outcome r) as [ec| |] eqn:Ho.
      * simpl in Hno. subst ec. simpl.
        match goal with
        | |- context [foldl _ (Next ?s1) l] =>
            destruct (IH s1) as (o & s' & Hf & ? & ? & ? & Hle' & Hg & Hd)
        end.
        simpl in *. exists o, s'. split_and!; [done|done|done|done|by etrans|done|].
        etrans; [exact Hd|]. rewrite dom_insert. by apply subseteq_watched_step.
      * rewrite preprocessOutputs_rounds_Leave. eexists AssertionFailed, _.
        split_and!; [by right|done|done|by intros _; apply Hab|done|done|].
        simpl. rewrite dom_insert. by apply subseteq_watched_stop.
      * rewrite preprocessOutputs_rounds_Leave. eexists OutOfBounds, _.
        split_and!; [by right|done|by intros _; apply Hub|done|done|done|].
        simpl. rewrite dom_insert. by apply subseteq_watched_stop.
    + destruct (IH s) as (o & s' & Hf & ? & ? & ? & Hle' & Hg & Hd).
      exists o, s'. split_and!; [done|done|done|done|done|done|].
      eapply subseteq_watched_keys; [|exact Hd]. apply union_subseteq_r.
Qed.

(** The scanner hands the builder indices below the output count. *)
Lemma found_indices_in_range tx viewSecretKey spendKeys :
  Forall (fun kv : PublicKey * list N => Forall (fun idx => idx < getOutputCount tx) kv.2)
         (map_to_list (findMyOutputs tx viewSecretKey spendKeys ∅))
  ∧ list_to_set (map_to_list (findMyOutputs tx viewSecretKey spendKeys ∅)).*1 ⊆ spendKeys.
Proof.
  pose proof (findMyOutputs_within tx viewSecretKey spendKeys) as Hw. split.
  - apply Forall_forall. intros [key l] Hin. apply elem_of_map_to_list in Hin.
    by destruct (Hw _ _ Hin).
  - intros key Hkey. apply elem_of_list_to_set, list_elem_of_fmap in Hkey as ([k l] & -> & Hin).
    apply elem_of_map_to_list in Hin. by destruct (Hw _ _ Hin).
Qed.

(** How [preprocessOutputs] ends. *)
Lemma preprocessOutputs_outcome c blockInfo tx info seen :
  let pre := preprocessOutputs c blockInfo tx info seen in
  (∀ ec, pre_outcome pre = Returned ec ->
     ec = Success
     ∨ (height blockInfo ≠ WALLET_UNCONFIRMED_TRANSACTION_HEIGHT
        ∧ ec = (getGlobalIndices (getTransactionHash tx)).1
        ∧ pre_seen pre = seen
        ∧ outputs (pre_info pre) = outputs info
        ∧ pre_log pre = []))
  ∧ (pre_outcome pre = OutOfBounds ->
     height blockInfo ≠ WALLET_UNCONFIRMED_TRANSACTION_HEIGHT)
  ∧ (pre_outcome pre = AssertionFailed -> NDEBUG = false)
  ∧ seen_le seen (pre_seen pre)
  ∧ dom (outputs (pre_info pre))
      ⊆ dom (outputs info) ∪ (m_spendKeys c ∩ dom (m_subscriptions c)).
Proof.
  unfold preprocessOutputs. case_decide as Hfound.
  { simpl. split_and!; [intros ec [= <-]; by left|done|done|done|apply union_subseteq_l]. }
  destruct (found_indices_in_range tx (m_viewSecret c) (m_spendKeys c)) as [Hrange Hkeys].
  case_decide as Hconfirmed; simpl.
  - destruct (is_error (getGlobalIndices (getTransactionHash tx)).1) eqn:Herr.
    { simpl. split_and!; [intros ec [= <-]; right; by split_and!|done|done|done|apply union_subseteq_l]. }
    match goal with
    | |- context [foldl _ (Next ?s1) _] =>
        destruct (preprocessOutputs_rounds c blockInfo tx _ s1 Hrange)
          as (o & s' & [[-> ->]| ->] & Hno & Hub & Hab & Hle & _ & Hd)
    end; simpl in *.
    + split_and!; [intros ec [= <-]; by left|done|done|done|].
      by eapply subseteq_watched_keys.
    + split_and!; [|done|done|done|by eapply subseteq_watched_keys].
      intros ec ->. simpl in Hno. by left.
  - match goal with
    | |- context [foldl _ (Next ?s1) _] =>
        destruct (preprocessOutputs_rounds c blockInfo tx _ s1 Hrange)
          as (o & s' & [[-> ->]| ->] & Hno & Hub & Hab & Hle & _ & Hd)
    end; simpl in *.
    + split_and!; [intros ec [= <-]; by left|done|done|done|].
      by eapply subseteq_watched_keys.
    + split_and!; [|done|done|done|by eapply subseteq_watched_keys].
      intros ec ->. simpl in Hno. by left.
Qed.

(** X11.  The only error code [preprocessOutputs] returns is the one of the
    node's global-index lookup, which is made for confirmed transactions
    only: when that happens the registry and the transfers of [info] are
    untouched and nothing is logged.  An out-of-range access to the global
    indices can occur for a confirmed transaction only, an [assert] can fail
    only when assertions are compiled in, the registry only grows, and the
    keys of [info.outputs] it adds are spend keys that are watched and
    subscribed. *)
Theorem X11_preprocessOutputs_errors c blockInfo tx info seen :
  (∀ ec, pre_outcome (preprocessOutputs c blockInfo tx info seen) = Returned ec ->
     is_error ec = true ->
     height blockInfo ≠ WALLET_UNCONFIRMED_TRANSACTION_HEIGHT
     ∧ ec = (getGlobalIndices (getTransactionHash tx)).1
     ∧ pre_seen (preprocessOutputs c blockInfo tx info seen) = seen
     ∧ outputs (pre_info (preprocessOutputs c blockInfo tx info seen)) = outputs info
     ∧ pre_log (preprocessOutputs c blockInfo tx info seen) = [])
  ∧ (pre_outcome (preprocessOutputs c blockInfo tx info seen) = OutOfBounds ->
     height blockInfo ≠ WALLET_UNCONFIRMED_TRANSACTION_HEIGHT)
  ∧ (pre_outcome (preprocessOutputs c blockInfo tx info seen) = AssertionFailed ->
     NDEBUG = false)
  ∧ seen_le seen (pre_seen (preprocessOutputs c blockInfo tx info seen))
  ∧ dom (outputs (pre_info (preprocessOutputs c blockInfo tx info seen)))
      ⊆ dom (outputs info) ∪ (m_spendKeys c ∩ dom (m_subscriptions c)).
Proof.
  destruct (preprocessOutputs_outcome c blockInfo tx info seen) as (Hec & Hob & Haf & Hle & Hdom).
  split_and!; [|done..].
  intros ec Ho Herr. destruct (Hec ec Ho) as [ ->|?]; [done|done].
Qed.

End Preprocessing.

(** ** Properties of the pool path *)

Section PoolPath.
Context `{ext : Externals} `{node : INode} {Container : Type}
        `{ops : SubscriptionOps Container} `{pool : PoolOps Container}.
Implicit Types (c : TransfersConsumer Container) (s : PoolState Container).
#[local] Existing Instance seen_le_preorder.

Lemma grows_by_dom infos (subs subs' : gmap PublicKey (TransfersSubscription Container)) :
  grows_by infos subs subs' -> dom subs = dom subs'.
Proof.
  intros Hg. apply set_eq. intros key. rewrite !elem_of_dom.
  specialize (Hg key). destruct Hg; split; intros [? ?]; eauto; done.
Qed.

Lemma processOutputs_NDEBUG blockInfo (sub : TransfersSubscription Container) tx transfers globalIdxs :
  NDEBUG = true -> is_Some (processOutputs blockInfo sub tx transfers globalIdxs).
Proof.
  intros Hnd. unfold processOutputs. rewrite Hnd. simpl.
  destruct (getTransactionInformation _ _); [case_decide|]; eauto.
Qed.

Lemma processTransaction_NDEBUG blockInfo tx info c :
  NDEBUG = true -> is_Some (processTransaction blockInfo tx info c).
Proof.
  intros Hnd. unfold processTransaction.
  assert (∀ l acc, is_Some (foldl (processTransaction_round blockInfo tx info) (Some acc) l))
    as Hfold.
  { induction l as [|kv l IH]; intros [[subs u] cs]; simpl; [eauto|].
    destruct (processOutputs_NDEBUG blockInfo kv.2 tx (default [] (outputs info !! kv.1))
                (globalIdxs info) Hnd) as [[[sub' ct] up] ->].
    apply IH. }
  destruct (Hfold (map_to_list (m_subscriptions c)) (m_subscriptions c, false, []))
    as [[[subs u] cs] ->]. eauto.
Qed.

(** A pool transaction is preprocessed and applied without an error code. *)
Lemma processTransaction2_pool blockInfo tx c seen :
  height blockInfo = WALLET_UNCONFIRMED_TRANSACTION_HEIGHT ->
  let r := processTransaction2 blockInfo tx c seen in
  pool_outcome (pr_outcome r)
  ∧ seen_le seen (pr_seen r)
  ∧ dom (m_subscriptions (pr_consumer r)) = dom (m_subscriptions c)
  ∧ m_spendKeys (pr_consumer r) = m_spendKeys c
  ∧ m_viewSecret (pr_consumer r) = m_viewSecret c.
Proof.
  intros Hpool. unfold processTransaction2.
  pose proof (preprocessOutputs_outcome c blockInfo tx new_PreprocessInfo seen)
    as (Hec & Hub & Hab & Hle & _). simpl in *.
  destruct (pre_outcome _) as [ec| |] eqn:Ho; simpl.
  - destruct (Hec ec eq_refl) as [->|[Hne _]]; [|done]. simpl.
    destruct (processTransaction _ _ _ c) as [c'|] eqn:Hp; simpl.
    + split_and!; [by left|done| | |].
      * symmetry. eapply grows_by_dom. by eapply processTransaction_grows.
      * unfold processTransaction in Hp.
        destruct (foldl _ _ _) as [[[subs u] cs]|]; [|done].
        injection Hp as <-. by destruct u.
      * unfold processTransaction in Hp.
        destruct (foldl _ _ _) as [[[subs u] cs]|]; [|done].
        injection Hp as <-. by destruct u.
    + split_and!; [right; split; [done|]|done|done|done|done].
      destruct NDEBUG eqn:Hnd; [|done].
      destruct (processTransaction_NDEBUG blockInfo tx
                  (pre_info (preprocessOutputs c blockInfo tx new_PreprocessInfo seen)) c Hnd)
        as [? Hsome]. congruence.
  - split_and!; [right; split; [done|by apply Hab]|done|done|done|done].
  - by destruct (Hub eq_refl).
Qed.

Lemma onPoolUpdated_adds_Leave indeterminate o s l :
  foldl (onPoolUpdated_add indeterminate) (Leave o s) l = Leave o s.
Proof. induction l; simpl; done. Qed.

(** The loop over the added transactions. *)
Lemma onPoolUpdated_adds indeterminate (added : list ITransactionReader) s :
  ∃ o s',
    (foldl (onPoolUpdated_add indeterminate) (Next s) added = Next s' ∧ o = Returned Success
     ∨ (foldl (onPoolUpdated_add indeterminate) (Next s) added = Leave o s'
        ∧ o = AssertionFailed ∧ NDEBUG = false))
    ∧ (o = Returned Success ->
       m_poolTxs s' = m_poolTxs s ∪ list_to_set (getTransactionHash <$> added))
    ∧ seen_le (registry s) (registry s')
    ∧ dom (m_subscriptions (consumer s')) = dom (m_subscriptions (consumer s))
    ∧ m_spendKeys (consumer s') = m_spendKeys (consumer s)
    ∧ pool_events s' = pool_events s.
Proof.
  revert s. induction added as [|tx added IH]; intros s; simpl.
  - exists (Returned Success), s. split_and!; [by left| |done|done|done|done].
    intros _. by rewrite (right_id_L ∅ (∪)).
  - pose proof (processTransaction2_pool
                  {| height := WALLET_UNCONFIRMED_TRANSACTION_HEIGHT; timestamp := 0;
                     transactionIndex := indeterminate |} tx (consumer s) (registry s) eq_refl)
      as ([Hok|[Hab Hnd]] & Hle & Hdom & Hkeys & _); simpl in *.
    + rewrite Hok. simpl.
      match goal with
      | |- context [foldl _ (Next ?s1) added] =>
          destruct (IH s1) as (o & s' & Hf & Hp & Hle' & Hd' & Hk' & He')
      end. simpl in *.
      exists o, s'. split_and!; [done| |by etrans|congruence|congruence|done].
      intros Ho. rewrite (Hp Ho). symmetry. apply (assoc_L (∪)).
    + rewrite Hab. rewrite onPoolUpdated_adds_Leave.
      eexists AssertionFailed, _. split_and!; [by right|done|done|done|done|done].
Qed.

(** The loop over the deleted transactions. *)
Lemma onPoolUpdated_deletes (deleted : list Hash) s :
  let s' := foldl onPoolUpdated_delete s deleted in
  m_poolTxs s' = m_poolTxs s ∖ list_to_set deleted
  ∧ registry s' = registry s
  ∧ dom (m_subscriptions (consumer s')) = dom (m_subscriptions (consumer s))
  ∧ m_spendKeys (consumer s') = m_spendKeys (consumer s)
  ∧ (∀ key, received <$> m_subscriptions (consumer s') !! key
            = received <$> m_subscriptions (consumer s) !! key).
Proof.
  revert s. induction deleted as [|h deleted IH]; intros s; simpl.
  - split_and!; [by rewrite difference_empty_L|done|done|done|done].
  - destruct (IH (onPoolUpdated_delete s h)) as (Hp & Hr & Hd & Hk & Hrec). simpl in *.
    split_and!; [rewrite Hp; apply difference_difference_l_L|done| |done|].
    + rewrite Hd. by rewrite dom_fmap_L.
    + intros key. rewrite Hrec, lookup_fmap.
      by destruct (m_subscriptions (consumer s) !! key).
Qed.

(** X12.  [addUnconfirmedTransaction] never returns an error code: it returns
    success unless an [assert] stops a build with assertions; the registry
    only grows, and the view secret key, [m_spendKeys] and the set of
    subscribed keys stay as they are. *)
Theorem X12_addUnconfirmedTransaction_no_error_code (tx : ITransactionReader) c (seen : Seen) :
  pool_outcome (pr_outcome (addUnconfirmedTransaction tx c seen))
  ∧ seen_le seen (pr_seen (addUnconfirmedTransaction tx c seen))
  ∧ dom (m_subscriptions (pr_consumer (addUnconfirmedTransaction tx c seen)))
    = dom (m_subscriptions c)
  ∧ m_spendKeys (pr_consumer (addUnconfirmedTransaction tx c seen)) = m_spendKeys c
  ∧ m_viewSecret (pr_consumer (addUnconfirmedTransaction tx c seen)) = m_viewSecret c.
Proof. unfold addUnconfirmedTransaction. by apply processTransaction2_pool. Qed.

(** X13.  [onPoolUpdated] never returns an error code either, whatever the
    unset transaction index of its block info holds: it returns success unless
    an [assert] stops a build with assertions.  When it returns success, the known
    pool transactions are the ones known before, with the hashes of the added
    transactions, without the deleted ones; the registry only grows, and
    [m_spendKeys] and the set of subscribed keys stay as they are. *)
Theorem X13_onPoolUpdated_known_pool (addedTransactions : list ITransactionReader)
    (deletedTransactions : list Hash) (indeterminate : N) s :
  pool_outcome (onPoolUpdated addedTransactions deletedTransactions indeterminate s).1
  ∧ ((onPoolUpdated addedTransactions deletedTransactions indeterminate s).1 = Returned Success ->
     getKnownPoolTxIds (onPoolUpdated addedTransactions deletedTransactions indeterminate s).2
     = (getKnownPoolTxIds s ∪ list_to_set (getTransactionHash <$> addedTransactions))
       ∖ list_to_set deletedTransactions)
  ∧ seen_le (registry s)
            (registry (onPoolUpdated addedTransactions deletedTransactions indeterminate s).2)
  ∧ dom (m_subscriptions
           (consumer (onPoolUpdated addedTransactions deletedTransactions indeterminate s).2))
    = dom (m_subscriptions (consumer s))
  ∧ m_spendKeys (consumer (onPoolUpdated addedTransactions deletedTransactions indeterminate s).2)
    = m_spendKeys (consumer s).
Proof.
  unfold onPoolUpdated, getKnownPoolTxIds.
  destruct (onPoolUpdated_adds indeterminate addedTransactions s)
    as (o & s1 & [[-> ->]|(-> & -> & Hnd)] & Hpool & Hle & Hdom & Hkeys & _); simpl.
  - destruct (onPoolUpdated_deletes deletedTransactions s1) as (Hp & Hr & Hd & Hk & _).
    simpl in *. split_and!.
    + by left.
    + intros _. by rewrite Hp, Hpool.
    + by rewrite Hr.
    + by rewrite Hd.
    + by rewrite Hk.
  - split_and!; [by right|done|done|done|done].
Qed.

(** What one subscription adds to the known pool transactions. *)
Lemma initTransactionPool_round_elem (uncommitedTransactions poolTxs : gset Hash)
    (kv : PublicKey * TransfersSubscription Container) (h : Hash) :
  h ∈ initTransactionPool_round uncommitedTransactions poolTxs kv
  <-> h ∈ poolTxs
      ∨ ((h ∉ uncommitedTransactions) ∧ h ∈ getUnconfirmedTransactions (container kv.2)).
Proof.
  unfold initTransactionPool_round.
  revert poolTxs. induction (getUnconfirmedTransactions (container kv.2)) as [|t l IH];
    intros poolTxs; simpl.
  - split; [by left|]. intros [?|[_ ?%elem_of_nil]]; done.
  - rewrite IH, elem_of_cons. case_decide as Hin.
    + split; [intros [?|[? ?]]; [by left|right; by auto]|].
      intros [?|[? [ ->|?]]]; [by left|done|right; by auto].
    + rewrite elem_of_union, elem_of_singleton.
      split; [intros [[?| ->]|[? ?]]; [by left|right; by auto|right; by auto]|].
      intros [?|[? [ ->|?]]]; [left; by left|left; by right|right; by auto].
Qed.

(** X14.  After [initTransactionPool] a hash is among the known pool
    transactions exactly when it was known before, or some subscription's
    container lists it as unconfirmed and it is not among the uncommitted
    transactions passed in. *)
Theorem X14_initTransactionPool_known (uncommitedTransactions : gset Hash) s (h : Hash) :
  h ∈ getKnownPoolTxIds (initTransactionPool uncommitedTransactions s)
  <-> h ∈ getKnownPoolTxIds s
      ∨ ((h ∉ uncommitedTransactions)
         ∧ (∃ key sub, m_subscriptions (consumer s) !! key = Some sub
                      ∧ h ∈ getUnconfirmedTransactions (container sub))).
Proof.
  unfold getKnownPoolTxIds, initTransactionPool. simpl.
  assert (∀ (l : list (PublicKey * TransfersSubscription Container)) (acc : gset Hash),
            h ∈ foldl (initTransactionPool_round uncommitedTransactions) acc l
            <-> h ∈ acc
                ∨ ((h ∉ uncommitedTransactions)
                   ∧ (∃ kv, kv ∈ l ∧ h ∈ getUnconfirmedTransactions (container kv.2)))) as Hfold.
  { induction l as [|kv l IH]; intros acc; simpl.
    - split; [by left|]. intros [?|(_ & kv & ?%elem_of_nil & _)]; done.
    - rewrite IH, initTransactionPool_round_elem. split.
      + intros [[?|[? ?]]|(? & kv' & ? & ?)]; [by left|right|right].
        * split; [done|]. exists kv. split; [left|done].
        * split; [done|]. exists kv'. split; [by right|done].
      + intros [?|(? & kv' & [ ->|?]%elem_of_cons & ?)].
        * left. by left.
        * left. right. by split.
        * right. split; [done|]. by exists kv'. }
  rewrite Hfold. apply or_iff_compat_l. apply and_iff_compat_l. split.
  - intros ([key sub] & Hin%elem_of_map_to_list & ?). by exists key, sub.
  - intros (key & sub & Hin & ?). exists (key, sub). split; [by apply elem_of_map_to_list|done].
Qed.

End PoolPath.

(** ** Properties of the producer *)

Section Producer.
Context `{ext : Externals}.

(** The items pushed for one block. *)
Lemma enumerate_transactions_elem blockInfo txs item :
  transactionIndex blockInfo + N.of_nat (length txs) <= 2 ^ 32 ->
  item ∈ enumerate_transactions blockInfo txs
  <-> ∃ (j : nat),
        txs !! j = Some (tx_reader item)
        ∧ getTransactionPublicKey (tx_reader item) ≠ NULL_PUBLIC_KEY
        ∧ tx_blockInfo item = {| height := height blockInfo;
                                 timestamp := timestamp blockInfo;
                                 transactionIndex := transactionIndex blockInfo + N.of_nat j |}.
Proof.
  revert blockInfo. induction txs as [|tx txs IH]; intros blockInfo Hfit; simpl.
  - split; [by intros ?%elem_of_nil|]. by intros (j & ? & _).
  - set (next := {| height := height blockInfo; timestamp := timestamp blockInfo;
                    transactionIndex := uint32_cast (transactionIndex blockInfo + 1) |}).
    assert (transactionIndex next + N.of_nat (length txs) <= 2 ^ 32) as Hnext.
    { simpl. pose proof (uint32_cast_le (transactionIndex blockInfo + 1)). simpl in Hfit. lia. }
    assert (item ∈ enumerate_transactions next txs
            <-> ∃ j : nat,
                  txs !! j = Some (tx_reader item)
                  ∧ getTransactionPublicKey (tx_reader item) ≠ NULL_PUBLIC_KEY
                  ∧ tx_blockInfo item =
                      {| height := height blockInfo; timestamp := timestamp blockInfo;
                         transactionIndex := transactionIndex blockInfo + N.of_nat (S j) |})
      as Hrest.
    { rewrite (IH next Hnext). simpl. split; intros (j & Hj & Hpk & Hbi); exists j;
        (split_and!; [done|done|]); rewrite Hbi; f_equal;
        apply lookup_lt_Some in Hj; simpl in Hfit;
        rewrite uint32_cast_small by lia; lia. }
    assert (item = {| tx_blockInfo := blockInfo; tx_reader := tx |}
            <-> tx = tx_reader item
                ∧ tx_blockInfo item =
                    {| height := height blockInfo; timestamp := timestamp blockInfo;
                       transactionIndex := transactionIndex blockInfo + N.of_nat 0 |})
      as Hhead.
    { destruct item as [bi t], blockInfo as [h ts k]. simpl. rewrite N.add_0_r.
      split; [by intros [= -> ->]|by intros [-> ->]]. }
    case_decide as Hnull.
    + rewrite Hrest. split.
      * intros (j & ?). by exists (S j).
      * intros ([|j] & Hj & Hpk & Hbi); [|by exists j].
        simpl in Hj. injection Hj as ->. done.
    + rewrite elem_of_cons, Hrest, Hhead. split.
      * intros [[-> Hbi]|(j & ?)]; [by exists 0%nat|by exists (S j)].
      * intros ([|j] & Hj & Hpk & Hbi); [left|right; by exists j].
        simpl in Hj. by injection Hj as ->.
Qed.

(** The items pushed for the blocks from position [i] on. *)
Lemma enumerate_blocks_elem syncStart startHeight (i : nat) blocks item :
  startHeight + N.of_nat i + N.of_nat (length blocks) <= 2 ^ 32 ->
  Forall (fun b => N.of_nat (length (transactions b)) <= 2 ^ 32) blocks ->
  item ∈ enumerate_blocks syncStart startHeight (N.of_nat i) blocks
  <-> to_scan syncStart (startHeight + N.of_nat i) blocks item.
Proof.
  revert i. induction blocks as [|b blocks IH]; intros i Hfit Htxs; simpl.
  - split; [by intros ?%elem_of_nil|]. by intros (? & ? & ? & ? & ? & _).
  - apply Forall_cons in Htxs as [Hb Htxs].
    replace (N.of_nat i + 1) with (N.of_nat (S i)) by lia.
    rewrite elem_of_app, IH by (simpl in Hfit; done || lia).
    assert (to_scan syncStart (startHeight + N.of_nat i) (b :: blocks) item
            <-> to_scan syncStart (startHeight + N.of_nat i) [b] item
                ∨ to_scan syncStart (startHeight + N.of_nat (S i)) blocks item) as ->.
    { unfold to_scan. split.
      - intros ([|i'] & j & b' & ts & Hi & Hrest); simpl in Hi.
        + left. exists 0%nat, j, b', ts. by split.
        + right. exists i', j, b', ts. split; [done|].
          destruct Hrest as (? & ? & ? & ? & ->). split_and!; [done..|]. f_equal. lia.
      - intros [([|i'] & j & b' & ts & Hi & Hrest)|(i' & j & b' & ts & Hi & Hrest)].
        + exists 0%nat, j, b', ts. by split.
        + by simpl in Hi.
        + exists (S i'), j, b', ts. split; [done|].
          destruct Hrest as (? & ? & ? & ? & ->). split_and!; [done..|]. f_equal. lia. }
    apply or_iff_compat_r. unfold to_scan. simpl in Hfit.
    destruct (block b) as [ts|] eqn:Hblock.
    + destruct (negb (ss_timestamp syncStart =? 0) && (ts <? ss_timestamp syncStart)) eqn:Hskip.
      * apply andb_true_iff in Hskip as [Hz Hlt].
        apply negb_true_iff, N.eqb_neq in Hz. apply N.ltb_lt in Hlt.
        split; [by intros ?%elem_of_nil|].
        intros ([|i'] & j & b' & ts' & Hi & Hb' & Hok & _); simpl in Hi; [|done].
        simplify_eq. lia.
      * rewrite enumerate_transactions_elem by (simpl; lia). simpl.
        rewrite uint32_cast_small by lia.
        assert (ss_timestamp syncStart = 0 ∨ ss_timestamp syncStart <= ts) as Hok.
        { apply andb_false_iff in Hskip as [Hz|Hlt].
          - left. apply negb_false_iff in Hz. by apply N.eqb_eq.
          - right. by apply N.ltb_ge. }
        split.
        -- intros (j & Hj & Hpk & Hbi). exists 0%nat, j, b, ts.
           split_and!; [done..|]. rewrite Hbi. f_equal; lia.
        -- intros ([|i'] & j & b' & ts' & Hi & Hb' & _ & Hj & Hpk & Hbi); simpl in Hi; [|done].
           simplify_eq. exists j. split_and!; [done..|]. rewrite Hbi. f_equal; lia.
    + split; [by intros ?%elem_of_nil|].
      intros ([|i'] & j & b' & ts' & Hi & Hb' & _); simpl in Hi; [|done]. by simplify_eq.
Qed.

Lemma enumerate_transactions_sorted blockInfo txs :
  transactionIndex blockInfo + N.of_nat (length txs) <= 2 ^ 32 ->
  StronglySorted block_before (tx_blockInfo <$> enumerate_transactions blockInfo txs).
Proof.
  revert blockInfo. induction txs as [|tx txs IH]; intros blockInfo Hfit; simpl; [constructor|].
  set (next := {| height := height blockInfo; timestamp := timestamp blockInfo;
                  transactionIndex := uint32_cast (transactionIndex blockInfo + 1) |}).
  assert (transactionIndex next + N.of_nat (length txs) <= 2 ^ 32) as Hnext.
  { simpl. pose proof (uint32_cast_le (transactionIndex blockInfo + 1)). simpl in Hfit. lia. }
  case_decide; [by apply IH|]. simpl. constructor; [by apply IH|].
  apply Forall_fmap, Forall_forall. intros item Hitem.
  apply enumerate_transactions_elem in Hitem as (j & Hj & _ & Hbi); [|done].
  simpl. rewrite Hbi. right. simpl. split; [done|].
  apply lookup_lt_Some in Hj. simpl in Hfit. rewrite uint32_cast_small by lia. lia.
Qed.

Lemma enumerate_blocks_sorted syncStart startHeight (i : nat) blocks :
  startHeight + N.of_nat i + N.of_nat (length blocks) <= 2 ^ 32 ->
  Forall (fun b => N.of_nat (length (transactions b)) <= 2 ^ 32) blocks ->
  StronglySorted block_before
    (tx_blockInfo <$> enumerate_blocks syncStart startHeight (N.of_nat i) blocks).
Proof.
  revert i. induction blocks as [|b blocks IH]; intros i Hfit Htxs; simpl; [constructor|].
  pose proof Htxs as Htxs'. apply Forall_cons in Htxs as [Hb Htxs]. simpl in Hfit.
  replace (N.of_nat i + 1) with (N.of_nat (S i)) by lia.
  rewrite fmap_app. apply StronglySorted_app_2.
  - intros a1 a2 Ha1 Ha2.
    apply list_elem_of_fmap in Ha2 as (item2 & -> & Hitem2).
    apply enumerate_blocks_elem in Hitem2 as (i2 & j2 & b2 & ts2 & _ & _ & _ & _ & _ & Hbi2);
      [|lia|done].
    assert (height a1 = startHeight + N.of_nat i) as Hh1.
    { destruct (block b) as [ts|]; [|by apply elem_of_nil in Ha1].
      destruct (negb _ && _); [by apply elem_of_nil in Ha1|].
      apply list_elem_of_fmap in Ha1 as (item1 & -> & Hitem1).
      apply enumerate_transactions_elem in Hitem1 as (j1 & _ & _ & ->); [|simpl; lia].
      simpl. apply uint32_cast_small. lia. }
    left. rewrite Hh1, Hbi2. simpl. lia.
  - destruct (block b) as [ts|]; [|constructor].
    destruct (negb _ && _); [constructor|].
    apply enumerate_transactions_sorted. simpl. lia.
  - apply IH; [lia|done].
Qed.

End Producer.

(** ** Properties of an applied batch *)

Section Batch.
Context `{ext : Externals} {Container : Type} `{ops : SubscriptionOps Container}.
Implicit Types (c : TransfersConsumer Container).

(** A list in strict block order has one arrangement in block order only. *)
Lemma block_order_unique (l l' : list Tx) :
  StronglySorted block_before (tx_blockInfo <$> l) ->
  StronglySorted block_order (tx_blockInfo <$> l') ->
  l' ≡ₚ l -> l' = l.
Proof.
  revert l'. induction l as [|x l IH]; intros l' Hl Hl' Hperm.
  - by apply Permutation_nil_r in Hperm.
  - destruct l' as [|y l']; [by apply Permutation_nil_cons in Hperm|].
    simpl in Hl, Hl'.
    apply StronglySorted_inv in Hl as [Hl Hx]. apply StronglySorted_inv in Hl' as [Hl' Hy].
    assert (y = x) as ->.
    { assert (x ∈ y :: l') as Hxin by (rewrite Hperm; left).
      assert (y ∈ x :: l) as Hyin by (rewrite <- Hperm; left).
      apply elem_of_cons in Hxin as [->|Hxin]; [done|].
      apply elem_of_cons in Hyin as [->|Hyin]; [done|].
      rewrite Forall_fmap, Forall_forall in Hx, Hy.
      specialize (Hx _ Hyin). specialize (Hy _ Hxin). simpl in *.
      unfold block_before, block_order in *. lia. }
    f_equal. apply IH; [done|done|]. by apply Permutation_cons_inv in Hperm.
Qed.

(** Applying a transaction changes the subscriptions and tells the observers
    of the update at most. *)
Lemma processTransaction_fields blockInfo tx info c c' :
  processTransaction blockInfo tx info c = Some c' ->
  unchanged_but_subscriptions c c'
  ∧ ∃ updates, notified c' = notified c ++ updates ∧ transaction_updates updates.
Proof.
  intros Hp.
  assert (dom (m_subscriptions c') = dom (m_subscriptions c)) as Hdom.
  { symmetry. eapply grows_by_dom. by eapply processTransaction_grows. }
  unfold processTransaction in Hp.
  destruct (foldl _ _ _) as [[[subs u] cs]|]; [|done].
  injection Hp as <-. destruct u; simpl in *.
  - split; [done|]. eexists [_]. split; [done|]. by repeat constructor.
  - split; [done|]. exists []. split; [by rewrite app_nil_r|constructor].
Qed.

Lemma apply_all_fields txs c c' :
  apply_all txs c = Some c' ->
  unchanged_but_subscriptions c c'
  ∧ ∃ updates, notified c' = notified c ++ updates ∧ transaction_updates updates.
Proof.
  revert c. induction txs as [|ptx txs IH]; intros c.
  - intros [= <-]. split; [done|]. exists []. split; [by rewrite app_nil_r|constructor].
  - rewrite apply_all_cons.
    destruct (processTransaction _ _ _ c) as [c1|] eqn:Hp; [|done].
    intros Hrest. apply processTransaction_fields in Hp as ((? & ? & ? & ?) & u1 & Hn1 & Hu1).
    apply IH in Hrest as ((? & ? & ? & ?) & u2 & Hn2 & Hu2).
    split; [split_and!; congruence|].
    exists (u1 ++ u2). rewrite Hn2, Hn1, <- app_assoc. split; [done|by apply Forall_app].
Qed.


(** X15.  For a batch whose heights and transaction indices fit in 32 bits,
    the pushing thread of [onNewBlocks], when it is not stopped, puts on the
    queue exactly the transactions with a public key of the initialized
    blocks that pass the timestamp filter, each with its block's height and
    timestamp and its position in the block, and it pushes them in strictly
    ascending (height, transaction index) order. *)
Theorem X15_producer_enumerates (syncStart : SynchronizationStart) (startHeight : N)
    (blocks : list CompleteBlock) :
  batch_fits startHeight blocks ->
  (∀ item, item ∈ enumerate_blocks syncStart startHeight 0 blocks
           <-> to_scan syncStart startHeight blocks item)
  ∧ StronglySorted block_before
      (tx_blockInfo <$> enumerate_blocks syncStart startHeight 0 blocks).
Proof.
  intros [Hfit Htxs]. split.
  - intros item. pose proof (enumerate_blocks_elem syncStart startHeight 0 blocks item) as H.
    simpl in H. rewrite N.add_0_r in H. apply H; [lia|done].
  - apply (enumerate_blocks_sorted syncStart startHeight 0); [lia|done].
Qed.

(** X16.  The order in which a clean batch is applied does not depend on the
    workers: for a batch that fits in 32 bits, when every worker returned
    without an error, the sorted vector [onNewBlocks] runs
    [processTransaction] over lists the enumerated transactions in exactly
    the order the producer pushed them, whatever the number of workers and
    whatever the interleaving of their steps. *)
Theorem X16_clean_run_applies_in_producer_order (hardware_concurrency : N)
    (syncStart : SynchronizationStart) (startHeight : N)
    (blocks : list CompleteBlock) (p : Pool) (results : list WorkerResult) :
  batch_fits startHeight blocks ->
  rtc pool_step
      (start_pool hardware_concurrency
                  (enumerate_rounds syncStart startHeight 0 blocks)) p ->
  worker_results p = Some results ->
  Forall (fun r => r = WorkerReturned Success) results ->
  base <$> std_sort tie_less (preprocessedTransactions p)
  = enumerate_blocks syncStart startHeight 0 blocks.
Proof.
  intros [Hfit Htxs] Hrun Hresults Hok.
  apply block_order_unique.
  - apply (enumerate_blocks_sorted syncStart startHeight 0); [lia|done].
  - rewrite <- list_fmap_compose. apply std_sort_block_order.
  - rewrite std_sort_Permutation, <- concat_enumerate_rounds. by eapply pool_run_complete.
Qed.

(** X17.  When [onNewBlocks] returns true, the view secret key, the spend
    keys, the sync start and the set of subscribed keys are as before; the
    observers were told [onBlocksAdded] with the hashes of all blocks of the
    batch first and [onTransactionUpdated] only after it; and the last call
    every subscription received is [advanceHeight] with
    [startHeight + count - 1] in 32-bit arithmetic. *)
Theorem X17_accepted_batch_trace (hardware_concurrency : N)
    (blocks : list CompleteBlock) (startHeight : N) c c' :
  onNewBlocks hardware_concurrency blocks startHeight c (Some (c', true)) ->
  unchanged_but_subscriptions c c'
  ∧ (∃ updates,
       notified c' = notified c ++ OnBlocksAdded (blockHash <$> blocks) :: updates
       ∧ transaction_updates updates)
  ∧ (∀ key sub',
       m_subscriptions c' !! key = Some sub' ->
       last (received sub')
       = Some (AdvanceHeight
                 (uint32_cast (startHeight + N.of_nat (length blocks) + 2 ^ 32 - 1)))).
Proof.
  unfold onNewBlocks. destruct (negb NDEBUG && _); [done|].
  intros (p & results & _ & _ & _ & Hres).
  unfold onNewBlocks_join in Hres.
  destruct (negb (is_error (join_workers results))); [|done].
  destruct (apply_all _ _) as [c1|] eqn:Happly; [|done].
  injection Hres as ->.
  apply apply_all_fields in Happly as ((Hv & Hk & Hs & Hd) & updates & Hn & Hu).
  simpl in *. split; [|split].
  - unfold unchanged_but_subscriptions. simpl. rewrite dom_fmap_L. done.
  - exists updates. rewrite Hn, <- app_assoc. done.
  - intros key sub' Hkey. rewrite lookup_fmap in Hkey.
    destruct (m_subscriptions c1 !! key) as [sub|]; [|done].
    injection Hkey as <-. simpl. apply last_snoc.
Qed.

End Batch.

(** ** Replaying a known transaction *)

Section ApplyKnown.
Context `{ext : Externals} {Container : Type} `{ops : SubscriptionOps Container}.
Implicit Types (c : TransfersConsumer Container).

(** A subscription that knows the transaction at this height is left alone. *)
Lemma processOutputs_known blockInfo (sub : TransfersSubscription Container) tx transfers
    globalIdxs known :
  getTransactionInformation (container sub) (getTransactionHash tx) = Some known ->
  blockHeight known = height blockInfo ->
  processOutputs blockInfo sub tx transfers globalIdxs = Some (sub, true, false).
Proof.
  intros Hknown Hheight. unfold processOutputs. rewrite Hknown.
  case_decide as Hpool; [destruct Hpool as [? Hne]; congruence|].
  rewrite Hheight, N.eqb_refl, orb_true_r. done.
Qed.

Lemma processTransaction_rounds_known blockInfo tx info
    (l : list (PublicKey * TransfersSubscription Container))
    (subs : gmap PublicKey (TransfersSubscription Container)) containers :
  Forall (fun kv =>
            subs !! kv.1 = Some kv.2
            ∧ ∃ known,
                getTransactionInformation (container kv.2) (getTransactionHash tx) = Some known
                ∧ blockHeight known = height blockInfo) l ->
  foldl (processTransaction_round blockInfo tx info) (Some (subs, false, containers)) l
  = Some (subs, false, containers ++ l.*1).
Proof.
  intros Hl. revert containers. induction Hl as [|[key sub] l [Hsub (known & Hk & Hh)] _ IH];
    intros containers; simpl.
  - by rewrite app_nil_r.
  - rewrite (processOutputs_known _ _ _ _ _ known Hk Hh). simpl in *.
    rewrite insert_id by done. rewrite IH. by rewrite <- app_assoc.
Qed.

(** X18.  Applying a transaction that the container of every subscription
    already knows at the height of [blockInfo] changes nothing:
    [processTransaction] makes no call on any subscription, tells the
    observers nothing and leaves the consumer as it was. *)
Theorem X18_known_transaction_replay blockInfo tx info c :
  (∀ key sub,
     m_subscriptions c !! key = Some sub ->
     ∃ known,
       getTransactionInformation (container sub) (getTransactionHash tx) = Some known
       ∧ blockHeight known = height blockInfo) ->
  processTransaction blockInfo tx info c = Some c.
Proof.
  intros Hknown. unfold processTransaction.
  rewrite (processTransaction_rounds_known blockInfo tx info _ (m_subscriptions c) []).
  - by destruct c.
  - apply Forall_forall. intros [key sub] Hin. apply elem_of_map_to_list in Hin.
    split; [done|]. by apply (Hknown key).
Qed.

End ApplyKnown.

(** ** A clean preprocessing *)

Section ScannerAddressable.
Context `{ext : Externals}.

Lemma checkOutputKey_addressable tx derivation key keyIndex outputIndex spendKeys found :
  addressable tx (uint32_cast outputIndex) = true ->
  found_addressable tx found ->
  found_addressable tx (checkOutputKey derivation key keyIndex outputIndex spendKeys found).
Proof.
  intros Hidx Hfound. unfold checkOutputKey. case_decide as Hin; [|done].
  apply map_Forall_insert_2; [|done].
  apply Forall_app. split.
  - destruct (found !! _) as [l|] eqn:Hl; simpl; [|constructor]. by apply (Hfound _ _ Hl).
  - by constructor.
Qed.

Lemma scan_multisignature_keys_addressable tx derivation ks idx spendKeys st :
  addressable tx (uint32_cast idx) = true ->
  found_addressable tx st.2 ->
  found_addressable tx (scan_multisignature_keys derivation ks idx spendKeys st).2.
Proof.
  intros Hidx. revert st. induction ks as [|key ks IH]; simpl; intros st Hst; [done|].
  apply IH. simpl. by apply checkOutputKey_addressable.
Qed.

Lemma scan_outputs_addressable tx derivation before outs spendKeys st :
  txOutputs tx = before ++ outs ->
  N.of_nat (length (txOutputs tx)) <= 2 ^ 32 ->
  found_addressable tx st.2 ->
  found_addressable tx
    (scan_outputs derivation outs (N.of_nat (length before)) spendKeys st).2.
Proof.
  revert before st. induction outs as [|o outs IH]; simpl; intros before st Hall Hlen Hst; [done|].
  replace (N.of_nat (length before) + 1) with (N.of_nat (length (before ++ [o])))
    by (rewrite length_app; simpl; lia).
  assert (N.of_nat (length before) < 2 ^ 32) as Hidx.
  { rewrite Hall, length_app in Hlen. simpl in Hlen. lia. }
  assert (getOutput tx (uint32_cast (N.of_nat (length before))) = Some o) as Hget.
  { rewrite uint32_cast_small by done. unfold getOutput.
    rewrite Hall, Nat2N.id. by apply list_lookup_middle. }
  apply IH; [by rewrite <- app_assoc|done|].
  destruct o as [amount key|amount ks required|]; simpl; [| |done].
  - apply checkOutputKey_addressable; [|done].
    unfold addressable, getOutputType. by rewrite Hget.
  - apply scan_multisignature_keys_addressable; [|done].
    unfold addressable, getOutputType. by rewrite Hget.
Qed.

(** The scanner records Key and Multisignature outputs only. *)
Lemma findMyOutputs_addressable tx viewSecretKey spendKeys :
  N.of_nat (length (txOutputs tx)) <= 2 ^ 32 ->
  found_addressable tx (findMyOutputs tx viewSecretKey spendKeys ∅).
Proof.
  intros Hlen. unfold findMyOutputs.
  destruct (generate_key_derivation _ _) as [derivation|]; [|apply map_Forall_empty].
  apply (scan_outputs_addressable tx derivation []); [done|done|apply map_Forall_empty].
Qed.

Lemma filter_addressable tx (owned : list N) :
  Forall (fun i => addressable tx i = true) owned ->
  filter (fun idx => addressable tx idx = true) owned = owned.
Proof.
  induction 1 as [|i owned Hi _ IH]; [done|].
  rewrite filter_cons_True by done. by rewrite IH.
Qed.

(** A build that returns success without logging went through all owned
    outputs. *)
Lemma createTransfers_clean account blockInfo tx owned globalIdxs transfers0 seen :
  outcome (createTransfers account blockInfo tx owned globalIdxs transfers0 seen)
  = Returned Success ->
  log_out (createTransfers account blockInfo tx owned globalIdxs transfers0 seen) = [] ->
  ∃ emitted,
    transfers_out (createTransfers account blockInfo tx owned globalIdxs transfers0 seen)
    = transfers0 ++ emitted
    ∧ outputInTransaction <$> emitted = filter (fun idx => addressable tx idx = true) owned.
Proof.
  unfold createTransfers.
  destruct (createTransfers_loop _ _ _ _ _ _ _) as [st|o st] eqn:Hl; simpl.
  - intros _ _. apply createTransfers_loop_Next in Hl as (_ & _ & emitted & Ht & _ & Hidx).
    by exists emitted.
  - intros -> Hlog. apply createTransfers_loop_Leave in Hl as (_ & Hs & _).
    destruct (Hs eq_refl) as (_ & line & Hline). simpl in *. by rewrite Hlog in Hline.
Qed.

End ScannerAddressable.

Section PreprocessClean.
Context `{ext : Externals} `{node : INode} {Container : Type} `{ops : SubscriptionOps Container}.
Implicit Types (c : TransfersConsumer Container).

(** The rounds of [preprocessOutputs] that end without a logged line. *)
Lemma preprocessOutputs_rounds_clean c blockInfo tx (l : list (PublicKey * list N)) s s' :
  NoDup l.*1 ->
  Forall (fun kv => Forall (fun i => addressable tx i = true) kv.2) l ->
  foldl (preprocessOutputs_round c blockInfo tx) (Next s) l = Next s' ->
  ∃ lines,
    ps_log s' = ps_log s ++ lines
    ∧ (lines = [] -> transfers_added c l (outputs (ps_info s)) (outputs (ps_info s'))).
Proof.
  intros Hnd Hl. revert s. induction Hl as [|[key owned] l Hkv _ IH]; simpl; intros s Hf.
  - injection Hf as <-. exists []. split; [by rewrite app_nil_r|].
    intros _ key. split; [done|]. by intros owned ?%elem_of_nil.
  - apply NoDup_cons in Hnd as [Hkey Hnd]. simpl in *.
    destruct (m_subscriptions c !! key) as [sub|] eqn:Hsub.
    + set (r := createTransfers (getKeys sub) blockInfo tx owned (globalIdxs (ps_info s))
                  (default [] (outputs (ps_info s) !! key)) (ps_seen s)) in *.
      destruct (outcome r) as [ec| |] eqn:Ho;
        [|by rewrite preprocessOutputs_rounds_Leave in Hf
         |by rewrite preprocessOutputs_rounds_Leave in Hf].
      destruct (is_error ec) eqn:Hec; [by rewrite preprocessOutputs_rounds_Leave in Hf|].
      assert (ec = Success) as -> by (by destruct ec).
      apply (IH Hnd) in Hf as (lines & Hlog & Hadded). simpl in *.
      exists (log_out r ++ lines). split; [by rewrite Hlog, <- app_assoc|].
      intros [Hr ->]%app_eq_nil. specialize (Hadded eq_refl).
      destruct (createTransfers_clean _ _ _ _ _ _ _ Ho Hr) as (emitted & Ht & Hidx).
      rewrite (filter_addressable tx owned Hkv) in Hidx.
      intros key'. destruct (Hadded key') as [Hsame Hnew]. split.
      * intros Hor. rewrite Hsame.
        -- apply lookup_insert_ne. intros <-. destruct Hor as [Hnot|Hnone]; [|congruence].
           apply Hnot. left.
        -- destruct Hor as [Hnot|Hnone]; [left|by right].
           intros Hin. apply Hnot. by right.
      * intros owned' [[= -> ->]|Hin]%elem_of_cons Hsome.
        -- exists emitted. split; [|done].
           rewrite (proj1 (Hadded key)) by (by left). rewrite lookup_insert_eq.
           f_equal. exact Ht.
        -- assert (key' ≠ key) as Hne.
           { intros ->. apply Hkey. apply list_elem_of_fmap. by exists (key, owned'). }
           destruct (Hnew owned' Hin Hsome) as (emitted' & Ha & Hi).
           exists emitted'. split; [|done]. by rewrite Ha, lookup_insert_ne.
    + apply (IH Hnd) in Hf as (lines & Hlog & Hadded).
      exists lines. split; [done|]. intros Hlines key'.
      destruct (Hadded Hlines key') as [Hsame Hnew]. split.
      * intros [Hnot|Hnone]; apply Hsame; [left|by right].
        intros Hin. apply Hnot. by right.
      * intros owned' [[= -> ->]|Hin]%elem_of_cons Hsome; [|by apply Hnew].
        rewrite Hsub in Hsome. by destruct Hsome.
Qed.

(** The rounds do not leave early with success. *)
Lemma preprocessOutputs_rounds_not_Success c blockInfo tx (l : list (PublicKey * list N)) s s' :
  foldl (preprocessOutputs_round c blockInfo tx) (Next s) l ≠ Leave (Returned Success) s'.
Proof.
  revert s. induction l as [|[key owned] l IH]; simpl; intros s; [done|].
  destruct (m_subscriptions c !! key) as [sub|]; [|apply IH].
  destruct (outcome _) as [ec| |]; [|by rewrite preprocessOutputs_rounds_Leave..].
  destruct (is_error ec) eqn:Hec; [|apply IH].
  rewrite preprocessOutputs_rounds_Leave. intros [= -> _]. done.
Qed.

(** X19.  A clean preprocessing hands every found account exactly its
    outputs: for a transaction of at most 2^32 outputs, when
    [preprocessOutputs] returns success without logging anything, then under
    every spend key the scanner found that is subscribed [info.outputs] holds
    what it held before followed by one transfer per output index the scanner
    recorded for the key, in the scanner's order, and under every other key
    [info.outputs] is as before. *)
Theorem X19_preprocessOutputs_clean c blockInfo tx info seen (key : PublicKey) :
  N.of_nat (length (txOutputs tx)) <= 2 ^ 32 ->
  pre_outcome (preprocessOutputs c blockInfo tx info seen) = Returned Success ->
  pre_log (preprocessOutputs c blockInfo tx info seen) = [] ->
  match findMyOutputs tx (m_viewSecret c) (m_spendKeys c) ∅ !! key,
        m_subscriptions c !! key with
  | Some owned, Some _ =>
      ∃ emitted,
        outputs (pre_info (preprocessOutputs c blockInfo tx info seen)) !! key
        = Some (default [] (outputs info !! key) ++ emitted)
        ∧ outputInTransaction <$> emitted = owned
  | _, _ =>
      outputs (pre_info (preprocessOutputs c blockInfo tx info seen)) !! key
      = outputs info !! key
  end.
Proof.
  intros Hlen. unfold preprocessOutputs.
  set (found := findMyOutputs tx (m_viewSecret c) (m_spendKeys c) ∅).
  case_decide as Hfound.
  { simpl. intros _ _. rewrite Hfound, lookup_empty. done. }
  destruct (is_error _) eqn:Herr.
  { simpl. intros [= Hec]. rewrite Hec in Herr. done. }
  match goal with
  | |- context [foldl _ (Next ?s1) _] =>
      destruct (foldl (preprocessOutputs_round c blockInfo tx) (Next s1) (map_to_list found))
        as [s2|o s2] eqn:Hf
  end; simpl.
  - intros _ Hlog.
    apply preprocessOutputs_rounds_clean in Hf as (lines & Hlines & Hadded).
    + simpl in *. rewrite Hlog in Hlines. symmetry in Hlines. subst lines.
      destruct (Hadded eq_refl key) as [Hsame Hnew].
      destruct (found !! key) as [owned|] eqn:Hkey.
      * destruct (m_subscriptions c !! key) as [sub|] eqn:Hsub; [|apply Hsame; by right].
        apply Hnew; [by apply elem_of_map_to_list|done].
      * apply Hsame. left. intros Hin. apply list_elem_of_fmap in Hin as ([k l] & -> & Hin).
        apply elem_of_map_to_list in Hin. simpl in *. congruence.
    + apply NoDup_fst_map_to_list.
    + apply Forall_forall. intros [k l] Hin. apply elem_of_map_to_list in Hin.
      by apply (findMyOutputs_addressable tx (m_viewSecret c) (m_spendKeys c) Hlen k l).
  - intros -> _. by apply preprocessOutputs_rounds_not_Success in Hf.
Qed.

End PreprocessClean.

(** ** The properties at concrete inputs *)

(** C1 at a failing input: the second owned output of [example_tx] carries a
    key that another transaction placed in [public_keys_seen].  The call
    returns success and logs the duplicate, yet the transfer built for the
    first output stays in the vector handed back to the caller. *)
Theorem C1_drop_keeps_earlier_transfers :
  let r := createTransfers (ext := example_externals) example_account
             example_confirmed example_tx [0; 1; 2] [50; 51; 52] [] example_seen in
  (getTransactionHash example_tx ∉ transactions_hash_seen example_seen)
  ∧ 200 ∈ public_keys_seen example_seen
  ∧ outcome r = Returned Success
  ∧ log_out r = [DuplicateOutputKey 7]
  ∧ seen_out r = example_seen
  ∧ transfers_out r =
      [ {| type := Key; transactionPublicKey := 5; outputInTransaction := 0;
           globalOutputIndex := 50; amount := 10; details := KeyDetails 100 0 |} ].
Proof.
  split_and!; try reflexivity; by vm_compute.
Qed.

(** C10 at a transaction seen before: [example_tx] is built once on the empty
    registry and a second time on the registry the first call left, which
    holds its hash and all its keys. *)
Lemma C10_witness :
  let first := createTransfers (ext := example_externals) example_account
                 example_unconfirmed example_tx [0; 1; 2] [] [] empty_seen in
  let r := createTransfers (ext := example_externals) example_account
             example_confirmed example_tx [0; 1; 2] [50; 51; 52] [] (seen_out first) in
  100 ∈ public_keys_seen (seen_out first)
  ∧ log_out r = []
  ∧ seen_out r = seen_out first
  ∧ (∃ emitted,
       transfers_out r = [] ++ emitted
       ∧ (outcome r = Returned Success ->
          outputInTransaction <$> emitted
            = filter (fun idx => addressable example_tx idx = true) [0; 1; 2])).
Proof.
  split; [by vm_compute|].
  apply (C10_seen_hash_is_never_dropped (ext := example_externals)).
  by vm_compute.
Defined.

(** C6 at a transaction known from the pool that arrives in a block. *)
Lemma C6_witness :
  let r := processOutputs (ext := example_externals) (ops := example_ops)
             example_confirmed example_sub_pool example_tx [] [50; 51; 52] in
  let known := {| blockHeight := 4294967295 |} in
  getTransactionInformation (SubscriptionOps := example_ops)
    (container example_sub_pool) (getTransactionHash example_tx) = Some known
  ∧ r = Some (sub_markTransactionConfirmed (ops := example_ops) example_sub_pool
                example_confirmed 7 [50; 51; 52], true, true)
  ∧ added_blockInfos
      (received (sub_markTransactionConfirmed (ops := example_ops) example_sub_pool
                   example_confirmed 7 [50; 51; 52])) = [].
Proof.
  pose proof (C6_known_transaction (ext := example_externals) (ops := example_ops)
                example_confirmed example_sub_pool example_tx [] [50; 51; 52]
                {| blockHeight := 4294967295 |} eq_refl) as (Hmark & _ & _ & _ & Hadd).
  split; [reflexivity|].
  destruct Hmark as [Hr _]; [by vm_compute|].
  split; [exact Hr|]. exact (Hadd _ _ _ Hr).
Defined.

(** One step of a run between concrete pools: the step is taken and the pool
    it leads to is evaluated. *)
Ltac pool_run_step step := eapply rtc_l; [step|]; vm_compute.

(** The run that ends in [example_pool_done]. *)
Lemma example_run_done :
  rtc pool_step
      (start_pool 2 (enumerate_rounds (ext := example_externals)
                       (m_syncStart example_consumer) 100 0 example_blocks))
      example_pool_done.
Proof.
  vm_compute.
  pool_run_step ltac:(eapply step_next_block; reflexivity).
  pool_run_step ltac:(eapply step_push; [reflexivity|reflexivity]).
  pool_run_step ltac:(eapply step_next_block; reflexivity).
  pool_run_step ltac:(eapply step_push; [reflexivity|reflexivity]).
  pool_run_step ltac:(eapply step_close; [reflexivity|by left]).
  pool_run_step ltac:(eapply (step_loop_test _ 0); reflexivity).
  pool_run_step ltac:(eapply (step_loop_test _ 1); reflexivity).
  pool_run_step ltac:(eapply (step_pop _ 0); reflexivity).
  pool_run_step ltac:(eapply (step_pop _ 1); reflexivity).
  pool_run_step ltac:(eapply (step_push_back _ 1 _ example_info2); reflexivity).
  pool_run_step ltac:(eapply (step_push_back _ 0 _ example_info1); reflexivity).
  pool_run_step ltac:(eapply (step_loop_test _ 0); reflexivity).
  pool_run_step ltac:(eapply (step_loop_test _ 1); reflexivity).
  pool_run_step ltac:(eapply (step_pop_closed _ 0); reflexivity).
  pool_run_step ltac:(eapply (step_pop_closed _ 1); reflexivity).
  apply rtc_refl.
Qed.

(** The run that ends in [example_pool_failed]. *)
Lemma example_run_failed :
  rtc pool_step
      (start_pool 1 (enumerate_rounds (ext := example_externals)
                       (m_syncStart example_consumer) 100 0 example_blocks))
      example_pool_failed.
Proof.
  vm_compute.
  pool_run_step ltac:(eapply step_next_block; reflexivity).
  pool_run_step ltac:(eapply step_push; [reflexivity|reflexivity]).
  pool_run_step ltac:(eapply (step_loop_test _ 0); reflexivity).
  pool_run_step ltac:(eapply (step_pop _ 0); reflexivity).
  pool_run_step ltac:(eapply (step_error _ 0 _ (NodeError 1)); reflexivity).
  pool_run_step ltac:(eapply step_close; [reflexivity|by right]).
  apply rtc_refl.
Qed.

(** The run that ends in [example_pool_blocked]. *)
Lemma example_run_blocked :
  rtc pool_step
      (start_pool 1 (enumerate_rounds (ext := example_externals)
                       (m_syncStart example_consumer) 100 0 example_long_block))
      example_pool_blocked.
Proof.
  vm_compute.
  pool_run_step ltac:(eapply step_next_block; reflexivity).
  pool_run_step ltac:(eapply step_push; [reflexivity|reflexivity]).
  pool_run_step ltac:(eapply step_push; [reflexivity|reflexivity]).
  pool_run_step ltac:(eapply (step_loop_test _ 0); reflexivity).
  pool_run_step ltac:(eapply (step_pop _ 0); reflexivity).
  pool_run_step ltac:(eapply step_push; [reflexivity|reflexivity]).
  pool_run_step ltac:(eapply (step_error _ 0 _ (NodeError 1)); reflexivity).
  apply rtc_refl.
Qed.

(** Nothing happens after [example_pool_blocked]: the queue is full, the only
    worker has left, and the pushing thread is in the middle of a block. *)
Lemma example_pool_blocked_stuck (p : Pool) :
  rtc pool_step example_pool_blocked p -> p = example_pool_blocked.
Proof.
  intros Hrun. apply rtc_inv in Hrun as [Heq|(p' & Hstep & _)]; [done|].
  exfalso. inversion Hstep as [q its later Hp Hs|q item pending later Hp Hq|q later Hp Hl
                              |q w Hw Hs|q w Hw Hs|q w item rest Hw Hq|q w Hw Hq Hc
                              |q w item output Hw|q w item ec Hw Hec|q w item r Hw Hr];
    simpl in *; first [done|by destruct w as [|[|w]]].
Qed.

(** C2 at a batch of two blocks that two workers finish in reverse order: the
    subscription still receives the transaction of height 100 before the one
    of height 101. *)
Lemma C2_witness :
  let c' :=
    (default (example_consumer, false)
       (onNewBlocks_join (ext := example_externals) (ops := example_ops)
          example_blocks 100 2
          [WorkerReturned Success; WorkerReturned Success]
          (preprocessedTransactions example_pool_done) example_consumer)).1 in
  onNewBlocks (ext := example_externals) (ops := example_ops)
    2 example_blocks 100 example_consumer (Some (c', true))
  ∧ added_blockInfos <$> (received <$> m_subscriptions c' !! 11)
    = Some [tx_blockInfo example_item1; tx_blockInfo example_item2]
  ∧ ∃ (p : Pool) (results : list WorkerResult),
      rtc pool_step
          (start_pool 2 (enumerate_rounds (ext := example_externals)
                           (m_syncStart example_consumer) 100 0 example_blocks)) p
      ∧ worker_results p = Some results
      ∧ let applied := std_sort tie_less (preprocessedTransactions p) in
        applied ≡ₚ preprocessedTransactions p
        ∧ (Forall (fun r => r = WorkerReturned Success) results ->
           base <$> applied
             ≡ₚ enumerate_blocks (ext := example_externals)
                  (m_syncStart example_consumer) 100 0 example_blocks)
        ∧ StronglySorted block_order ((fun ptx => tx_blockInfo (base ptx)) <$> applied)
        ∧ grows_by ((fun ptx => tx_blockInfo (base ptx)) <$> applied)
                   (m_subscriptions example_consumer) (m_subscriptions c')
        ∧ (∀ key sub',
             m_subscriptions c' !! key = Some sub' ->
             ∃ sub calls,
               m_subscriptions example_consumer !! key = Some sub
               ∧ received sub' = received sub ++ calls
               ∧ StronglySorted block_order (added_blockInfos calls)).
Proof.
  intros c'.
  assert (onNewBlocks (ext := example_externals) (ops := example_ops)
            2 example_blocks 100 example_consumer (Some (c', true))) as Hcall.
  { unfold onNewBlocks.
    change (negb NDEBUG && (N.of_nat (length example_blocks) =? 0)%N) with false.
    cbv iota.
    exists example_pool_done, [WorkerReturned Success; WorkerReturned Success].
    split_and!; [apply example_run_done|reflexivity|reflexivity|by vm_compute]. }
  split_and!; [exact Hcall|by vm_compute|].
  exact (C2_applied_in_block_order (ext := example_externals) (ops := example_ops)
           2 example_blocks 100 example_consumer c' Hcall).
Defined.

(** C4 at a failing input: a batch of one block with four transactions, on a
    platform with one hardware thread and a node whose lookup fails for the
    first transaction.  The worker takes the first item, fails, raises
    [stopProcessing] and leaves; the pushing thread, which reads the flag
    between blocks only, has filled the queue of bound 2 and stands in
    [inputQueue.push] with the last item.  [onError] reaches the subscription
    and nothing is applied, but no thread can take a step any more: the
    pushing thread never finishes, and the call, which waits for it when the
    scope is left, does not return.  The same holds of every run on this input
    in which the worker leaves without a preprocessed transaction, as it does
    when the first lookup fails. *)
Theorem C4_error_leaves_pusher_blocked :
  (∀ seen,
     pre_outcome (preprocessOutputs (ext := example_externals) (node := example_node)
                    example_consumer (tx_blockInfo example_item1) example_tx
                    new_PreprocessInfo seen)
     = Returned (NodeError 1))
  ∧ enumerate_rounds (ext := example_externals) (m_syncStart example_consumer) 100 0
      example_long_block
    = [[example_item1; example_queued 1; example_queued 2; example_queued 3]]
  ∧ m_maxSize (start_pool 1 [[example_item1; example_queued 1; example_queued 2;
                              example_queued 3]]) = 2
  ∧ rtc pool_step
        (start_pool 1 (enumerate_rounds (ext := example_externals)
                         (m_syncStart example_consumer) 100 0 example_long_block))
        example_pool_blocked
  ∧ worker_results example_pool_blocked = Some [WorkerReturned (NodeError 1)]
  ∧ (fun r => (received <$> m_subscriptions r.1, notified r.1, r.2))
      <$> onNewBlocks_join (ext := example_externals) (ops := example_ops)
            example_long_block 100 1 [WorkerReturned (NodeError 1)]
            (preprocessedTransactions example_pool_blocked) example_consumer
    = Some ({[ 11 := [OnError (NodeError 1) 100] ]}, [], false)
  ∧ producer example_pool_blocked = Pushing [example_queued 3] []
  ∧ (∀ p, rtc pool_step example_pool_blocked p ->
          p = example_pool_blocked ∧ producer p ≠ ProducerFinished)
  ∧ (∀ p results,
       rtc pool_step
           (start_pool 1 (enumerate_rounds (ext := example_externals)
                            (m_syncStart example_consumer) 100 0 example_long_block)) p ->
       worker_results p = Some results ->
       preprocessedTransactions p = [] ->
       producer p ≠ ProducerFinished).
Proof.
  split_and!; [by vm_compute|reflexivity|reflexivity|apply example_run_blocked
              |reflexivity|by vm_compute|reflexivity| |].
  - intros p Hrun. by rewrite (example_pool_blocked_stuck p Hrun).
  - intros p results Hrun Hresults Hnone.
    change (enumerate_rounds (ext := example_externals) (m_syncStart example_consumer)
              100 0 example_long_block)
      with [[example_item1; example_queued 1; example_queued 2; example_queued 3]] in Hrun.
    by eapply one_round_of_four_blocked; [eapply pool_run_one_round_of_four|..].
Qed.

(** X20 at a batch whose first global-index lookup fails with one worker, while
    the pushing thread is between the two blocks. *)
Lemma X20_witness :
  ∃ (e : error_code) c',
    join_workers [WorkerReturned (NodeError 1)] = e
    ∧ is_error e = true
    ∧ (Forall (fun r => ¬ raised r) [WorkerReturned (NodeError 1)] ->
       first_error [WorkerReturned (NodeError 1)] = Some e)
    ∧ onNewBlocks_join (ext := example_externals) (ops := example_ops)
        example_blocks 100 (N.of_nat (length example_blocks))
        [WorkerReturned (NodeError 1)]
        (preprocessedTransactions example_pool_failed) example_consumer = Some (c', false)
    ∧ (producer example_pool_failed = ProducerFinished ->
       onNewBlocks (ext := example_externals) (ops := example_ops)
         1 example_blocks 100 example_consumer (Some (c', false)))
    ∧ (∀ key sub,
         m_subscriptions example_consumer !! key = Some sub ->
         ∃ sub', m_subscriptions c' !! key = Some sub'
                 ∧ received sub' = received sub ++ [OnError e 100])
    ∧ (∀ key, m_subscriptions example_consumer !! key = None ->
              m_subscriptions c' !! key = None)
    ∧ notified c' = notified example_consumer.
Proof.
  apply (X20_error_join (ext := example_externals) (ops := example_ops)
           1 example_blocks 100 example_consumer example_pool_failed
           [WorkerReturned (NodeError 1)]).
  - apply example_run_failed.
  - reflexivity.
  - exists (NodeError 1). split; [apply list_elem_of_singleton|]; reflexivity.
  - intros code Hcode. apply list_elem_of_singleton in Hcode. discriminate.
Defined.

(** C3 at [example_tx]: the sub-keys of the Multisignature output at position
    2 are tested with 2, although the running key index stands at 2 and then
    at 3, so the watched key 11 is found through the second sub-key. *)
Lemma C3_witness :
  map_to_list (findMyOutputs (ext := example_externals) example_tx 14 {[ 81; 11 ]} ∅)
    = [(81, [0]); (11, [2])]
  ∧ scan_outputs (ext := example_externals) 19 (txOutputs example_tx) 0 {[ 81; 11 ]} (0, ∅)
    = (running_key_index (txOutputs example_tx) (length (txOutputs example_tx)),
       foldl (record_call (ext := example_externals) 19 {[ 81; 11 ]}) ∅
         (prescribed_calls (txOutputs example_tx)))
  ∧ findMyOutputs (ext := example_externals) example_tx 14 {[ 81; 11 ]} ∅
    = foldl (record_call (ext := example_externals) 19 {[ 81; 11 ]}) ∅
        (prescribed_calls (txOutputs example_tx)).
Proof.
  split; [by vm_compute|].
  apply (C3_scanner_key_index (ext := example_externals) example_tx 14 {[ 81; 11 ]} ∅ 19).
  - by vm_compute.
  - by vm_compute.
  - reflexivity.
Defined.

(** C7 at two subscriptions of which the first is removed again: the sync
    start falls back to the start of the second. *)
Lemma C7_witness :
  let c := facade_run example_calls (new_TransfersConsumer 14) in
  getSyncStart_consumer c = {| ss_timestamp := 900; ss_height := 5 |}
  ∧ component_wise_minimum (m_subscriptions c) (getSyncStart_consumer c)
  ∧ (m_subscriptions c = ∅ ->
     getSyncStart_consumer c = {| ss_timestamp := UINT64_MAX; ss_height := UINT64_MAX |})
  ∧ getSyncStart_consumer (new_TransfersConsumer (Container := unit) 14)
    = {| ss_timestamp := UINT64_MAX; ss_height := UINT64_MAX |}.
Proof.
  split; [by vm_compute|].
  apply (C7_sync_start_is_minimum 14 example_calls).
  repeat constructor; by vm_compute.
Defined.

(** C5 at [example_tx]: built on the empty registry the call completes and
    merges the hash and the four keys; built on a registry that holds the key
    200 from another transaction the drop fires and the registry stays as it
    was. *)
Lemma C5_witness :
  let completed := createTransfers (ext := example_externals) example_account
                     example_confirmed example_tx [0; 1; 2] [50; 51; 52] [] empty_seen in
  let dropped := createTransfers (ext := example_externals) example_account
                   example_confirmed example_tx [0; 1; 2] [50; 51; 52] [] example_seen in
  (transactions_hash_seen (seen_out completed) = ∅ ∪ {[ 7 ]}
   ∧ public_keys_seen (seen_out completed)
     = ∅ ∪ list_to_set (owned_output_keys example_tx [0; 1; 2]))
  ∧ owned_output_keys example_tx [0; 1; 2] = [100; 200; 31; 32]
  ∧ (outcome dropped = Returned Success ∧ seen_out dropped = example_seen).
Proof.
  intros completed dropped.
  destruct (C5_registry_merge (ext := example_externals) example_account
              example_confirmed example_tx [0; 1; 2] [50; 51; 52] [] empty_seen)
    as (Hmerge & _ & _).
  destruct (C5_registry_merge (ext := example_externals) example_account
              example_confirmed example_tx [0; 1; 2] [50; 51; 52] [] example_seen)
    as (_ & Hdrop & _).
  split; [|split].
  - apply Hmerge; [by vm_compute|reflexivity|reflexivity].
  - reflexivity.
  - apply Hdrop. by vm_compute.
Defined.

(** C9 at [example_tx]: a confirmed build carries [globalIdxs[idx]], and an
    owned index 7 past the three outputs makes the call fail with
    ArgumentOutOfDomain once the loop reaches it. *)
Lemma C9_witness :
  let r := createTransfers (ext := example_externals) example_account
             example_confirmed example_tx [0; 7] [50; 51; 52] [] empty_seen in
  (∃ emitted,
     transfers_out r = [] ++ emitted
     ∧ Forall (carries_global_index (ext := example_externals) example_confirmed [50; 51; 52])
              emitted)
  ∧ outcome r = Returned ArgumentOutOfDomain.
Proof.
  intros r.
  destruct (C9_global_output_index (ext := example_externals) example_account
              example_confirmed example_tx [0; 7] [50; 51; 52] [] empty_seen)
    as (Hcarried & Hdomain).
  split; [exact Hcarried|].
  eapply (Hdomain [0] 7 []); [reflexivity|by vm_compute|reflexivity].
Defined.

(** X2 at [example_tx]: the watched key 11 is found at the Multisignature
    output at position 2, through its second key. *)
Lemma X2_witness :
  findMyOutputs (ext := example_externals) example_tx 14 {[ 81; 11 ]} ∅ !! 11 = Some [2]
  ∧ (2 ∈ default [] (findMyOutputs (ext := example_externals) example_tx 14 {[ 81; 11 ]} ∅
                       !! 11)
     <-> 11 ∈ ({[ 81; 11 ]} : gset PublicKey)
         ∧ output_matches (ext := example_externals) 19 (txOutputs example_tx) 2 11).
Proof.
  split; [by vm_compute|].
  apply (X2_scanner_sound_complete (ext := example_externals)
           example_tx 14 {[ 81; 11 ]} 19 11 2).
  - by vm_compute.
  - by vm_compute.
  - reflexivity.
Defined.

(** X3 at [example_tx_shared]: the index 1 stands twice under the key 11,
    which two keys of the Multisignature output at position 1 lead to. *)
Lemma X3_witness :
  findMyOutputs (ext := example_externals) example_tx_shared 14 {[ 81; 11 ]} ∅
  = {[ 81 := [0]; 11 := [1; 1] ]}
  ∧ leading_keys (ext := example_externals) example_tx_shared 14 1 11 = 2%nat
  ∧ map_Forall (fun spendKey indices =>
                  StronglySorted N.le indices
                  ∧ ∀ i, (occurrences i indices
                          <= leading_keys (ext := example_externals) example_tx_shared 14 i
                               spendKey)%nat)
               (findMyOutputs (ext := example_externals) example_tx_shared 14
                  {[ 81; 11 ]} ∅).
Proof.
  split; [by vm_compute|]. split; [reflexivity|].
  apply (X3_scanner_ascending (ext := example_externals) example_tx_shared 14 {[ 81; 11 ]}).
  by vm_compute.
Defined.

(** X4 at [example_tx] built on the empty registry: the call completes, and
    the four output keys are fresh. *)
Lemma X4_witness :
  outcome (createTransfers (ext := example_externals) example_account example_confirmed
             example_tx [0; 1; 2] [50; 51; 52] [] empty_seen) = Returned Success
  ∧ owned_output_keys example_tx [0; 1; 2] = [100; 200; 31; 32]
  ∧ fresh_keys empty_seen (owned_output_keys example_tx [0; 1; 2]).
Proof.
  split; [reflexivity|]. split; [reflexivity|].
  apply (X4_completion_means_fresh_keys (ext := example_externals) example_account
           example_confirmed example_tx [0; 1; 2] [50; 51; 52] [] empty_seen).
  - by vm_compute.
  - reflexivity.
  - reflexivity.
Defined.

(** The owned outputs of [example_tx] are what the builder needs. *)
Lemma example_builder_input_ok :
  Forall (builder_input_ok (ext := example_externals) example_account example_confirmed
            example_tx [50; 51; 52]) [0; 1; 2].
Proof.
  constructor; [|constructor; [|constructor; [|constructor]]];
    (split; [by vm_compute|split; [right; simpl; lia|]]);
    right; intros amount key; vm_compute; congruence.
Qed.

(** The output keys of [example_tx] are fresh for the empty registry. *)
Lemma example_fresh_keys : fresh_keys empty_seen (owned_output_keys example_tx [0; 1; 2]).
Proof.
  split.
  - apply (bool_decide_unpack _). by vm_compute.
  - apply Forall_forall. intros key _. apply not_elem_of_empty.
Qed.

(** X5 at [example_tx] built on the empty registry: one transfer for each of
    its three outputs. *)
Lemma X5_witness :
  outcome (createTransfers (ext := example_externals) example_account example_confirmed
             example_tx [0; 1; 2] [50; 51; 52] [] empty_seen) = Returned Success
  ∧ log_out (createTransfers (ext := example_externals) example_account example_confirmed
               example_tx [0; 1; 2] [50; 51; 52] [] empty_seen) = []
  ∧ ∃ emitted,
      transfers_out (createTransfers (ext := example_externals) example_account
                       example_confirmed example_tx [0; 1; 2] [50; 51; 52] [] empty_seen)
      = [] ++ emitted
      ∧ outputInTransaction <$> emitted
        = filter (fun idx => addressable example_tx idx = true) [0; 1; 2].
Proof.
  apply (X5_builder_success (ext := example_externals) example_account example_confirmed
           example_tx [0; 1; 2] [50; 51; 52] [] empty_seen).
  - apply example_builder_input_ok.
  - right. apply example_fresh_keys.
Defined.

(** X6 at [example_tx]: built a second time on the registry the first call
    left, the same three transfers come out. *)
Lemma X6_witness :
  let first := createTransfers (ext := example_externals) example_account example_confirmed
                 example_tx [0; 1; 2] [50; 51; 52] [] empty_seen in
  let again := createTransfers (ext := example_externals) example_account example_confirmed
                 example_tx [0; 1; 2] [50; 51; 52] [] (seen_out first) in
  length (transfers_out first) = 3%nat
  ∧ outcome again = Returned Success
  ∧ log_out again = []
  ∧ transfers_out again = transfers_out first
  ∧ seen_out again = seen_out first.
Proof.
  split; [reflexivity|].
  apply (X6_builder_replay (ext := example_externals) example_account example_confirmed
           example_tx [0; 1; 2] [50; 51; 52] [] empty_seen); reflexivity.
Defined.

(** X9 after [example_calls]: the first account, which has left, subscribes
    and leaves again. *)
Lemma X9_witness :
  getSubscription (address (keys example_subscription))
                  (facade_run example_calls (new_TransfersConsumer 14)) = None
  ∧ facade_run [CallAddSubscription tt example_subscription;
                CallRemoveSubscription (address (keys example_subscription))]
               (facade_run example_calls (new_TransfersConsumer 14))
    = facade_run example_calls (new_TransfersConsumer 14).
Proof.
  split; [by vm_compute|].
  apply (X9_add_remove_round_trip 14 example_calls tt example_subscription).
  - repeat constructor; by vm_compute.
  - by vm_compute.
Defined.

(** X11 at [example_tx] in a block, with a node whose lookup fails. *)
Lemma X11_witness :
  pre_outcome (preprocessOutputs (ext := example_externals) (node := example_node)
                 example_consumer example_confirmed example_tx new_PreprocessInfo empty_seen)
  = Returned (NodeError 1)
  ∧ pre_seen (preprocessOutputs (ext := example_externals) (node := example_node)
                example_consumer example_confirmed example_tx new_PreprocessInfo empty_seen)
    = empty_seen
  ∧ pre_log (preprocessOutputs (ext := example_externals) (node := example_node)
               example_consumer example_confirmed example_tx new_PreprocessInfo empty_seen)
    = [].
Proof.
  assert (pre_outcome (preprocessOutputs (ext := example_externals) (node := example_node)
                         example_consumer example_confirmed example_tx new_PreprocessInfo
                         empty_seen)
          = Returned (NodeError 1)) as Ho by (by vm_compute).
  split; [exact Ho|].
  destruct (X11_preprocessOutputs_errors (ext := example_externals) (node := example_node)
              example_consumer example_confirmed example_tx new_PreprocessInfo empty_seen)
    as (Hec & _).
  destruct (Hec (NodeError 1) Ho eq_refl) as (_ & _ & Hseen & _ & Hlog).
  split; [exact Hseen|exact Hlog].
Defined.

(** X13 at a pool update that adds [example_tx] and deletes the transaction
    3. *)
Lemma X13_witness :
  (onPoolUpdated (ext := example_externals) (node := example_node) (ops := example_ops)
     (pool := example_pool_ops) [example_tx] [3] 0 example_pool_state).1 = Returned Success
  ∧ getKnownPoolTxIds
      (onPoolUpdated (ext := example_externals) (node := example_node) (ops := example_ops)
         (pool := example_pool_ops) [example_tx] [3] 0 example_pool_state).2
    = ({[ 3 ]} ∪ list_to_set [7]) ∖ list_to_set [3].
Proof.
  assert ((onPoolUpdated (ext := example_externals) (node := example_node)
             (ops := example_ops) (pool := example_pool_ops)
             [example_tx] [3] 0 example_pool_state).1 = Returned Success) as Ho
    by (by vm_compute).
  split; [exact Ho|].
  destruct (X13_onPoolUpdated_known_pool (ext := example_externals) (node := example_node)
              (ops := example_ops) (pool := example_pool_ops)
              [example_tx] [3] 0 example_pool_state) as (_ & Hknown & _).
  exact (Hknown Ho).
Defined.

(** X14 at a consumer whose subscription knows [example_tx] from the pool. *)
Lemma X14_witness :
  7 ∈ getKnownPoolTxIds
        (initTransactionPool (pool := example_pool_ops) ∅ example_pool_restart).
Proof.
  apply (X14_initTransactionPool_known (pool := example_pool_ops) ∅ example_pool_restart 7).
  right. split; [apply not_elem_of_empty|].
  exists 11, example_sub_pool. split; [reflexivity|].
  apply (bool_decide_unpack _). by vm_compute.
Defined.

(** X15 at [example_blocks] from height 100 on. *)
Lemma X15_witness :
  batch_fits 100 example_blocks
  ∧ enumerate_blocks (ext := example_externals) (m_syncStart example_consumer) 100 0
      example_blocks = [example_item1; example_item2]
  ∧ (∀ item,
       item ∈ enumerate_blocks (ext := example_externals) (m_syncStart example_consumer)
                100 0 example_blocks
       <-> to_scan (ext := example_externals) (m_syncStart example_consumer) 100
             example_blocks item)
  ∧ StronglySorted block_before
      (tx_blockInfo <$> enumerate_blocks (ext := example_externals)
                          (m_syncStart example_consumer) 100 0 example_blocks).
Proof.
  assert (batch_fits 100 example_blocks) as Hfits.
  { split; [by vm_compute|]. repeat constructor; by vm_compute. }
  split; [exact Hfits|]. split; [reflexivity|].
  exact (X15_producer_enumerates (ext := example_externals) (m_syncStart example_consumer)
           100 example_blocks Hfits).
Defined.

(** X16 at the run of two workers that finish in reverse order. *)
Lemma X16_witness :
  base <$> preprocessedTransactions example_pool_done = [example_item2; example_item1]
  ∧ base <$> std_sort tie_less (preprocessedTransactions example_pool_done)
    = enumerate_blocks (ext := example_externals) (m_syncStart example_consumer) 100 0
        example_blocks.
Proof.
  split; [reflexivity|].
  apply (X16_clean_run_applies_in_producer_order (ext := example_externals) 2
           (m_syncStart example_consumer) 100 example_blocks example_pool_done
           [WorkerReturned Success; WorkerReturned Success]).
  - split; [by vm_compute|]. repeat constructor; by vm_compute.
  - apply example_run_done.
  - reflexivity.
  - by repeat constructor.
Defined.

(** The batch of [example_blocks] is accepted. *)
Lemma example_batch_accepted :
  onNewBlocks (ext := example_externals) (ops := example_ops)
    2 example_blocks 100 example_consumer
    (Some ((default (example_consumer, false)
              (onNewBlocks_join (ext := example_externals) (ops := example_ops)
                 example_blocks 100 2
                 [WorkerReturned Success; WorkerReturned Success]
                 (preprocessedTransactions example_pool_done) example_consumer)).1, true)).
Proof.
  unfold onNewBlocks.
  change (negb NDEBUG && (N.of_nat (length example_blocks) =? 0)%N) with false.
  cbv iota.
  exists example_pool_done, [WorkerReturned Success; WorkerReturned Success].
  split_and!; [apply example_run_done|reflexivity|reflexivity|by vm_compute].
Qed.

(** X17 at the accepted batch of [example_blocks]: the observers hear of the
    two blocks first, and the subscription's last call is [advanceHeight] with
    101. *)
Lemma X17_witness :
  let c' :=
    (default (example_consumer, false)
       (onNewBlocks_join (ext := example_externals) (ops := example_ops)
          example_blocks 100 2
          [WorkerReturned Success; WorkerReturned Success]
          (preprocessedTransactions example_pool_done) example_consumer)).1 in
  uint32_cast (100 + N.of_nat (length example_blocks) + 2 ^ 32 - 1) = 101
  ∧ unchanged_but_subscriptions example_consumer c'
  ∧ (∃ updates,
       notified c' = notified example_consumer
                     ++ OnBlocksAdded (blockHash <$> example_blocks) :: updates
       ∧ transaction_updates updates)
  ∧ (∀ key sub',
       m_subscriptions c' !! key = Some sub' ->
       last (received sub')
       = Some (AdvanceHeight
                 (uint32_cast (100 + N.of_nat (length example_blocks) + 2 ^ 32 - 1)))).
Proof.
  intros c'. split; [reflexivity|].
  exact (X17_accepted_batch_trace (ext := example_externals) (ops := example_ops)
           2 example_blocks 100 example_consumer c' example_batch_accepted).
Defined.

(** X18 at the pool transaction [example_tx], which the subscription knows,
    applied once more. *)
Lemma X18_witness :
  processTransaction (ext := example_externals) (ops := example_ops)
    example_unconfirmed example_tx new_PreprocessInfo (consumer example_pool_restart)
  = Some (consumer example_pool_restart).
Proof.
  apply (X18_known_transaction_replay (ext := example_externals) (ops := example_ops)
           example_unconfirmed example_tx new_PreprocessInfo (consumer example_pool_restart)).
  intros key sub Hsub.
  change (({[ 11 := example_sub_pool ]} : gmap PublicKey _) !! key = Some sub) in Hsub.
  apply lookup_singleton_Some in Hsub as [_ <-].
  exists {| blockHeight := 4294967295 |}. split; reflexivity.
Defined.

(** X19 at [example_tx] in the pool: the account 11 owns the Multisignature
    output at position 2, and one transfer is built for it. *)
Lemma X19_witness :
  findMyOutputs (ext := example_externals) example_tx 14 {[ 11 ]} ∅ !! 11 = Some [2]
  ∧ ∃ emitted,
      outputs (pre_info (preprocessOutputs (ext := example_externals) (node := example_node)
                           example_consumer example_unconfirmed example_tx
                           new_PreprocessInfo empty_seen)) !! 11
      = Some ([] ++ emitted)
      ∧ outputInTransaction <$> emitted = [2].
Proof.
  split; [by vm_compute|].
  assert (N.of_nat (length (txOutputs example_tx)) <= 2 ^ 32) as Hlen by (by vm_compute).
  assert (pre_outcome (preprocessOutputs (ext := example_externals) (node := example_node)
                         example_consumer example_unconfirmed example_tx
                         new_PreprocessInfo empty_seen) = Returned Success) as Ho
    by (by vm_compute).
  assert (pre_log (preprocessOutputs (ext := example_externals) (node := example_node)
                     example_consumer example_unconfirmed example_tx
                     new_PreprocessInfo empty_seen) = []) as Hlog
    by (by vm_compute).
  exact (X19_preprocessOutputs_clean (ext := example_externals) (node := example_node)
           example_consumer example_unconfirmed example_tx new_PreprocessInfo empty_seen 11
           Hlen Ho Hlog).
Defined.

(** ** Limits of the properties, at concrete inputs *)

(** The join loop keeps the first returned error only until a later future
    raises: the [catch] clauses overwrite [processingError]. *)
Example join_workers_exception_overrides :
  join_workers [WorkerReturned (NodeError 1); WorkerException] = OperationCanceled
  ∧ join_workers [WorkerReturned (NodeError 1); WorkerSystemError (NodeError 2)] = NodeError 2
  ∧ join_workers [WorkerException; WorkerReturned (NodeError 1)] = OperationCanceled.
Proof. split_and!; reflexivity. Qed.

(** An owned index past the output count is only met when the loop gets
    there: here the duplicate key of output 1 ends the call first, with
    success. *)
Example createTransfers_drop_before_out_of_domain :
  outcome (createTransfers (ext := example_externals) example_account
             example_confirmed example_tx [1; 7] [50; 51; 52] [] example_seen)
  = Returned Success.
Proof. reflexivity. Qed.

(** With the same key twice among the owned outputs of one call the second
    occurrence is rejected through [temp_keys]. *)
Example createTransfers_same_key_twice :
  let r := createTransfers (ext := example_externals) example_account
             example_confirmed example_tx [0; 0] [50; 51; 52] [] empty_seen in
  outcome r = Returned Success
  ∧ log_out r = [SameOutputKeyTwice 7]
  ∧ seen_out r = empty_seen
  ∧ length (transfers_out r) = 1%nat.
Proof. split_and!; reflexivity. Qed.
